(** * epub2pdf: the EPUB parser and document assembler of
      [internal/epub/parser.go], embedded in Rocq.

    Go strings and byte slices are sequences of bytes; both are modelled as
    [list ascii] (an [ascii] is one byte).  Go's [int] is modelled as [Z];
    indexes produced by the library functions stay far below 2^63, so no
    wrap-around occurs in this program.  A run-time panic (slice bounds out
    of range) is modelled by [None] in the option monad. *)

From Stdlib Require Import ZArith Ascii Lia.
From stdpp Require Import base option list gmap strings sorting.

Local Open Scope Z_scope.

(** ** Go strings *)

Definition gostring := list ascii.

(** String literals for [gostring]: the bytes of the literal. *)

Inductive gostring_literal := GoNil | GoCons (c : ascii) (s : gostring_literal).

Fixpoint gostring_parse (l : list Byte.byte) : gostring_literal :=
  match l with
  | [] => GoNil
  | b :: t => GoCons (ascii_of_byte b) (gostring_parse t)
  end.

Fixpoint gostring_print (s : gostring_literal) : list Byte.byte :=
  match s with
  | GoNil => []
  | GoCons c t => byte_of_ascii c :: gostring_print t
  end.

Declare Scope go_scope.
Delimit Scope go_scope with go.
Bind Scope go_scope with gostring.
#[warnings="-via-type-mismatch,-via-type-remapping"]
String Notation gostring gostring_parse gostring_print
  (via gostring_literal mapping [[nil] => GoNil, [cons] => GoCons]) : go_scope.
Local Open Scope go_scope.

(** [len(s)] *)
Definition len (s : gostring) : Z := Z.of_nat (length s).

(** [s == t] on strings. *)
Fixpoint streq (s t : gostring) : bool :=
  match s, t with
  | [], [] => true
  | c :: s', d :: t' => Ascii.eqb c d && streq s' t'
  | _, _ => false
  end.

(** [s[lo:hi]]: panics unless [0 <= lo <= hi <= len(s)]. *)
Definition slice (s : gostring) (lo hi : Z) : option gostring :=
  if (0 <=? lo) && (lo <=? hi) && (hi <=? len s)
  then Some (take (Z.to_nat (hi - lo)) (drop (Z.to_nat lo) s))
  else None.

(** ** The data of parser.go

    One module for each struct, so that the fields keep their names. *)

Module ZipFile.
(** [zip.File]: the stored name, and what [f.Open()] followed by
    [io.ReadAll] yields ([None] when either reports an error). *)
Record t := mk { Name : gostring; Data : option gostring }.
End ZipFile.

Module RootFile.
Record t := mk { FullPath : gostring; MediaType : gostring }.
End RootFile.

Module Container.
Record t := mk { RootFiles : list RootFile.t }.
End Container.

Module Metadata.
Record t := mk { Title : gostring; Creator : gostring }.
End Metadata.

Module ManifestItem.
Record t := mk { ID : gostring; Href : gostring; MediaType : gostring }.
End ManifestItem.

Module Manifest.
Record t := mk { Items : list ManifestItem.t }.
End Manifest.

Module SpineItemRef.
Record t := mk { IDRef : gostring }.
End SpineItemRef.

Module Spine.
Record t := mk { ItemRefs : list SpineItemRef.t }.
End Spine.

Module Package.
Record t := mk { Metadata : Metadata.t; Manifest : Manifest.t; Spine : Spine.t }.
End Package.

Module Chapter.
Record t := mk { Title : gostring; Content : gostring; Order : Z }.
End Chapter.

Module Book.
Record t := mk {
  Title : gostring;
  Author : gostring;
  Chapters : list Chapter.t;
  CSS : list gostring;
  BasePath : gostring
}.
End Book.

(** The part of the environment that lies outside the repository and that
    the model does not spell out: the Unicode case tables used by
    [strings.ToLower] on non-ASCII text, the XML decoder, and the file
    system behind [zip.OpenReader]. *)
Class Externals := {
  (** [strings.Map(unicode.ToLower, s)], reached only when [s] holds a byte
      [>= 0x80]. *)
  unicodeToLower : gostring -> gostring;
  (** [xml.NewDecoder(rc).Decode(&container)] on the bytes of the entry. *)
  xmlDecodeContainer : gostring -> option Container.t;
  (** [xml.NewDecoder(rc).Decode(&pkg)] on the bytes of the entry. *)
  xmlDecodePackage : gostring -> option Package.t;
  (** [zip.OpenReader(epubPath)]: the entries [r.File] in archive order. *)
  zipOpenReader : gostring -> option (list ZipFile.t)
}.

(** ** Package [strings] *)

Module GoStrings.

(** [strings.HasPrefix]:
    [len(s) >= len(prefix) && s[:len(prefix)] == prefix]. *)
Fixpoint HasPrefix (s prefix : gostring) {struct prefix} : bool :=
  match prefix, s with
  | [], _ => true
  | p :: prefix', c :: s' => Ascii.eqb c p && HasPrefix s' prefix'
  | _ :: _, [] => false
  end.

(** [strings.HasSuffix]:
    [len(s) >= len(suffix) && s[len(s)-len(suffix):] == suffix]. *)
Definition HasSuffix (s suffix : gostring) : bool :=
  (length suffix <=? length s)%nat
  && streq (drop (length s - length suffix) s) suffix.

(** [strings.TrimPrefix] *)
Definition TrimPrefix (s prefix : gostring) : gostring :=
  if HasPrefix s prefix then drop (length prefix) s else s.

(** [strings.Index]: the index of the first instance of [substr] in [s],
    or [-1].  [i] is the offset of [s] in the string being searched. *)
Fixpoint indexFrom (i : Z) (s substr : gostring) : Z :=
  if HasPrefix s substr then i
  else match s with
       | [] => -1
       | _ :: s' => indexFrom (i + 1) s' substr
       end.

Definition Index (s substr : gostring) : Z := indexFrom 0 s substr.

(** [strings.LastIndex]: the index of the last instance, or [-1]. *)
Fixpoint lastIndexFrom (i found : Z) (s substr : gostring) : Z :=
  let found' := if HasPrefix s substr then i else found in
  match s with
  | [] => found'
  | _ :: s' => lastIndexFrom (i + 1) found' s' substr
  end.

Definition LastIndex (s substr : gostring) : Z := lastIndexFrom 0 (-1) s substr.

(** [strings.Contains] *)
Definition Contains (s substr : gostring) : bool := 0 <=? Index s substr.

(** [strings.ReplaceAll(s, old, new)] for a non-empty [old]: the
    non-overlapping instances of [old], found from the left, are replaced
    by [new].  [skip] counts the bytes of a matched [old] still to pass. *)
Fixpoint replaceFrom (skip : nat) (s old new : gostring) : gostring :=
  match s with
  | [] => []
  | c :: s' =>
      match skip with
      | S k => replaceFrom k s' old new
      | O =>
          if HasPrefix s old
          then new ++ replaceFrom (length old - 1) s' old new
          else c :: replaceFrom 0 s' old new
      end
  end.

Definition ReplaceAll (s old new : gostring) : gostring := replaceFrom 0 s old new.

Definition isUpperASCII (c : ascii) : bool :=
  let n := nat_of_ascii c in (65 <=? n)%nat && (n <=? 90)%nat.

Definition isASCII (c : ascii) : bool := (nat_of_ascii c <? 128)%nat.

(** [c += 'a' - 'A'] for ['A' <= c <= 'Z']. *)
Definition lowerByte (c : ascii) : ascii :=
  if isUpperASCII c then ascii_of_nat (nat_of_ascii c + 32) else c.

(** [strings.ToLower]: ASCII-only strings take the byte loop, all others
    go through the Unicode tables. *)
Definition ToLower {env : Externals} (s : gostring) : gostring :=
  if forallb isASCII s then map lowerByte s else unicodeToLower s.

(** [strings.TrimSuffix] *)
Definition TrimSuffix (s suffix : gostring) : gostring :=
  if HasSuffix s suffix then take (length s - length suffix) s else s.

(** [strings.Repeat(s, count)]; it panics on a negative [count]. *)
Definition Repeat (s : gostring) (count : Z) : option gostring :=
  if count <? 0 then None else Some (concat (replicate (Z.to_nat count) s)).

End GoStrings.

(** ** Package [path] *)

Module GoPath.

Definition isSlash (c : ascii) : bool := Ascii.eqb c "/".
Definition isDot (c : ascii) : bool := Ascii.eqb c ".".

(** The backtracking loop of [Clean] on a [..] element, entered after
    [out.w--]: [last] is [out.index(out.w)] and [rout] the bytes below
    [out.w], most recent first.
    [for out.w > dotdot && out.index(out.w) != '/' { out.w-- }] *)
Fixpoint backtrack (dotdot : nat) (last : ascii) (rout : gostring) : gostring :=
  if (dotdot <? length rout)%nat && negb (isSlash last)
  then match rout with
       | c :: rout' => backtrack dotdot c rout'
       | [] => []
       end
  else rout.

(** The [..] case of [Clean]. *)
Definition dotdotElem (rooted : bool) (rout : gostring) (dotdot : nat)
  : gostring * nat :=
  if (dotdot <? length rout)%nat then
    match rout with
    | c :: rout' => (backtrack dotdot c rout', dotdot)
    | [] => (rout, dotdot)
    end
  else if negb rooted then
    let rout1 := if (0 <? length rout)%nat then "/"%char :: rout else rout in
    let rout2 := "."%char :: "."%char :: rout1 in
    (rout2, length rout2)
  else (rout, dotdot).

(** The main loop of [Clean] over the unread part [path[r:]].  The written
    bytes [out.buf[:out.w]] are kept most recent first in [rout].
    [copying] is set while the inner loop that copies a real path element
    is running. *)
Fixpoint cleanLoop (rooted copying : bool) (rest : gostring)
    (rout : gostring) (dotdot : nat) : gostring :=
  match rest with
  | [] => rout
  | c :: rest' =>
      if copying then
        if isSlash c then cleanLoop rooted false rest' rout dotdot
        else cleanLoop rooted true rest' (c :: rout) dotdot
      else if isSlash c then
        cleanLoop rooted false rest' rout dotdot
      else if isDot c && match rest' with [] => true | d :: _ => isSlash d end then
        cleanLoop rooted false rest' rout dotdot
      else
        match rest' with
        | d :: rest'' =>
            if isDot c && isDot d
               && match rest'' with [] => true | e :: _ => isSlash e end
            then
              let '(rout', dotdot') := dotdotElem rooted rout dotdot in
              cleanLoop rooted false rest'' rout' dotdot'
            else
              let rout' :=
                if (rooted && negb (length rout =? 1)%nat)
                   || (negb rooted && negb (length rout =? 0)%nat)
                then "/"%char :: rout else rout in
              cleanLoop rooted true rest' (c :: rout') dotdot
        | [] =>
            let rout' :=
              if (rooted && negb (length rout =? 1)%nat)
                 || (negb rooted && negb (length rout =? 0)%nat)
              then "/"%char :: rout else rout in
            cleanLoop rooted true rest' (c :: rout') dotdot
        end
  end.

(** [path.Clean] *)
Definition Clean (path : gostring) : gostring :=
  match path with
  | [] => "."
  | c :: path' =>
      let rooted := isSlash c in
      let rout :=
        if rooted then cleanLoop true false path' ["/"%char] 1
        else cleanLoop false false path [] 0 in
      if (length rout =? 0)%nat then "." else rev rout
  end.

(** [bytealg.LastIndexByteString] *)
Fixpoint lastIndexByteFrom (i found : Z) (s : gostring) (c : ascii) : Z :=
  match s with
  | [] => found
  | d :: s' => lastIndexByteFrom (i + 1) (if Ascii.eqb d c then i else found) s' c
  end.

Definition LastIndexByte (s : gostring) (c : ascii) : Z :=
  lastIndexByteFrom 0 (-1) s c.

(** [path.Split]: [path[:i+1], path[i+1:]] with [i] the last slash. *)
Definition Split (path : gostring) : gostring * gostring :=
  let i := LastIndexByte path "/" in
  (take (Z.to_nat (i + 1)) path, drop (Z.to_nat (i + 1)) path).

(** [path.Dir] *)
Definition Dir (path : gostring) : gostring := Clean (fst (Split path)).

(** The loop of [path.Join] that builds [buf]. *)
Fixpoint joinLoop (buf : gostring) (elem : list gostring) : gostring :=
  match elem with
  | [] => buf
  | e :: elem' =>
      if (0 <? length buf)%nat || negb (streq e "")
      then joinLoop ((if (0 <? length buf)%nat then buf ++ "/" else buf) ++ e) elem'
      else joinLoop buf elem'
  end.

(** [path.Join] *)
Definition Join (elem : list gostring) : gostring :=
  let size := foldr (fun e n => (length e + n)%nat) 0%nat elem in
  if (size =? 0)%nat then "" else Clean (joinLoop "" elem).

End GoPath.

(** ** Package [net/url] *)

Module GoURL.

Definition between (lo hi : nat) (c : ascii) : bool :=
  let n := nat_of_ascii c in (lo <=? n)%nat && (n <=? hi)%nat.

(** [ishex] *)
Definition ishex (c : ascii) : bool :=
  between 48 57 c || between 97 102 c || between 65 70 c.

(** [unhex] *)
Definition unhex (c : ascii) : Z :=
  let n := Z.of_nat (nat_of_ascii c) in
  if between 48 57 c then n - 48
  else if between 97 102 c then n - 97 + 10
  else if between 65 70 c then n - 65 + 10
  else 0.

(** First loop of [unescape]: every [%] is followed by two hex digits. *)
Fixpoint wellFormed (s : gostring) : bool :=
  match s with
  | [] => true
  | c :: s' =>
      if Ascii.eqb c "%" then
        match s' with
        | h1 :: h2 :: s'' => ishex h1 && ishex h2 && wellFormed s''
        | _ => false
        end
      else wellFormed s'
  end.

(** Second loop of [unescape] in mode [encodeQueryComponent]: [%XX]
    becomes the byte [unhex(X)<<4 | unhex(X)], [+] becomes a space. *)
Fixpoint decode (s : gostring) : gostring :=
  match s with
  | [] => []
  | c :: s' =>
      if Ascii.eqb c "%" then
        match s' with
        | h1 :: h2 :: s'' =>
            ascii_of_nat (Z.to_nat (Z.lor (Z.shiftl (unhex h1) 4) (unhex h2)))
              :: decode s''
        | _ => []
        end
      else if Ascii.eqb c "+" then " "%char :: decode s'
      else c :: decode s'
  end.

(** [url.QueryUnescape]; [None] is the [EscapeError]. *)
Definition QueryUnescape (s : gostring) : option gostring :=
  if wellFormed s then Some (decode s) else None.

End GoURL.

(** ** Package [encoding/base64] *)

Module GoBase64.

Definition encodeStd : gostring :=
  "ABCDEFGHIJKLMNOPQRSTUVWXYZabcdefghijklmnopqrstuvwxyz0123456789+/".

Definition padChar : ascii := "="%char.

(** [enc.encode[v]] *)
Definition encodeAt (v : Z) : ascii := nth (Z.to_nat v) encodeStd padChar.

Definition byteVal (c : ascii) : Z := Z.of_nat (nat_of_ascii c).

(** [Encoding.Encode] of [StdEncoding] (padded). *)
Fixpoint Encode (src : gostring) : gostring :=
  match src with
  | [] => []
  | [a] =>
      let val := Z.shiftl (byteVal a) 16 in
      [encodeAt (Z.land (Z.shiftr val 18) 63);
       encodeAt (Z.land (Z.shiftr val 12) 63);
       padChar; padChar]
  | [a; b] =>
      let val := Z.lor (Z.shiftl (byteVal a) 16) (Z.shiftl (byteVal b) 8) in
      [encodeAt (Z.land (Z.shiftr val 18) 63);
       encodeAt (Z.land (Z.shiftr val 12) 63);
       encodeAt (Z.land (Z.shiftr val 6) 63);
       padChar]
  | a :: b :: c :: src' =>
      let val :=
        Z.lor (Z.lor (Z.shiftl (byteVal a) 16) (Z.shiftl (byteVal b) 8)) (byteVal c) in
      encodeAt (Z.land (Z.shiftr val 18) 63)
        :: encodeAt (Z.land (Z.shiftr val 12) 63)
        :: encodeAt (Z.land (Z.shiftr val 6) 63)
        :: encodeAt (Z.land val 63)
        :: Encode src'
  end.

Definition EncodeToString (src : gostring) : gostring := Encode src.

(** The inverse table [enc.decodeMap]. *)
Fixpoint indexOf (c : ascii) (alphabet : gostring) (i : Z) : option Z :=
  match alphabet with
  | [] => None
  | d :: alphabet' => if Ascii.eqb c d then Some i else indexOf c alphabet' (i + 1)
  end.

Definition decodeMap (c : ascii) : option Z := indexOf c encodeStd 0.

(** [byte(v)] *)
Definition toByte (v : Z) : ascii := ascii_of_nat (Z.to_nat (v mod 256)).

(** Decoding of padded standard base64 (RFC 4648, section 4): quantums of
    four characters, the last one possibly padded. *)
Fixpoint Decode (s : gostring) : option gostring :=
  match s with
  | [] => Some []
  | c1 :: c2 :: c3 :: c4 :: s' =>
      v1 ← decodeMap c1;
      v2 ← decodeMap c2;
      if Ascii.eqb c3 padChar then
        if Ascii.eqb c4 padChar && streq s' "" then
          let val := Z.lor (Z.shiftl v1 18) (Z.shiftl v2 12) in
          Some [toByte (Z.shiftr val 16)]
        else None
      else
        v3 ← decodeMap c3;
        if Ascii.eqb c4 padChar then
          if streq s' "" then
            let val := Z.lor (Z.lor (Z.shiftl v1 18) (Z.shiftl v2 12)) (Z.shiftl v3 6) in
            Some [toByte (Z.shiftr val 16); toByte (Z.shiftr val 8)]
          else None
        else
          v4 ← decodeMap c4;
          let val :=
            Z.lor (Z.lor (Z.lor (Z.shiftl v1 18) (Z.shiftl v2 12)) (Z.shiftl v3 6)) v4 in
          rest ← Decode s';
          Some (toByte (Z.shiftr val 16) :: toByte (Z.shiftr val 8) :: toByte val :: rest)
  | _ => None
  end.

End GoBase64.
(** ** Package [unicode/utf8] *)

Module GoUTF8.

(** The entry of the table [first] for a leading byte: the size of the
    encoding and the accepted range of the second byte; [None] for ASCII
    and for bytes that cannot start an encoding. *)
Definition first (b0 : nat) : option (nat * nat * nat) :=
  if (b0 <? 194)%nat then None
  else if (b0 <? 224)%nat then Some (2, 128, 191)%nat
  else if (b0 =? 224)%nat then Some (3, 160, 191)%nat
  else if (b0 <? 237)%nat then Some (3, 128, 191)%nat
  else if (b0 =? 237)%nat then Some (3, 128, 159)%nat
  else if (b0 <? 240)%nat then Some (3, 128, 191)%nat
  else if (b0 =? 240)%nat then Some (4, 144, 191)%nat
  else if (b0 <? 244)%nat then Some (4, 128, 191)%nat
  else if (b0 =? 244)%nat then Some (4, 128, 143)%nat
  else None.

Definition inRange (lo hi : nat) (c : ascii) : bool :=
  let n := nat_of_ascii c in (lo <=? n)%nat && (n <=? hi)%nat.

(** The width returned by [utf8.DecodeRuneInString]: 0 on the empty
    string, 1 on ASCII and on an invalid encoding. *)
Definition runeWidth (s : gostring) : nat :=
  match s with
  | [] => 0
  | s0 :: t =>
      match first (nat_of_ascii s0) with
      | None => 1
      | Some (sz, lo, hi) =>
          if (length s <? sz)%nat then 1
          else match t with
               | [] => 1
               | s1 :: t1 =>
                   if negb (inRange lo hi s1) then 1
                   else if (sz <=? 2)%nat then 2
                   else match t1 with
                        | [] => 1
                        | s2 :: t2 =>
                            if negb (inRange 128 191 s2) then 1
                            else if (sz <=? 3)%nat then 3
                            else match t2 with
                                 | [] => 1
                                 | s3 :: _ =>
                                     if negb (inRange 128 191 s3) then 1 else 4
                                 end
                        end
               end
      end
  end.

End GoUTF8.

(** ** Package [regexp]

    The three patterns of [embedImages] are concatenations of capture
    groups whose elements are literal runes, one-byte classes and greedy
    repetitions of one-byte classes.  [regexp] finds the leftmost match and,
    among the matches starting there, the one a backtracking search meets
    first; the matcher below is that search.

    The patterns are matched on bytes.  Under [(?i)] a literal stands for
    the class of the runes in its case-folding orbit, given here by their
    UTF-8 encodings.  The negated classes exclude ASCII bytes only and are
    followed by ASCII, so stepping over a rune byte by byte reaches the same
    matches as stepping rune by rune. *)

Module GoRegexp.

Inductive node :=
| Rune (encodings : list gostring)   (* one rune out of a folding orbit *)
| Class (p : ascii -> bool)          (* [...] or \s *)
| Star (p : ascii -> bool)           (* x* *)
| Plus (p : ascii -> bool)           (* x+ *)
| Quest (p : ascii -> bool).         (* x? *)

(** A pattern [(g1)(g2)...(gn)]. *)
Record Regexp := MustCompile { groups : list (list node) }.

Definition continuation := nat -> gostring -> option (list nat).

(** The encoding of the orbit that starts the input, if any. *)
Fixpoint runePrefix (encodings : list gostring) (s : gostring) : option nat :=
  match encodings with
  | [] => None
  | e :: encodings' =>
      if GoStrings.HasPrefix s e then Some (length e) else runePrefix encodings' s
  end.

(** Greedy repetition: take the longest run first, give back one byte at
    a time while the continuation fails. *)
Fixpoint starLoop (p : ascii -> bool) (k : continuation) (i : nat) (s : gostring)
  : option (list nat) :=
  match s with
  | c :: s' =>
      if p c then
        match starLoop p k (S i) s' with
        | Some r => Some r
        | None => k i s
        end
      else k i s
  | [] => k i s
  end.

(** Match the nodes of one group at offset [i], the input from there on
    being [s]; [k] matches what follows the group. *)
Fixpoint matchNodes (ns : list node) (k : continuation) (i : nat) (s : gostring)
  : option (list nat) :=
  match ns with
  | [] => k i s
  | Rune encodings :: ns' =>
      match runePrefix encodings s with
      | Some n => matchNodes ns' k (i + n) (drop n s)
      | None => None
      end
  | Class p :: ns' =>
      match s with
      | c :: s' => if p c then matchNodes ns' k (S i) s' else None
      | [] => None
      end
  | Star p :: ns' => starLoop p (matchNodes ns' k) i s
  | Plus p :: ns' =>
      match s with
      | c :: s' => if p c then starLoop p (matchNodes ns' k) (S i) s' else None
      | [] => None
      end
  | Quest p :: ns' =>
      match s with
      | c :: s' =>
          if p c then
            match matchNodes ns' k (S i) s' with
            | Some r => Some r
            | None => matchNodes ns' k i s
            end
          else matchNodes ns' k i s
      | [] => matchNodes ns' k i s
      end
  end.

(** Match the groups in sequence; the result lists the offsets at which
    the groups end. *)
Fixpoint matchGroups (gs : list (list node)) (i : nat) (s : gostring)
  : option (list nat) :=
  match gs with
  | [] => Some []
  | g :: gs' => matchNodes g (fun j t => cons j <$> matchGroups gs' j t) i s
  end.

(** Leftmost match at or after offset [i]: its start and the group ends. *)
Fixpoint findFrom (gs : list (list node)) (i : nat) (s : gostring)
  : option (nat * list nat) :=
  match matchGroups gs i s with
  | Some ends => Some (i, ends)
  | None =>
      match s with
      | [] => None
      | _ :: s' => findFrom gs (S i) s'
      end
  end.

(** [re.doExecute(nil, nil, src, pos, ...)] *)
Definition doExecute (re : Regexp) (src : gostring) (pos : nat)
  : option (nat * list nat) :=
  findFrom (groups re) pos (drop pos src).

(** [src[lo:hi]] for offsets delivered by the matcher. *)
Definition substr (src : gostring) (lo hi : nat) : gostring :=
  take (hi - lo) (drop lo src).

(** End of the whole match. *)
Definition matchEnd (a0 : nat) (ends : list nat) : nat := List.last ends a0.

Fixpoint groupTexts (src : gostring) (lo : nat) (ends : list nat) : list gostring :=
  match ends with
  | [] => []
  | e :: ends' => substr src lo e :: groupTexts src e ends'
  end.

(** [re.FindStringSubmatch(s)]: the match and the text of each group, or
    [nil]. *)
Definition FindStringSubmatch (re : Regexp) (s : gostring) : list gostring :=
  match doExecute re s 0 with
  | None => []
  | Some (a0, ends) => substr s a0 (matchEnd a0 ends) :: groupTexts s a0 ends
  end.

(** The loop of [re.replaceAll].  [None] stands for running out of
    [fuel], which [ReplaceAllStringFunc] never does. *)
Fixpoint replaceLoop (fuel : nat) (re : Regexp) (src : gostring)
    (repl : gostring -> gostring) (lastMatchEnd searchPos : nat) (buf : gostring)
  : option gostring :=
  match fuel with
  | O => None
  | S fuel' =>
      if (searchPos <=? length src)%nat then
        match doExecute re src searchPos with
        | None => Some (buf ++ drop lastMatchEnd src)
        | Some (a0, ends) =>
            let a1 := matchEnd a0 ends in
            let buf1 := buf ++ substr src lastMatchEnd a0 in
            let buf2 :=
              if (lastMatchEnd <? a1)%nat || (a0 =? 0)%nat
              then buf1 ++ repl (substr src a0 a1) else buf1 in
            let width := GoUTF8.runeWidth (drop searchPos src) in
            let searchPos' :=
              if (a1 <? searchPos + width)%nat then (searchPos + width)%nat
              else if (a1 <? searchPos + 1)%nat then (searchPos + 1)%nat
              else a1 in
            replaceLoop fuel' re src repl a1 searchPos' buf2
        end
      else Some (buf ++ drop lastMatchEnd src)
  end.

(** [re.ReplaceAllStringFunc(src, repl)] *)
Definition ReplaceAllStringFunc (re : Regexp) (src : gostring)
    (repl : gostring -> gostring) : gostring :=
  default src (replaceLoop (length src + 2) re src repl 0 0 []).

(** *** Syntax of the patterns *)

Definition dquote : ascii := ascii_of_nat 34.

(** [\s] is [[\t\n\f\r ]]. *)
Definition space (c : ascii) : bool :=
  existsb (Ascii.eqb c) (map ascii_of_nat [9; 10; 12; 13; 32]%nat).

Definition oneOf (cs : gostring) (c : ascii) : bool := existsb (Ascii.eqb c) cs.
Definition noneOf (cs : gostring) (c : ascii) : bool := negb (existsb (Ascii.eqb c) cs).

Definition isLowerASCII (c : ascii) : bool :=
  let n := nat_of_ascii c in (97 <=? n)%nat && (n <=? 122)%nat.

(** The case-folding orbit of an ASCII character, as UTF-8: a letter and
    its capital, with U+017F (long s) for [s] and U+212A (Kelvin sign) for
    [k]. *)
Definition foldOrbit (c : ascii) : list gostring :=
  if isLowerASCII c then
    [[c]; [ascii_of_nat (nat_of_ascii c - 32)]]
      ++ (if Ascii.eqb c "s" then [map ascii_of_nat [197; 191]%nat]
          else if Ascii.eqb c "k" then [map ascii_of_nat [226; 132; 170]%nat]
          else [])
  else [[c]].

(** A literal (written in lower case) under [(?i)]. *)
Definition lit (s : gostring) : list node := map (fun c => Rune (foldOrbit c)) s.

End GoRegexp.
(** ** Package [sort] *)

Module GoSort.

(** The inner loop of [insertionSortLessFunc]: the element [x] at the end
    of the sorted prefix is swapped towards the front while it is less
    than its left neighbour.  [rprefix] is the prefix, last element
    first. *)
Fixpoint insert {A} (less : A -> A -> bool) (x : A) (rprefix : list A) : list A :=
  match rprefix with
  | [] => [x]
  | y :: rprefix' => if less x y then y :: insert less x rprefix' else x :: rprefix
  end.

(** [sort.Slice(x, less)].  The library sorts slices of at most twelve
    elements by insertion and longer ones by pattern-defeating quicksort;
    the model is the insertion sort.  [less] compares elements here,
    where Go's compares indexes into the slice being sorted. *)
Definition Slice {A} (less : A -> A -> bool) (x : list A) : list A :=
  rev (foldl (fun rprefix a => insert less a rprefix) [] x).

End GoSort.

(** ** Package [epub] (internal/epub/parser.go) *)

Module Epub.

Import GoStrings GoPath GoRegexp.

Inductive error :=
| ErrOpenEpub                       (* failed to open epub *)
| ErrContainerNotFound              (* container.xml not found *)
| ErrOpenEntry                      (* error of f.Open() *)
| ErrParseContainer                 (* failed to parse container.xml *)
| ErrNoRootfile                     (* no rootfile found in container.xml *)
| ErrOPFNotFound (opfPath : gostring) (* OPF file not found *)
| ErrParseOPF.                      (* failed to parse OPF *)

Inductive result (A : Type) :=
| Ok (a : A)
| Err (e : error).
Arguments Ok {A} a.
Arguments Err {A} e.

Definition newline : gostring := [ascii_of_nat 10].
Definition quotes : gostring := [dquote; "'"%char].

Section WithExternals.
Context {env : Externals}.

Definition parseContainer (f : ZipFile.t) : result Container.t :=
  match ZipFile.Data f with
  | None => Err ErrOpenEntry
  | Some data =>
      match xmlDecodeContainer data with
      | None => Err ErrParseContainer
      | Some container => Ok container
      end
  end.

Definition parsePackage (f : ZipFile.t) : result Package.t :=
  match ZipFile.Data f with
  | None => Err ErrOpenEntry
  | Some data =>
      match xmlDecodePackage data with
      | None => Err ErrParseOPF
      | Some pkg => Ok pkg
      end
  end.

(** [None] is a non-nil [err]. *)
Definition readFileContent (f : ZipFile.t) : option gostring := ZipFile.Data f.

Definition readBinaryContent (f : ZipFile.t) : option gostring := ZipFile.Data f.

Definition resolvePath (basePath href : gostring) : gostring :=
  if streq basePath "" then href else Join [basePath; href].

(** [resolveRelativePath] with its recursion depth bounded by [fuel];
    [None] when the bound is hit. *)
Fixpoint resolveRelativePathN (fuel : nat) (basePath href : gostring)
  : option gostring :=
  match fuel with
  | O => None
  | S fuel' =>
      if streq basePath "" then Some href
      else if HasPrefix href "../" then
        let parentDir := Dir basePath in
        resolveRelativePathN fuel' parentDir (TrimPrefix href "../")
      else Some (Join [basePath; href])
  end.

(** Every call strips three bytes from [href], so [len(href) + 1] levels
    are enough (lemma [resolveRelativePathN_enough]). *)
Definition resolveRelativePath (basePath href : gostring) : gostring :=
  default href (resolveRelativePathN (S (length href)) basePath href).

Definition normalizePath (p : gostring) : gostring :=
  let cleaned := Clean p in
  TrimPrefix cleaned "/".

Definition extensions : list gostring :=
  [".jpg"; ".jpeg"; ".png"; ".gif"; ".svg"; ".webp"; ".bmp"; ".ico"].

Definition isImageFile (src : gostring) : bool :=
  let lower := ToLower src in
  existsb (fun ext => HasSuffix lower ext) extensions.

Definition getMimeType (filename : gostring) : gostring :=
  let lower := ToLower filename in
  if HasSuffix lower ".jpg" || HasSuffix lower ".jpeg" then "image/jpeg"
  else if HasSuffix lower ".png" then "image/png"
  else if HasSuffix lower ".gif" then "image/gif"
  else if HasSuffix lower ".svg" then "image/svg+xml"
  else if HasSuffix lower ".webp" then "image/webp"
  else if HasSuffix lower ".bmp" then "image/bmp"
  else if HasSuffix lower ".ico" then "image/x-icon"
  else "".

(** Lines 319-329 of [resolveAndEmbed]: the fragment is cut off and the
    rest is unescaped, keeping the text as it was when that fails. *)
Definition cleanSrcOf (src : gostring) : gostring :=
  let cleanSrc := src in
  let idx := Index cleanSrc "#" in
  let cleanSrc := if negb (idx =? -1) then take (Z.to_nat idx) cleanSrc else cleanSrc in
  match GoURL.QueryUnescape cleanSrc with
  | Some decodedSrc => decodedSrc
  | None => cleanSrc
  end.

(** Lines 334-347 of [resolveAndEmbed]: the three lookups. *)
Definition findImage (files : gmap gostring ZipFile.t) (imagePath cleanSrc : gostring)
  : option ZipFile.t :=
  match files !! imagePath with
  | Some zipFile => Some zipFile
  | None =>
      match files !! cleanSrc with
      | Some zipFile => Some zipFile
      | None => files !! normalizePath imagePath
      end
  end.

(** The result [""] means that nothing is to be embedded. *)
Definition resolveAndEmbed (src basePath : gostring) (files : gmap gostring ZipFile.t)
  : gostring :=
  if HasPrefix src "data:" || HasPrefix src "http://" || HasPrefix src "https://"
  then ""
  else
    let cleanSrc := cleanSrcOf src in
    let imagePath := resolveRelativePath basePath cleanSrc in
    match findImage files imagePath cleanSrc with
    | None => ""
    | Some zipFile =>
        match readBinaryContent zipFile with
        | None => ""
        | Some data =>
            let mimeType := getMimeType cleanSrc in
            if streq mimeType "" then ""
            else
              let encoded := GoBase64.EncodeToString data in
              "data:" ++ mimeType ++ ";base64," ++ encoded
        end
    end.

(** The pattern of [imgSrcRegex], its tokens set apart and [Q] standing
    for the double quote:
    (?i) ( <img [^>]* \s src \s* = \s* ) ( [Q'] ) ( [^Q']+ ) ( [Q'] ) *)
Definition imgSrcRegex : Regexp :=
  MustCompile
    [ lit "<img" ++ [Star (noneOf ">"); Class space] ++ lit "src"
        ++ [Star space] ++ lit "=" ++ [Star space];
      [Class (oneOf quotes)];
      [Plus (noneOf quotes)];
      [Class (oneOf quotes)] ].

(** The pattern of [xlinkRegex]:
    (?i) ( xlink:href \s* = \s* ) ( [Q'] ) ( [^Q']+ ) ( [Q'] ) *)
Definition xlinkRegex : Regexp :=
  MustCompile
    [ lit "xlink:href" ++ [Star space] ++ lit "=" ++ [Star space];
      [Class (oneOf quotes)];
      [Plus (noneOf quotes)];
      [Class (oneOf quotes)] ].

(** The pattern of [urlRegex], [\(] and [\)] being literal parentheses:
    (?i) ( url \s* \( \s* ) ( [Q']? ) ( [^Q')]+ ) ( [Q']? \s* \) ) *)
Definition urlRegex : Regexp :=
  MustCompile
    [ lit "url" ++ [Star space] ++ lit "(" ++ [Star space];
      [Quest (oneOf quotes)];
      [Plus (noneOf (quotes ++ ")"))];
      [Quest (oneOf quotes); Star space] ++ lit ")" ].

(** [parts[i]] *)
Definition part (parts : list gostring) (i : nat) : gostring := nth i parts "".

(** The function literal passed to [imgSrcRegex.ReplaceAllStringFunc]. *)
Definition imgSrcRepl (basePath : gostring) (files : gmap gostring ZipFile.t)
    (match_ : gostring) : gostring :=
  let parts := FindStringSubmatch imgSrcRegex match_ in
  if (length parts <? 5)%nat then match_
  else
    let prefix := part parts 1 in
    let quote := part parts 2 in
    let src := part parts 3 in
    let endQuote := part parts 4 in
    let dataURI := resolveAndEmbed src basePath files in
    if negb (streq dataURI "") then prefix ++ quote ++ dataURI ++ endQuote
    else match_.

(** The function literal passed to [xlinkRegex.ReplaceAllStringFunc]. *)
Definition xlinkRepl (basePath : gostring) (files : gmap gostring ZipFile.t)
    (match_ : gostring) : gostring :=
  let parts := FindStringSubmatch xlinkRegex match_ in
  if (length parts <? 5)%nat then match_
  else
    let prefix := part parts 1 in
    let quote := part parts 2 in
    let src := part parts 3 in
    let endQuote := part parts 4 in
    if isImageFile src then
      let dataURI := resolveAndEmbed src basePath files in
      if negb (streq dataURI "") then prefix ++ quote ++ dataURI ++ endQuote
      else match_
    else match_.

(** The function literal passed to [urlRegex.ReplaceAllStringFunc]. *)
Definition urlRepl (basePath : gostring) (files : gmap gostring ZipFile.t)
    (match_ : gostring) : gostring :=
  let parts := FindStringSubmatch urlRegex match_ in
  if (length parts <? 5)%nat then match_
  else
    let prefix := part parts 1 in
    let quote := part parts 2 in
    let src := part parts 3 in
    let suffix := part parts 4 in
    if isImageFile src then
      let dataURI := resolveAndEmbed src basePath files in
      if negb (streq dataURI "") then prefix ++ quote ++ dataURI ++ suffix
      else match_
    else match_.

Definition embedImages (content basePath : gostring) (files : gmap gostring ZipFile.t)
  : gostring :=
  let content := ReplaceAllStringFunc imgSrcRegex content (imgSrcRepl basePath files) in
  let content := ReplaceAllStringFunc xlinkRegex content (xlinkRepl basePath files) in
  let content := ReplaceAllStringFunc urlRegex content (urlRepl basePath files) in
  content.

(** Lines 81-84 of [Parse]: a later entry of the same name replaces an
    earlier one. *)
Definition fileIndex (rFile : list ZipFile.t) : gmap gostring ZipFile.t :=
  foldl (fun files f => <[ZipFile.Name f := f]> files) ∅ rFile.

(** Lines 124-127 of [Parse]. *)
Definition manifestLookup (items : list ManifestItem.t) : gmap gostring ManifestItem.t :=
  foldl (fun manifestMap item => <[ManifestItem.ID item := item]> manifestMap) ∅ items.

(** Lines 130-143 of [Parse]: the loop over the manifest that collects
    the style sheets into [book.CSS]. *)
Fixpoint extractCSS (files : gmap gostring ZipFile.t) (basePath : gostring)
    (items : list ManifestItem.t) (css : list gostring) : list gostring :=
  match items with
  | [] => css
  | item :: items' =>
      let css' :=
        if streq (ManifestItem.MediaType item) "text/css" then
          let cssPath := resolvePath basePath (ManifestItem.Href item) in
          match files !! cssPath with
          | Some cssFile =>
              match readFileContent cssFile with
              | Some content =>
                  let cssDir := Dir cssPath in
                  let content := embedImages content cssDir files in
                  css ++ [content]
              | None => css
              end
          | None => css
          end
        else css in
      extractCSS files basePath items' css'
  end.

(** Lines 146-177 of [Parse]: the loop over the spine, [i] being the
    index of the first of [itemRefs] in the spine. *)
Fixpoint extractChapters (files : gmap gostring ZipFile.t) (basePath : gostring)
    (manifestMap : gmap gostring ManifestItem.t) (i : Z)
    (itemRefs : list SpineItemRef.t) (chapters : list Chapter.t) : list Chapter.t :=
  match itemRefs with
  | [] => chapters
  | itemRef :: itemRefs' =>
      let chapters' :=
        match manifestMap !! SpineItemRef.IDRef itemRef with
        | None => chapters
        | Some item =>
            if negb (Contains (ManifestItem.MediaType item) "html")
               && negb (Contains (ManifestItem.MediaType item) "xml")
            then chapters
            else
              let chapterPath := resolvePath basePath (ManifestItem.Href item) in
              match files !! chapterPath with
              | None => chapters
              | Some chapterFile =>
                  match readFileContent chapterFile with
                  | None => chapters
                  | Some content =>
                      let chapterDir := Dir chapterPath in
                      let content := embedImages content chapterDir files in
                      chapters ++ [Chapter.mk (ManifestItem.ID item) content i]
                  end
              end
        end in
      extractChapters files basePath manifestMap (i + 1) itemRefs' chapters'
  end.

(** Lines 117-184 of [Parse]: the book built from the package. *)
Definition buildBook (files : gmap gostring ZipFile.t) (opfPath : gostring)
    (pkg : Package.t) : Book.t :=
  let basePath := Dir opfPath in
  let basePath := if streq basePath "." then "" else basePath in
  let manifestMap := manifestLookup (Manifest.Items (Package.Manifest pkg)) in
  let css := extractCSS files basePath (Manifest.Items (Package.Manifest pkg)) [] in
  let chapters :=
    extractChapters files basePath manifestMap 0
      (Spine.ItemRefs (Package.Spine pkg)) [] in
  let chapters :=
    GoSort.Slice (fun a b => Chapter.Order a <? Chapter.Order b) chapters in
  Book.mk (Metadata.Title (Package.Metadata pkg))
          (Metadata.Creator (Package.Metadata pkg))
          chapters css basePath.

Definition Parse (epubPath : gostring) : result Book.t :=
  match zipOpenReader epubPath with
  | None => Err ErrOpenEpub
  | Some rFile =>
      let files := fileIndex rFile in
      match files !! "META-INF/container.xml" with
      | None => Err ErrContainerNotFound
      | Some containerFile =>
          match parseContainer containerFile with
          | Err e => Err e
          | Ok container =>
              match Container.RootFiles container with
              | [] => Err ErrNoRootfile
              | rootFile :: _ =>
                  let opfPath := RootFile.FullPath rootFile in
                  match files !! opfPath with
                  | None => Err (ErrOPFNotFound opfPath)
                  | Some opfFile =>
                      match parsePackage opfFile with
                      | Err e => Err e
                      | Ok pkg => Ok (buildBook files opfPath pkg)
                      end
                  end
              end
          end
      end
  end.

(** [None] is the panic of an out-of-range slice expression. *)
Definition extractBodyContent (html : gostring) : option gostring :=
  let bodyStart := Index (ToLower html) "<body" in
  if bodyStart =? -1 then Some html
  else
    tail ← slice html bodyStart (len html);
    let bodyTagEnd := Index tail ">" in
    if bodyTagEnd =? -1 then Some html
    else
      let bodyStart := bodyStart + bodyTagEnd + 1 in
      let bodyEnd := LastIndex (ToLower html) "</body>" in
      let bodyEnd := if bodyEnd =? -1 then len html else bodyEnd in
      slice html bodyStart bodyEnd.

Definition escapeHTML (s : gostring) : gostring :=
  let s := ReplaceAll s "&" "&amp;" in
  let s := ReplaceAll s "<" "&lt;" in
  let s := ReplaceAll s ">" "&gt;" in
  let s := ReplaceAll s [dquote] "&quot;" in
  s.

(** The raw string literal of lines 439-478. *)
Definition baselineStyle : gostring := "
		body {
			font-family: Georgia, 'Times New Roman', serif;
			line-height: 1.6;
			max-width: 800px;
			margin: 0 auto;
			padding: 40px 20px;
			color: #333;
		}
		h1, h2, h3, h4, h5, h6 {
			margin-top: 1.5em;
			margin-bottom: 0.5em;
		}
		p {
			margin: 0.8em 0;
			text-align: justify;
		}
		img {
			max-width: 100%;
			height: auto;
		}
		.chapter {
			page-break-before: always;
		}
		.chapter:first-child {
			page-break-before: avoid;
		}
		.title-page {
			text-align: center;
			padding: 100px 0;
		}
		.title-page h1 {
			font-size: 2.5em;
			margin-bottom: 0.5em;
		}
		.title-page .author {
			font-size: 1.3em;
			color: #666;
		}
	".

(** Lines 495-501 of [ToHTML]: the loop over the chapters, writing to
    the builder [sb]. *)
Fixpoint writeChapters (chapters : list Chapter.t) (sb : gostring) : option gostring :=
  match chapters with
  | [] => Some sb
  | chapter :: chapters' =>
      let sb := sb ++ "<div class=" ++ [dquote] ++ "chapter" ++ [dquote] ++ ">" ++ newline in
      content ← extractBodyContent (Chapter.Content chapter);
      let sb := sb ++ content in
      let sb := sb ++ newline ++ "</div>" ++ newline in
      writeChapters chapters' sb
  end.

Definition ToHTML (b : Book.t) : option gostring :=
  let sb := "<!DOCTYPE html>" ++ newline ++ "<html>" ++ newline ++ "<head>" ++ newline in
  let sb := sb ++ "<meta charset=" ++ [dquote] ++ "UTF-8" ++ [dquote] ++ ">" ++ newline in
  let sb := sb ++ "<title>" ++ escapeHTML (Book.Title b) ++ "</title>" ++ newline in
  let sb := sb ++ "<style>" ++ newline in
  let sb := sb ++ baselineStyle in
  let sb := foldl (fun sb css => sb ++ css ++ newline) sb (Book.CSS b) in
  let sb := sb ++ "</style>" ++ newline in
  let sb := sb ++ "</head>" ++ newline ++ "<body>" ++ newline in
  let sb := sb ++ "<div class=" ++ [dquote] ++ "title-page" ++ [dquote] ++ ">" ++ newline in
  let sb := sb ++ "<h1>" ++ escapeHTML (Book.Title b) ++ "</h1>" ++ newline in
  let sb :=
    if negb (streq (Book.Author b) "")
    then sb ++ "<p class=" ++ [dquote] ++ "author" ++ [dquote] ++ ">"
            ++ escapeHTML (Book.Author b) ++ "</p>" ++ newline
    else sb in
  let sb := sb ++ "</div>" ++ newline in
  sb ← writeChapters (Book.Chapters b) sb;
  Some (sb ++ "</body>" ++ newline ++ "</html>").

End WithExternals.

End Epub.

(** ** Package [path/filepath] *)

Module GoFilepath.

(** The operating systems the Makefile builds for; [darwin] has the
    separator of [linux]. *)
Inductive GOOS := linux | darwin | windows.

(** [os.IsPathSeparator] *)
Definition IsPathSeparator (goos : GOOS) (c : ascii) : bool :=
  match goos with
  | windows => Ascii.eqb c "\" || Ascii.eqb c "/"
  | _ => Ascii.eqb c "/"
  end.

(** The loop of [filepath.Ext], from the last byte towards the first:
    [rpath] holds the bytes not yet seen, last first, and [seen] the bytes
    after them.
    [for i := len(path) - 1; i >= 0 && !os.IsPathSeparator(path[i]); i--] *)
Fixpoint extLoop (goos : GOOS) (rpath seen : gostring) : gostring :=
  match rpath with
  | [] => ""
  | c :: rpath' =>
      if IsPathSeparator goos c then ""
      else if Ascii.eqb c "." then c :: seen
      else extLoop goos rpath' (c :: seen)
  end.

(** [filepath.Ext] *)
Definition Ext (goos : GOOS) (path : gostring) : gostring :=
  extLoop goos (rev path) [].

End GoFilepath.

(** ** Package [cmd] (cmd/info.go, cmd/root.go) *)

Module Cmd.

Import GoStrings GoFilepath.

(** [len(x)] of a slice. *)
Definition len' {A} (x : list A) : Z := Z.of_nat (length x).

(** [truncate] of cmd/info.go. *)
Definition truncate (s : gostring) (maxLen : Z) : option gostring :=
  if len s <=? maxLen then
    padding ← Repeat " " (maxLen - len s);
    Some (s ++ padding)
  else
    head ← slice s 0 (maxLen - 3);
    Some (head ++ "...").

Section WithExternals.
Context {env : Externals}.

(** The test of line 67 of [runConvert] and of line 37 of [runInfo]. *)
Definition isEpubPath (inputPath : gostring) : bool :=
  HasSuffix (ToLower inputPath) ".epub".

(** Lines 72-76 of [runConvert]: [outputPath] is the value of the flag. *)
Definition outputFor (goos : GOOS) (outputPath inputPath : gostring) : gostring :=
  let output := outputPath in
  if streq output "" then
    let base := TrimSuffix inputPath (Ext goos inputPath) in
    base ++ ".pdf"
  else output.

End WithExternals.

(** What the loop of lines 60-67 of [runInfo] prints: the arguments of
    its two calls of [fmt.Printf]. *)
Inductive row :=
| ChapterRow (number : Z) (title : gostring)   (* i+1, truncate(chapter.Title, 54) *)
| MoreRow (remaining : Z).                     (* len(book.Chapters) - 20 *)

(** The loop over [book.Chapters] from index [i] on; [total] is
    [len(book.Chapters)].  [None] is a panic of [truncate]. *)
Fixpoint chapterRows (total i : Z) (chapters : list Chapter.t) : option (list row) :=
  match chapters with
  | [] => Some []
  | chapter :: chapters' =>
      if 20 <=? i then
        let remaining := total - 20 in
        Some [MoreRow remaining]
      else
        title ← truncate (Chapter.Title chapter) 54;
        rows ← chapterRows total (i + 1) chapters';
        Some (ChapterRow (i + 1) title :: rows)
  end.

Definition chapterList (book : Book.t) : option (list row) :=
  chapterRows (len' (Book.Chapters book)) 0 (Book.Chapters book).

End Cmd.

(** ** Notions used to state the properties *)

Import GoStrings GoPath GoRegexp Epub.

(** Replacing a one-byte [old] acts on each byte on its own. *)
Definition replaceByte (old : ascii) (new : gostring) (c : ascii) : gostring :=
  if Ascii.eqb c old then new else [c].

Definition escapeByte (c : ascii) : gostring :=
  if Ascii.eqb c "&" then "&amp;"
  else if Ascii.eqb c "<" then "&lt;"
  else if Ascii.eqb c ">" then "&gt;"
  else if Ascii.eqb c dquote then "&quot;"
  else [c].

(** A path element that is a name: not empty, not [.], not [..], no slash. *)
Definition plainSegment (s : gostring) : bool :=
  negb (streq s "") && negb (streq s ".") && negb (streq s "..")
  && forallb (fun c => negb (isSlash c)) s.

(** The elements joined by slashes. *)
Fixpoint joinSegments (segments : list gostring) : gostring :=
  match segments with
  | [] => ""
  | [s] => s
  | s :: segments' => s ++ "/" ++ joinSegments segments'
  end.

(** The clean relative path with these elements; [.] when there are none. *)
Definition pathOf (segments : list gostring) : gostring :=
  match segments with
  | [] => "."
  | _ => joinSegments segments
  end.

(** [k] times [../] *)
Fixpoint parents (k : nat) : gostring :=
  match k with
  | O => ""
  | S k' => "../" ++ parents k'
  end.

Definition slashFree (s : gostring) : bool := forallb (fun c => negb (isSlash c)) s.

(** What follows a path element: the end of the path or a slash. *)
Definition atBoundary (rest : gostring) : bool :=
  match rest with
  | [] => true
  | c :: _ => isSlash c
  end.

(** The slash [Clean] writes before an element of a relative path. *)
Definition separator (rout : gostring) : gostring :=
  match rout with
  | [] => []
  | _ => "/"
  end.

(** The written part of a path that is being cleaned does not start with
    two slashes when the path is rooted, and with none when it is not.
    The bytes are listed most recent first. *)
Inductive wellStarted (rooted : bool) : gostring -> Prop :=
| wellStarted_nil : rooted = false -> wellStarted rooted []
| wellStarted_root : rooted = true -> wellStarted rooted ["/"%char]
| wellStarted_first c rout :
    isSlash c = false -> (length rout = if rooted then 1 else 0)%nat ->
    wellStarted rooted rout -> wellStarted rooted (c :: rout)
| wellStarted_more c rout :
    (length rout > if rooted then 1 else 0)%nat ->
    wellStarted rooted rout -> wellStarted rooted (c :: rout).

(** [re.MatchString(s)] *)
Definition MatchString (re : Regexp) (s : gostring) : bool :=
  match doExecute re s 0 with
  | Some _ => true
  | None => false
  end.

(** The test at the head of [resolveAndEmbed]: a data URI or an external
    URL. *)
Definition selfContained (src : gostring) : bool :=
  HasPrefix src "data:" || HasPrefix src "http://" || HasPrefix src "https://".

(** The reference that the replacement function sees in the match [m]. *)
Definition referenceOf (re : Regexp) (m : gostring) : gostring :=
  part (FindStringSubmatch re m) 3.

(** Every match of [re] in [content], from whatever offset the search
    starts, holds a reference that satisfies [p]. *)
Definition allReferences (re : Regexp) (content : gostring) (p : gostring -> bool) : bool :=
  forallb
    (fun pos =>
       match doExecute re content pos with
       | None => true
       | Some (a0, ends) => p (referenceOf re (substr content a0 (matchEnd a0 ends)))
       end)
    (seq 0 (S (length content))).

(** The byte [x] occurs in [s]. *)
Definition mentions (x : ascii) (s : gostring) : bool := existsb (Ascii.eqb x) s.

(** The node is a literal [x]. *)
Definition requires (x : ascii) (n : node) : bool :=
  match n with
  | Rune [[c]] => Ascii.eqb x c
  | _ => false
  end.

(** The media types [getMimeType] can return. *)
Definition mediaTypes : list gostring :=
  ["image/jpeg"; "image/png"; "image/gif"; "image/svg+xml"; "image/webp"; "image/bmp";
   "image/x-icon"].

Section PayloadDefs.
Context {env : Externals}.

(** Lines 349-364 of [resolveAndEmbed]: what is returned once the file
    has been found. *)
Definition payloadOf (cleanSrc : gostring) (zipFile : ZipFile.t) : gostring :=
  match readBinaryContent zipFile with
  | None => ""
  | Some data =>
      if streq (getMimeType cleanSrc) "" then ""
      else "data:" ++ getMimeType cleanSrc ++ ";base64," ++ GoBase64.EncodeToString data
  end.

(** A replacement function leaves alone every match whose reference is
    [src]. *)
Definition leavesAlone (re : Regexp) (repl : gostring -> gostring) (src : gostring) : Prop :=
  forall m, referenceOf re m = src -> repl m = m.
End PayloadDefs.

(** The continuation reports offsets at or after the one it is given. *)
Definition monotone (k : continuation) : Prop :=
  forall j t r, k j t = Some r -> Forall (le j) r.

Section SpecDefs.
Context {env : Externals}.

(** The chapter that one round of the spine loop appends, if any. *)
Definition chapterAt (files : gmap gostring ZipFile.t) (basePath : gostring)
    (manifestMap : gmap gostring ManifestItem.t) (i : Z) (itemRef : SpineItemRef.t)
  : option Chapter.t :=
  item ← manifestMap !! SpineItemRef.IDRef itemRef;
  if negb (Contains (ManifestItem.MediaType item) "html")
     && negb (Contains (ManifestItem.MediaType item) "xml")
  then None
  else
    let chapterPath := resolvePath basePath (ManifestItem.Href item) in
    chapterFile ← files !! chapterPath;
    content ← readFileContent chapterFile;
    Some (Chapter.mk (ManifestItem.ID item)
            (embedImages content (Dir chapterPath) files) i).

(** The style sheet that one round of the manifest loop appends, if any. *)
Definition styleAt (files : gmap gostring ZipFile.t) (basePath : gostring)
    (item : ManifestItem.t) : option gostring :=
  if streq (ManifestItem.MediaType item) "text/css" then
    let cssPath := resolvePath basePath (ManifestItem.Href item) in
    cssFile ← files !! cssPath;
    content ← readFileContent cssFile;
    Some (embedImages content (Dir cssPath) files)
  else None.

(** The entries of a list with their zero-based positions. *)
Definition indexed {A} (i : Z) (l : list A) : list (Z * A) :=
  imap (fun j a => (i + Z.of_nat j, a)) l.

(** [Parse] got as far as decoding the package document. *)
Definition parsedPackage (epubPath : gostring) (files : gmap gostring ZipFile.t)
    (opfPath : gostring) (pkg : Package.t) : Prop :=
  exists rFile containerFile container rootFile rootFiles opfFile,
    zipOpenReader epubPath = Some rFile /\
    files = fileIndex rFile /\
    files !! "META-INF/container.xml" = Some containerFile /\
    parseContainer containerFile = Ok container /\
    Container.RootFiles container = rootFile :: rootFiles /\
    opfPath = RootFile.FullPath rootFile /\
    files !! opfPath = Some opfFile /\
    parsePackage opfFile = Ok pkg.

(** The base directory [Parse] derives from the path of the package. *)
Definition baseOf (opfPath : gostring) : gostring :=
  if streq (Dir opfPath) "." then "" else Dir opfPath.

(** The order values are 0, 1, 2, ... without gaps. *)
Definition sequentialOrders (chapters : list Chapter.t) : Prop :=
  forall i c, chapters !! i = Some c -> Chapter.Order c = Z.of_nat i.

Definition adjacentIncreasing (chapters : list Chapter.t) : Prop :=
  forall i a b, chapters !! i = Some a -> chapters !! (S i) = Some b ->
    Chapter.Order a < Chapter.Order b.
End SpecDefs.

(** No element is less than the one before it. *)
Fixpoint ascending {A} (less : A -> A -> bool) (l : list A) : Prop :=
  match l with
  | a :: (b :: _) as t => less b a = false /\ ascending less t
  | _ => True
  end.

Definition orderLess (a b : Chapter.t) : bool := Chapter.Order a <? Chapter.Order b.

Definition ordersWithin (lo hi : Z) (chapters : list Chapter.t) : Prop :=
  Forall (fun c => lo <= Chapter.Order c < hi) chapters.

(** What [ToHTML] writes for one chapter whose body is [content]. *)
Definition chapterBlock (content : gostring) : gostring :=
  "<div class=" ++ [dquote] ++ "chapter" ++ [dquote] ++ ">" ++ newline
    ++ content ++ newline ++ "</div>" ++ newline.

(** What [ToHTML] writes before the chapters: the head with the title and
    the style sheets, and the title page. *)
Definition pageHead (title author : gostring) (css : list gostring) : gostring :=
  "<!DOCTYPE html>" ++ newline ++ "<html>" ++ newline ++ "<head>" ++ newline
    ++ "<meta charset=" ++ [dquote] ++ "UTF-8" ++ [dquote] ++ ">" ++ newline
    ++ "<title>" ++ escapeHTML title ++ "</title>" ++ newline
    ++ "<style>" ++ newline
    ++ baselineStyle
    ++ flat_map (fun sheet => sheet ++ newline) css
    ++ "</style>" ++ newline
    ++ "</head>" ++ newline ++ "<body>" ++ newline
    ++ "<div class=" ++ [dquote] ++ "title-page" ++ [dquote] ++ ">" ++ newline
    ++ "<h1>" ++ escapeHTML title ++ "</h1>" ++ newline
    ++ (if streq author "" then ""
        else "<p class=" ++ [dquote] ++ "author" ++ [dquote] ++ ">"
               ++ escapeHTML author ++ "</p>" ++ newline)
    ++ "</div>" ++ newline.

(** What [ToHTML] writes after the chapters. *)
Definition pageFoot : gostring := "</body>" ++ newline ++ "</html>".

(** The continuation reports at least one offset, and the offsets it
    reports do not decrease, starting from the one it is given. *)
Definition ordered (k : continuation) : Prop :=
  forall j t r, k j t = Some r -> r <> [] /\ StronglySorted le (j :: r).

(** No offset lies beyond [lim]. *)
Definition fits (lim : nat) (r : list nat) : Prop := Forall (fun e => (e <= lim)%nat) r.

(** On the input cut off at offset [lim] the continuation fails where it
    failed on the whole input, and finds again every match that ends at or
    before [lim]. *)
Definition cuttable (lim : nat) (k : continuation) : Prop :=
  forall j t,
    (k j t = None -> k j (take (lim - j) t) = None)
    /\ (forall r, k j t = Some r -> fits lim r -> k j (take (lim - j) t) = Some r).

(** No encoding in the orbit starts another one. *)
Definition prefixFree (encodings : list gostring) : bool :=
  forallb (fun e => forallb (fun e' => negb (HasPrefix e' e) || streq e e') encodings)
    encodings.

Definition prefixFreeNode (n : node) : bool :=
  match n with
  | Rune encodings => prefixFree encodings
  | _ => true
  end.

Definition prefixFreeRegexp (re : Regexp) : bool :=
  forallb (forallb prefixFreeNode) (groups re).

(** The three patterns of [embedImages]. *)
Definition patterns : list Regexp := [imgSrcRegex; xlinkRegex; urlRegex].

Section SubstitutesDefs.
Context {env : Externals}.
Variable basePath : gostring.
Variable files : gmap gostring ZipFile.t.

(** [t] comes from [s] by putting, for some pieces [src] of [s], the data
    URI [resolveAndEmbed src basePath files] in the place of [src], and
    doing so again on the result any number of times.  Nothing else is
    changed. *)
Inductive substitutes : gostring -> gostring -> Prop :=
| substitutes_same s : substitutes s s
| substitutes_reference src :
    resolveAndEmbed src basePath files <> "" ->
    substitutes src (resolveAndEmbed src basePath files)
| substitutes_app s s' t t' :
    substitutes s s' -> substitutes t t' -> substitutes (s ++ t) (s' ++ t')
| substitutes_then s t u :
    substitutes s t -> substitutes t u -> substitutes s u.

End SubstitutesDefs.

(** The least number of bytes that a match of the nodes takes. *)
Fixpoint minWidth (ns : list node) : nat :=
  match ns with
  | [] => 0
  | Rune encodings :: ns' =>
      (if forallb (fun e => negb (streq e "")) encodings then 1 else 0) + minWidth ns'
  | Class _ :: ns' | Plus _ :: ns' => 1 + minWidth ns'
  | Star _ :: ns' | Quest _ :: ns' => minWidth ns'
  end%nat.

(** The extensions [getMimeType] knows, each with its media type. *)
Definition mimeTable : list (gostring * gostring) :=
  [ (".jpg", "image/jpeg"); (".jpeg", "image/jpeg"); (".png", "image/png");
    (".gif", "image/gif"); (".svg", "image/svg+xml"); (".webp", "image/webp");
    (".bmp", "image/bmp"); (".ico", "image/x-icon") ].

(** The node cannot take the byte [b]. *)
Definition avoids (b : ascii) (n : node) : bool :=
  match n with
  | Rune encodings => forallb (fun e => negb (mentions b e)) encodings
  | Class p | Star p | Plus p | Quest p => negb (p b)
  end.

(** A match of the nodes takes the byte [x] before it can take a byte
    [b]. *)
Fixpoint needsBefore (x b : ascii) (ns : list node) : bool :=
  match ns with
  | [] => false
  | n :: ns' => requires x n || (avoids b n && needsBefore x b ns')
  end.

(** The text holds no [<img], in whatever case the letters are. *)
Definition noImgTag (text : gostring) : Prop :=
  MatchString (MustCompile [lit "<img"]) text = false.

(** The parts of [imgSrcRegex]: the literal it starts with, what follows
    the repetition of non-[>] bytes in its first group, and its three
    other groups. *)
Definition imgStart : list node := lit "<img".

Definition srcAttr : list node :=
  Class space :: lit "src" ++ [Star space] ++ lit "=" ++ [Star space].

Definition quoted : list (list node) :=
  [[Class (oneOf quotes)]; [Plus (noneOf quotes)]; [Class (oneOf quotes)]].

(** The text starts with [<img], in whatever case the letters are. *)
Definition startsImg (text : gostring) : bool :=
  match text with
  | c0 :: c1 :: c2 :: c3 :: _ =>
      Ascii.eqb c0 "<" && (Ascii.eqb c1 "i" || Ascii.eqb c1 "I")
      && (Ascii.eqb c2 "m" || Ascii.eqb c2 "M") && (Ascii.eqb c3 "g" || Ascii.eqb c3 "G")
  | _ => false
  end.

(** ** A small archive to run the model on *)

Module Sample.

Definition container : Container.t :=
  Container.mk [RootFile.mk "OEBPS/content.opf" "application/oebps-package+xml"].

(** The spine names an item that the manifest does not declare, then two
    chapters. *)
Definition package : Package.t :=
  Package.mk
    (Metadata.mk "A <Book> & more" "An Author")
    (Manifest.mk
       [ ManifestItem.mk "ch1" "text/ch1.xhtml" "application/xhtml+xml";
         ManifestItem.mk "style" "css/book.css" "text/css";
         ManifestItem.mk "cover" "img/cover.png" "image/png";
         ManifestItem.mk "ch2" "text/ch2.xhtml" "application/xhtml+xml" ])
    (Spine.mk [SpineItemRef.mk "gone"; SpineItemRef.mk "ch1"; SpineItemRef.mk "ch2"]).

Definition entries : list ZipFile.t :=
  [ ZipFile.mk "mimetype" (Some "application/epub+zip");
    ZipFile.mk "META-INF/container.xml" (Some "<container/>");
    ZipFile.mk "OEBPS/content.opf" (Some "<package/>");
    ZipFile.mk "OEBPS/text/ch1.xhtml"
      (Some "<html><body><p>One</p><img alt='' src='../img/cover.png'/></body></html>");
    ZipFile.mk "OEBPS/text/ch2.xhtml" (Some "<html><body><p>Two</p></body></html>");
    ZipFile.mk "OEBPS/css/book.css" (Some "p { margin: 0 }");
    ZipFile.mk "OEBPS/img/cover.png" (Some "PNG-bytes");
    ZipFile.mk "OEBPS/img/c+d.png" (Some "PNG-bytes") ].

Definition files : gmap gostring ZipFile.t := Epub.fileIndex entries.

(** An environment in which [book.epub] is that archive. *)
Definition externals : Externals :=
  {| unicodeToLower := fun s => s;
     xmlDecodeContainer :=
       fun data => if streq data "<container/>" then Some container else None;
     xmlDecodePackage :=
       fun data => if streq data "<package/>" then Some package else None;
     zipOpenReader :=
       fun path => if streq path "book.epub" then Some entries else None |}.

End Sample.

(** * Proofs *)

(** ** The library models on the examples of the library documentation *)

Example Clean_examples :
  Clean "a/c" = "a/c" /\ Clean "a//c" = "a/c" /\ Clean "a/c/." = "a/c"
  /\ Clean "a/c/b/.." = "a/c" /\ Clean "/../a/c" = "/a/c"
  /\ Clean "/../a/b/../././/c" = "/a/c" /\ Clean "" = "."
  /\ Clean "a/b/../../../x.png" = "../x.png" /\ Clean "../../a/../.." = "../../..".
Proof. repeat split; reflexivity. Qed.

Example Dir_examples :
  Dir "/a/b/c" = "/a/b" /\ Dir "a/b/c" = "a/b" /\ Dir "/a/" = "/a" /\ Dir "a/" = "a"
  /\ Dir "/" = "/" /\ Dir "" = "." /\ Dir "a" = "." /\ Dir "." = ".".
Proof. repeat split; reflexivity. Qed.

Example Join_examples :
  Join ["a"; "b"; "c"] = "a/b/c" /\ Join ["a"; "b/c"] = "a/b/c"
  /\ Join ["a/b"; "../../../xyz"] = "../xyz" /\ Join [""; ""] = ""
  /\ Join ["a"; ""] = "a" /\ Join [""; "a"] = "a" /\ Join ["."; "x.png"] = "x.png".
Proof. repeat split; reflexivity. Qed.

Example Split_examples :
  Split "static/myfile.css" = ("static/", "myfile.css")
  /\ Split "myfile.css" = ("", "myfile.css") /\ Split "" = ("", "").
Proof. repeat split; reflexivity. Qed.

Example strings_examples :
  Index "chicken" "ken" = 4 /\ Index "chicken" "dmr" = -1
  /\ LastIndex "go gopher" "go" = 3 /\ LastIndex "go gopher" "rodent" = -1
  /\ HasPrefix "Gopher" "Go" = true /\ HasPrefix "Gopher" "C" = false
  /\ HasPrefix "Gopher" "" = true
  /\ HasSuffix "Amigo" "go" = true /\ HasSuffix "Amigo" "O" = false
  /\ HasSuffix "Amigo" "Ami" = false /\ HasSuffix "Amigo" "" = true
  /\ TrimPrefix "prefix-body" "prefix-" = "body" /\ TrimPrefix "body" "prefix-" = "body"
  /\ Contains "seafood" "foo" = true /\ Contains "seafood" "bar" = false
  /\ ReplaceAll "oink oink oink" "k" "ky" = "oinky oinky oinky"
  /\ ReplaceAll "oink oink oink" "oink" "moo" = "moo moo moo".
Proof. repeat split; reflexivity. Qed.

Example ToLower_example {env : Externals} : ToLower "Gopher.PNG" = "gopher.png".
Proof. reflexivity. Qed.

Example QueryUnescape_examples :
  GoURL.QueryUnescape "10%25" = Some "10%"
  /\ GoURL.QueryUnescape "a%20b+c%2Bd.png" = Some "a b c+d.png"
  /\ GoURL.QueryUnescape "%41%6a" = Some "Aj"
  /\ GoURL.QueryUnescape "a%2" = None /\ GoURL.QueryUnescape "%zz" = None
  /\ GoURL.QueryUnescape "100%" = None.
Proof. repeat split; reflexivity. Qed.

(** The test vectors of RFC 4648. *)
Example EncodeToString_examples :
  GoBase64.EncodeToString "" = "" /\ GoBase64.EncodeToString "f" = "Zg=="
  /\ GoBase64.EncodeToString "fo" = "Zm8=" /\ GoBase64.EncodeToString "foo" = "Zm9v"
  /\ GoBase64.EncodeToString "foob" = "Zm9vYg=="
  /\ GoBase64.EncodeToString "fooba" = "Zm9vYmE="
  /\ GoBase64.EncodeToString "foobar" = "Zm9vYmFy".
Proof. repeat split; reflexivity. Qed.

Example Decode_examples :
  GoBase64.Decode "Zm9vYmE=" = Some "fooba" /\ GoBase64.Decode "Zg==" = Some "f"
  /\ GoBase64.Decode "Zg=" = None /\ GoBase64.Decode "Z*==" = None.
Proof. repeat split; reflexivity. Qed.

Example Slice_example : GoSort.Slice Z.ltb [3; 1; 2; 5; 4; 1] = [1; 1; 2; 3; 4; 5].
Proof. reflexivity. Qed.

Example FindStringSubmatch_examples :
  FindStringSubmatch imgSrcRegex "<p><IMG alt='x' class=a  SRC = 'a.png' id='b'>"
  = ["<IMG alt='x' class=a  SRC = 'a.png'"; "<IMG alt='x' class=a  SRC = "; "'"; "a.png"; "'"]
  /\ FindStringSubmatch imgSrcRegex "<img alt='x'> src='a.png'" = []
  /\ FindStringSubmatch xlinkRegex "<image XLINK:HREF='c.svg'/>"
     = ["XLINK:HREF='c.svg'"; "XLINK:HREF="; "'"; "c.svg"; "'"]
  /\ FindStringSubmatch urlRegex "background: URL( 'a.png' ); x url(b.png)"
     = ["URL( 'a.png' )"; "URL( "; "'"; "a.png"; "' )"]
  /\ FindStringSubmatch urlRegex "x url(b.png) y" = ["url(b.png)"; "url("; ""; "b.png"; ")"].
Proof. repeat split; reflexivity. Qed.

Example ReplaceAllStringFunc_example :
  ReplaceAllStringFunc urlRegex "a url(b.png) c URL( 'd.gif' ) e" (fun m => "[" ++ m ++ "]")
  = "a [url(b.png)] c [URL( 'd.gif' )] e".
Proof. reflexivity. Qed.

Example resolveRelativePath_examples :
  resolveRelativePath "OEBPS/text" "../img/a.png" = "OEBPS/img/a.png"
  /\ resolveRelativePath "OEBPS/text" "a.png" = "OEBPS/text/a.png"
  /\ resolveRelativePath "." "a.png" = "a.png"
  /\ resolveRelativePath "a/b" "../../../x.png" = "x.png"
  /\ normalizePath "/a/./b/../c" = "a/c".
Proof. repeat split; reflexivity. Qed.

Example extractBodyContent_example {env : Externals} :
  extractBodyContent "<html><BODY class='x'>hello</Body></html>" = Some "hello"
  /\ extractBodyContent "<p>no wrapper</p>" = Some "<p>no wrapper</p>"
  /\ extractBodyContent "<body><p>not closed" = Some "<p>not closed".
Proof. repeat split; reflexivity. Qed.

Example escapeHTML_example : escapeHTML "a&b<c>&amp;" = "a&amp;b&lt;c&gt;&amp;amp;".
Proof. reflexivity. Qed.

Example Parse_example :
  Parse (env := Sample.externals) "book.epub"
  = Ok (Book.mk "A <Book> & more" "An Author"
          [ Chapter.mk "ch1"
              "<html><body><p>One</p><img alt='' src='data:image/png;base64,UE5HLWJ5dGVz'/></body></html>"
              1;
            Chapter.mk "ch2" "<html><body><p>Two</p></body></html>" 2 ]
          ["p { margin: 0 }"] "OEBPS")
  /\ Parse (env := Sample.externals) "other.epub" = Err ErrOpenEpub.
Proof. split; vm_compute; reflexivity. Qed.

(** ** Strings *)

Lemma streq_spec (s t : gostring) : streq s t = true <-> s = t.
Proof.
  revert t. induction s as [|c s IH]; intros [|d t]; simpl; split; try done.
  - intros [Hc Hs]%andb_prop. apply Ascii.eqb_eq in Hc. apply IH in Hs. congruence.
  - intros [= -> ->]. apply andb_true_intro. split; [apply Ascii.eqb_refl | by apply IH].
Qed.

Lemma streq_false (s t : gostring) : streq s t = false <-> s <> t.
Proof.
  rewrite <- streq_spec. destruct (streq s t); split; congruence.
Qed.

Lemma HasPrefix_spec (s p : gostring) : HasPrefix s p = true <-> exists t, s = p ++ t.
Proof.
  revert s. induction p as [|c p IH]; intros s; simpl.
  - split; [intros _; by exists s | done].
  - destruct s as [|d s]; split.
    + done.
    + intros [t Ht]. done.
    + intros [Hc Hs]%andb_prop. apply Ascii.eqb_eq in Hc. apply IH in Hs as [t ->].
      exists t. by subst.
    + intros [t [= -> ->]]. apply andb_true_intro. split; [apply Ascii.eqb_refl|]. apply IH. eauto.
Qed.

(** ** [escapeHTML] *)

Lemma ReplaceAll_byte (s : gostring) (old : ascii) (new : gostring) :
  ReplaceAll s [old] new = flat_map (replaceByte old new) s.
Proof.
  unfold ReplaceAll. induction s as [|c s IH]; [done|].
  cbn [replaceFrom HasPrefix length Nat.sub flat_map]. unfold replaceByte at 1.
  rewrite andb_true_r. rewrite IH. by destruct (Ascii.eqb c old).
Qed.

Lemma flat_map_flat_map {A B C} (f : A -> list B) (g : B -> list C) (l : list A) :
  flat_map g (flat_map f l) = flat_map (fun a => flat_map g (f a)) l.
Proof.
  induction l as [|a l IH]; [done|]. simpl. by rewrite flat_map_app, IH.
Qed.

Lemma escape_one (c : ascii) :
  flat_map (replaceByte dquote "&quot;")
    (flat_map (replaceByte ">" "&gt;")
       (flat_map (replaceByte "<" "&lt;") (replaceByte "&" "&amp;" c))) = escapeByte c.
Proof.
  destruct c as [[] [] [] [] [] [] [] []]; reflexivity.
Qed.

(** C9: [escapeHTML] is the four replacements in the order [&], [<], [>],
    double quote, and what they amount to is that every byte of the input
    is replaced once: [&] by [&amp;], [<] by [&lt;], [>] by [&gt;], the
    double quote by [&quot;], any other byte by itself.  In particular the
    ampersands that the first replacement writes are not escaped again and
    the ampersands of the later replacements are not touched. *)
Theorem escapeHTML_bytewise (s : gostring) :
  escapeHTML s
  = ReplaceAll (ReplaceAll (ReplaceAll (ReplaceAll s "&" "&amp;") "<" "&lt;") ">" "&gt;")
      [dquote] "&quot;"
  /\ escapeHTML s = flat_map escapeByte s.
Proof.
  split; [reflexivity|]. unfold escapeHTML. rewrite !ReplaceAll_byte. rewrite !flat_map_flat_map.
  apply flat_map_ext. intros c. rewrite <- !flat_map_flat_map. apply escape_one.
Qed.

(** ** Base64 *)

Section Base64Proofs.
Import GoBase64.

(** *** Bit operations as arithmetic *)

Lemma land_shiftl_small x y n :
  0 <= n -> 0 <= y < 2 ^ n -> Z.land (Z.shiftl x n) y = 0.
Proof.
  intros Hn Hy. apply Z.bits_inj'. intros m Hm.
  rewrite Z.land_spec, Z.bits_0.
  destruct (Z.lt_ge_cases m n) as [Hlt|Hge].
  - rewrite Z.shiftl_spec_low by lia. done.
  - rewrite <- (Z.mod_small y (2 ^ n)) by lia.
    rewrite Z.mod_pow2_bits_high by lia. apply andb_false_r.
Qed.

Lemma lor_shiftl_small x y n :
  0 <= n -> 0 <= y < 2 ^ n -> Z.lor (Z.shiftl x n) y = x * 2 ^ n + y.
Proof.
  intros Hn Hy. pose proof (land_shiftl_small x y n Hn Hy) as Hland.
  rewrite <- Z.lxor_lor by done. rewrite <- Z.add_nocarry_lxor by done.
  by rewrite Z.shiftl_mul_pow2.
Qed.

Lemma land_63 x : Z.land x 63 = x mod 64.
Proof. change 63 with (Z.ones 6). by rewrite Z.land_ones. Qed.

Lemma byteVal_range c : 0 <= byteVal c < 256.
Proof.
  unfold byteVal. pose proof (nat_ascii_bounded c). lia.
Qed.

Lemma toByte_byteVal c : toByte (byteVal c) = c.
Proof.
  unfold toByte. rewrite Z.mod_small by apply byteVal_range.
  unfold byteVal. rewrite Nat2Z.id. apply ascii_nat_embedding.
Qed.

Lemma toByte_mod v c : v mod 256 = byteVal c -> toByte v = c.
Proof.
  intros Hv. unfold toByte. rewrite Hv. unfold byteVal.
  rewrite Nat2Z.id. apply ascii_nat_embedding.
Qed.

Lemma lor_aligned x y n :
  0 <= n -> x mod 2 ^ n = 0 -> 0 <= y < 2 ^ n -> Z.lor x y = x + y.
Proof.
  intros Hn Hx Hy.
  assert (Hx' : x = Z.shiftl (x / 2 ^ n) n).
  { rewrite Z.shiftl_mul_pow2 by done.
    pose proof (Z.div_mod x (2 ^ n)). lia. }
  rewrite Hx' at 1. rewrite lor_shiftl_small by done.
  pose proof (Z.div_mod x (2 ^ n)). lia.
Qed.

(** *** The alphabet *)

Lemma alphabet_inverse v :
  0 <= v < 64 -> decodeMap (encodeAt v) = Some v /\ Ascii.eqb (encodeAt v) padChar = false.
Proof.
  intros Hv.
  assert (Hall : forallb (fun n => match decodeMap (encodeAt (Z.of_nat n)) with
                                   | Some w => (w =? Z.of_nat n)
                                               && negb (Ascii.eqb (encodeAt (Z.of_nat n)) padChar)
                                   | None => false
                                   end) (seq 0 64) = true) by (vm_compute; reflexivity).
  rewrite forallb_forall in Hall.
  assert (Hin : In (Z.to_nat v) (seq 0 64)) by (apply in_seq; lia).
  apply Hall in Hin. rewrite Z2Nat.id in Hin by lia.
  destruct (decodeMap (encodeAt v)) as [w|]; [|done].
  apply andb_prop in Hin as [Hw Hp].
  apply Z.eqb_eq in Hw. apply negb_true_iff in Hp. by subst.
Qed.

(** *** One quantum *)

Ltac arith := Z.div_mod_to_equations; lia.

Lemma sextet_range v k : 0 <= Z.land (Z.shiftr v k) 63 < 64.
Proof. rewrite land_63. apply Z.mod_pos_bound. lia. Qed.

Lemma pack3 a b c :
  0 <= a < 256 -> 0 <= b < 256 -> 0 <= c < 256 ->
  Z.lor (Z.lor (Z.shiftl a 16) (Z.shiftl b 8)) c = a * 65536 + b * 256 + c.
Proof.
  intros Ha Hb Hc. rewrite !Z.shiftl_mul_pow2 by lia.
  rewrite (lor_aligned (a * 2 ^ 16) (b * 2 ^ 8) 16) by arith.
  rewrite (lor_aligned _ c 8) by arith. lia.
Qed.

Lemma pack4 s1 s2 s3 s4 :
  0 <= s1 < 64 -> 0 <= s2 < 64 -> 0 <= s3 < 64 -> 0 <= s4 < 64 ->
  Z.lor (Z.lor (Z.lor (Z.shiftl s1 18) (Z.shiftl s2 12)) (Z.shiftl s3 6)) s4
  = s1 * 262144 + s2 * 4096 + s3 * 64 + s4.
Proof.
  intros H1 H2 H3 H4. rewrite !Z.shiftl_mul_pow2 by lia.
  rewrite (lor_aligned (s1 * 2 ^ 18) (s2 * 2 ^ 12) 18) by arith.
  rewrite (lor_aligned _ (s3 * 2 ^ 6) 12) by arith.
  rewrite (lor_aligned _ s4 6) by arith. lia.
Qed.

Lemma quantum3 a b c :
  0 <= a < 256 -> 0 <= b < 256 -> 0 <= c < 256 ->
  let val := Z.lor (Z.lor (Z.shiftl a 16) (Z.shiftl b 8)) c in
  let val' :=
    Z.lor (Z.lor (Z.lor (Z.shiftl (Z.land (Z.shiftr val 18) 63) 18)
                        (Z.shiftl (Z.land (Z.shiftr val 12) 63) 12))
                 (Z.shiftl (Z.land (Z.shiftr val 6) 63) 6))
          (Z.land val 63) in
  Z.shiftr val' 16 mod 256 = a /\ Z.shiftr val' 8 mod 256 = b /\ val' mod 256 = c.
Proof.
  intros Ha Hb Hc val val'. subst val'.
  rewrite pack4; try apply sextet_range; [|rewrite land_63; arith].
  subst val. rewrite pack3 by done.
  rewrite !land_63, !Z.shiftr_div_pow2 by lia.
  change (2 ^ 18) with 262144. change (2 ^ 12) with 4096. change (2 ^ 6) with 64.
  change (2 ^ 16) with 65536. change (2 ^ 8) with 256.
  repeat split; arith.
Qed.

Lemma quantum2 a b :
  0 <= a < 256 -> 0 <= b < 256 ->
  let val := Z.lor (Z.shiftl a 16) (Z.shiftl b 8) in
  let val' :=
    Z.lor (Z.lor (Z.shiftl (Z.land (Z.shiftr val 18) 63) 18)
                 (Z.shiftl (Z.land (Z.shiftr val 12) 63) 12))
          (Z.shiftl (Z.land (Z.shiftr val 6) 63) 6) in
  Z.shiftr val' 16 mod 256 = a /\ Z.shiftr val' 8 mod 256 = b.
Proof.
  intros Ha Hb val val'.
  pose proof (quantum3 a b 0 Ha Hb ltac:(lia)) as H3. cbv zeta in H3.
  rewrite !Z.lor_0_r in H3. fold val in H3.
  replace (Z.land val 63) with 0 in H3.
  - rewrite Z.lor_0_r in H3. fold val' in H3. tauto.
  - subst val. rewrite land_63, !Z.shiftl_mul_pow2 by lia.
    rewrite (lor_aligned (a * 2 ^ 16) (b * 2 ^ 8) 16) by arith. arith.
Qed.

Lemma quantum1 a :
  0 <= a < 256 ->
  let val := Z.shiftl a 16 in
  let val' :=
    Z.lor (Z.shiftl (Z.land (Z.shiftr val 18) 63) 18)
          (Z.shiftl (Z.land (Z.shiftr val 12) 63) 12) in
  Z.shiftr val' 16 mod 256 = a.
Proof.
  intros Ha val val'.
  pose proof (quantum2 a 0 Ha ltac:(lia)) as H2. cbv zeta in H2.
  change (Z.shiftl 0 8) with 0 in H2. rewrite !Z.lor_0_r in H2. fold val in H2.
  replace (Z.land (Z.shiftr val 6) 63) with 0 in H2.
  - change (Z.shiftl 0 6) with 0 in H2. rewrite Z.lor_0_r in H2. fold val' in H2. tauto.
  - subst val. rewrite land_63, Z.shiftl_mul_pow2, Z.shiftr_div_pow2 by lia. arith.
Qed.

(** *** Round trip *)

Lemma list_ind3 {A} (P : list A -> Prop) :
  P [] -> (forall a, P [a]) -> (forall a b, P [a; b]) ->
  (forall a b c l, P l -> P (a :: b :: c :: l)) ->
  forall l, P l.
Proof.
  intros H0 H1 H2 H3 l.
  assert (Hall : P l /\ (forall a, P (a :: l)) /\ (forall a b, P (a :: b :: l))).
  { induction l as [|x l (IH0 & IH1 & IH2)]; [by auto|].
    split; [apply IH1|]. split; [intros a; apply IH2|]. intros a b. by apply H3. }
  apply Hall.
Qed.

Theorem Decode_Encode (src : gostring) : Decode (EncodeToString src) = Some src.
Proof.
  unfold EncodeToString. induction src as [|a|a b|a b c src IH] using list_ind3.
  - done.
  - pose proof (byteVal_range a) as Ha.
    cbn [Encode Decode]. cbv zeta.
    set (val := Z.shiftl (byteVal a) 16).
    destruct (alphabet_inverse _ (sextet_range val 18)) as [-> _].
    destruct (alphabet_inverse _ (sextet_range val 12)) as [-> _].
    cbn [mbind option_bind]. rewrite Ascii.eqb_refl. cbn [andb streq].
    do 2 f_equal. apply toByte_mod. by apply quantum1.
  - pose proof (byteVal_range a) as Ha. pose proof (byteVal_range b) as Hb.
    cbn [Encode Decode]. cbv zeta.
    set (val := Z.lor (Z.shiftl (byteVal a) 16) (Z.shiftl (byteVal b) 8)).
    destruct (alphabet_inverse _ (sextet_range val 18)) as [-> _].
    destruct (alphabet_inverse _ (sextet_range val 12)) as [-> _].
    destruct (alphabet_inverse _ (sextet_range val 6)) as [-> ->].
    cbn [mbind option_bind]. rewrite Ascii.eqb_refl. cbn [streq].
    pose proof (quantum2 _ _ Ha Hb) as [H1 H2]. fold val in H1, H2.
    f_equal. f_equal; [by apply toByte_mod|]. f_equal. by apply toByte_mod.
  - pose proof (byteVal_range a) as Ha. pose proof (byteVal_range b) as Hb.
    pose proof (byteVal_range c) as Hc.
    cbn [Encode Decode]. cbv zeta.
    set (val := Z.lor (Z.lor (Z.shiftl (byteVal a) 16) (Z.shiftl (byteVal b) 8))
                      (byteVal c)).
    destruct (alphabet_inverse _ (sextet_range val 18)) as [-> _].
    destruct (alphabet_inverse _ (sextet_range val 12)) as [-> _].
    destruct (alphabet_inverse _ (sextet_range val 6)) as [-> ->].
    assert (Hs4 : 0 <= Z.land val 63 < 64) by (rewrite land_63; arith).
    destruct (alphabet_inverse _ Hs4) as [-> ->].
    cbn [mbind option_bind]. rewrite IH. cbn [mbind option_bind].
    pose proof (quantum3 _ _ _ Ha Hb Hc) as (H1 & H2 & H3). fold val in H1, H2, H3.
    f_equal. f_equal; [by apply toByte_mod|]. f_equal; [by apply toByte_mod|].
    f_equal. by apply toByte_mod.
Qed.
End Base64Proofs.

(** ** Paths *)

Section PathProofs.

(** *** Termination of [resolveRelativePath] *)

Lemma TrimPrefix_length (s p : gostring) :
  HasPrefix s p = true -> (length (TrimPrefix s p) + length p = length s)%nat.
Proof.
  intros Hp. unfold TrimPrefix. rewrite Hp. apply HasPrefix_spec in Hp as [t ->].
  rewrite drop_app_length, length_app. lia.
Qed.

(** With more levels than [href] has bytes the bound is never hit, and
    the result no longer depends on it. *)
Lemma resolveRelativePathN_enough (fuel : nat) (basePath href : gostring) :
  (length href < fuel)%nat ->
  exists r, resolveRelativePathN fuel basePath href = Some r
    /\ forall fuel', (length href < fuel')%nat ->
         resolveRelativePathN fuel' basePath href = Some r.
Proof.
  revert basePath href. induction fuel as [|fuel IH]; intros basePath href Hlen; [lia|].
  cbn [resolveRelativePathN].
  destruct (streq basePath "") eqn:Hbase.
  { exists href. split; [done|]. intros [|fuel'] Hf; [lia|].
    cbn [resolveRelativePathN]. by rewrite Hbase. }
  destruct (HasPrefix href "../") eqn:Hpre.
  - pose proof (TrimPrefix_length _ _ Hpre) as Htrim. simpl in Htrim.
    destruct (IH (Dir basePath) (TrimPrefix href "../")) as (r & Hr & Hall); [lia|].
    exists r. split; [done|]. intros [|fuel'] Hf; [lia|].
    cbn [resolveRelativePathN]. rewrite Hbase, Hpre. apply Hall. lia.
  - eexists. split; [done|]. intros [|fuel'] Hf; [lia|].
    cbn [resolveRelativePathN]. by rewrite Hbase, Hpre.
Qed.

(** The equation of the source function. *)
Lemma resolveRelativePath_eq (basePath href : gostring) :
  resolveRelativePath basePath href =
  if streq basePath "" then href
  else if HasPrefix href "../"
       then resolveRelativePath (Dir basePath) (TrimPrefix href "../")
       else Join [basePath; href].
Proof.
  unfold resolveRelativePath at 1. cbn [resolveRelativePathN].
  destruct (streq basePath ""); [done|].
  destruct (HasPrefix href "../") eqn:Hpre; [|done].
  pose proof (TrimPrefix_length _ _ Hpre) as Htrim. simpl in Htrim.
  destruct (resolveRelativePathN_enough (length href) (Dir basePath)
              (TrimPrefix href "../")) as (r & Hr & Hall); [lia|].
  unfold resolveRelativePath. rewrite Hr, Hall by lia. done.
Qed.


(** *** [path.Clean] on clean relative paths *)

Lemma cleanLoop_copy rooted s rest rout dotdot :
  slashFree s = true -> atBoundary rest = true ->
  cleanLoop rooted true (s ++ rest) rout dotdot
  = cleanLoop rooted false rest (rev s ++ rout) dotdot.
Proof.
  revert rout. induction s as [|c s IH]; intros rout Hfree Hb.
  - destruct rest as [|d rest]; [done|]. simpl in Hb. simpl. by rewrite Hb.
  - simpl in Hfree. apply andb_prop in Hfree as [Hc Hfree].
    apply negb_true_iff in Hc. cbn [app cleanLoop]. rewrite Hc.
    rewrite IH by done. simpl. by rewrite <- app_assoc.
Qed.

Lemma plainSegment_inv s :
  plainSegment s = true ->
  exists c s', s = c :: s' /\ isSlash c = false /\ slashFree s' = true
    /\ (isDot c = true -> exists d s'', s' = d :: s'' /\ isSlash d = false
          /\ (isDot d = true -> exists e s3, s'' = e :: s3 /\ isSlash e = false)).
Proof.
  unfold plainSegment. intros Hp.
  apply andb_prop in Hp as [Hp Hfree]. apply andb_prop in Hp as [Hp Hdd].
  apply andb_prop in Hp as [Hne Hd].
  destruct s as [|c s']; [done|]. exists c, s'.
  simpl in Hfree. apply andb_prop in Hfree as [Hc Hfree]. apply negb_true_iff in Hc.
  split; [done|]. split; [done|]. split; [done|]. intros Hdot.
  destruct s' as [|d s''].
  { exfalso. simpl in Hd. unfold isDot in Hdot. rewrite Hdot in Hd. done. }
  exists d, s''. simpl in Hfree. apply andb_prop in Hfree as [Hdn Hfree].
  apply negb_true_iff in Hdn. split; [done|]. split; [done|]. intros Hdot2.
  destruct s'' as [|e s3].
  { exfalso. simpl in Hdd. unfold isDot in Hdot, Hdot2. rewrite Hdot, Hdot2 in Hdd. done. }
  exists e, s3. simpl in Hfree. apply andb_prop in Hfree as [He _].
  apply negb_true_iff in He. done.
Qed.

Lemma cleanLoop_plain s rest rout dotdot :
  plainSegment s = true -> atBoundary rest = true ->
  cleanLoop false false (s ++ rest) rout dotdot
  = cleanLoop false false rest (rev s ++ separator rout ++ rout) dotdot.
Proof.
  intros (c & s' & -> & Hc & Hfree & Hdot)%plainSegment_inv Hb.
  assert (Hgoal : cleanLoop false true (s' ++ rest) (c :: separator rout ++ rout) dotdot
                  = cleanLoop false false rest
                      (rev (c :: s') ++ separator rout ++ rout) dotdot).
  { rewrite cleanLoop_copy by done. simpl. by rewrite <- app_assoc. }
  cbn [app cleanLoop]. rewrite Hc.
  destruct (isDot c) eqn:Hdc.
  - destruct (Hdot eq_refl) as (d & s'' & -> & Hd & Hdot2).
    cbn [app andb]. rewrite Hd.
    destruct (isDot d) eqn:Hdd.
    + destruct (Hdot2 eq_refl) as (e & s3 & -> & He).
      cbn [app andb]. rewrite He. destruct rout; exact Hgoal.
    + cbn [andb]. destruct rout; exact Hgoal.
  - cbn [andb]. destruct (s' ++ rest) eqn:Hrest; destruct rout; exact Hgoal.
Qed.

Lemma joinSegments_cons s segments :
  segments <> [] -> joinSegments (s :: segments) = s ++ "/" ++ joinSegments segments.
Proof. by destruct segments. Qed.

Lemma joinSegments_app segments rest :
  segments <> [] -> rest <> [] ->
  joinSegments (segments ++ rest) = joinSegments segments ++ "/" ++ joinSegments rest.
Proof.
  intros Hs Hr. induction segments as [|s segments IH]; [done|].
  destruct segments as [|s2 segments].
  - simpl. by destruct rest.
  - change ((s :: s2 :: segments) ++ rest) with (s :: ((s2 :: segments) ++ rest)).
    rewrite !joinSegments_cons by done. rewrite IH by done. by rewrite <- !app_assoc.
Qed.

Lemma cleanLoop_segments segments rest rout dotdot :
  forallb plainSegment segments = true -> segments <> [] -> atBoundary rest = true ->
  cleanLoop false false (joinSegments segments ++ rest) rout dotdot
  = cleanLoop false false rest
      (rev (joinSegments segments) ++ separator rout ++ rout) dotdot.
Proof.
  revert rout. induction segments as [|s segments IH]; intros rout Hp Hne Hb; [done|].
  simpl in Hp. apply andb_prop in Hp as [Hs Hp].
  destruct segments as [|s2 segments].
  - simpl. by apply cleanLoop_plain.
  - rewrite joinSegments_cons by done. rewrite <- !app_assoc.
    rewrite cleanLoop_plain by done.
    change ("/" ++ joinSegments (s2 :: segments) ++ rest)
      with ("/"%char :: (joinSegments (s2 :: segments) ++ rest)).
    cbn [cleanLoop]. change (isSlash "/") with true. cbv iota.
    rewrite IH by done. f_equal.
    rewrite !rev_app_distr. simpl. rewrite <- !app_assoc.
    destruct (rev s ++ separator rout ++ rout) eqn:Hr; [|done].
    apply plainSegment_inv in Hs as (c & s' & -> & _). simpl in Hr.
    rewrite <- app_assoc in Hr. by destruct (rev s').
Qed.

Lemma joinSegments_head segments :
  forallb plainSegment segments = true -> segments <> [] ->
  exists c p, joinSegments segments = c :: p /\ isSlash c = false.
Proof.
  destruct segments as [|s segments]; [done|]. intros Hp _.
  simpl in Hp. apply andb_prop in Hp as [Hs _].
  apply plainSegment_inv in Hs as (c & s' & -> & Hc & _).
  exists c. destruct segments; simpl; eauto.
Qed.

Lemma Clean_relative c p :
  isSlash c = false ->
  Clean (c :: p) =
  let rout := cleanLoop false false (c :: p) [] 0 in
  if (length rout =? 0)%nat then "." else rev rout.
Proof. intros Hc. unfold Clean. by rewrite Hc. Qed.

Lemma rev_nonempty_length {A} (l : list A) :
  l <> [] -> (length (rev l) =? 0)%nat = false.
Proof. intros Hl. rewrite length_rev. destruct l; [done|]. done. Qed.

(** A clean relative path is left as it is, and so is one with a slash
    added at the end. *)
Lemma Clean_joinSegments segments rest :
  forallb plainSegment segments = true -> segments <> [] ->
  rest = "" \/ rest = "/" ->
  Clean (joinSegments segments ++ rest) = joinSegments segments.
Proof.
  intros Hp Hne Hrest.
  destruct (joinSegments_head segments Hp Hne) as (c & p & Hj & Hc).
  assert (Hcl : cleanLoop false false (joinSegments segments ++ rest) [] 0
                = rev (joinSegments segments)).
  { rewrite cleanLoop_segments; [|done|done|by destruct Hrest as [-> | ->]].
    simpl. rewrite app_nil_r. by destruct Hrest as [-> | ->]. }
  rewrite Hj in Hcl |- *. change ((c :: p) ++ rest) with (c :: (p ++ rest)) in *.
  rewrite Clean_relative by done. cbv zeta. rewrite Hcl.
  rewrite rev_nonempty_length by done. apply rev_involutive.
Qed.

Lemma pathOf_nonempty segments :
  forallb plainSegment segments = true -> pathOf segments <> "".
Proof.
  destruct segments as [|s segments]; [done|]. intros Hp.
  destruct (joinSegments_head (s :: segments) Hp) as (c & p & Hj & _); [done|].
  unfold pathOf. by rewrite Hj.
Qed.

Lemma Clean_nonempty p : Clean p <> "".
Proof.
  unfold Clean. destruct p as [|c p]; [done|].
  set (rout := if isSlash c then _ else _).
  destruct rout as [|d rout]; [done|]. simpl. by destruct (rev rout).
Qed.

Lemma Join_two basePath href :
  basePath <> "" -> Join [basePath; href] = Clean (basePath ++ "/" ++ href).
Proof.
  intros Hb. destruct basePath as [|c basePath]; [done|]. unfold Join. simpl.
  by rewrite <- app_assoc.
Qed.

Lemma Clean_dot_slash p :
  Clean ("."%char :: "/"%char :: p) =
  let rout := cleanLoop false false p [] 0 in
  if (length rout =? 0)%nat then "." else rev rout.
Proof. reflexivity. Qed.

(** Joining a clean relative directory and a clean relative path. *)
Lemma Join_pathOf segments rest :
  forallb plainSegment segments = true -> forallb plainSegment rest = true ->
  Join [pathOf segments; joinSegments rest] = pathOf (segments ++ rest).
Proof.
  intros Hs Hr. rewrite Join_two by by apply pathOf_nonempty.
  destruct segments as [|s segments].
  - destruct rest as [|r rest]; [done|].
    destruct (joinSegments_head (r :: rest) Hr) as (c & p & Hj & Hc); [done|].
    cbn [pathOf app]. rewrite Clean_dot_slash. cbv zeta.
    rewrite <- (app_nil_r (joinSegments (r :: rest))).
    rewrite cleanLoop_segments by done. cbn [cleanLoop separator app].
    rewrite !app_nil_r, Hj. rewrite rev_nonempty_length by done. apply rev_involutive.
  - destruct rest as [|r rest].
    + rewrite app_nil_r. change (joinSegments []) with (@nil ascii).
      rewrite app_nil_r. change (pathOf (s :: segments)) with (joinSegments (s :: segments)).
      apply Clean_joinSegments; auto.
    + change (pathOf (s :: segments)) with (joinSegments (s :: segments)).
      change (pathOf ((s :: segments) ++ r :: rest))
        with (joinSegments ((s :: segments) ++ r :: rest)).
      rewrite <- joinSegments_app by done.
      pose proof (Clean_joinSegments ((s :: segments) ++ r :: rest) "") as HC.
      rewrite app_nil_r in HC. apply HC; [|done|auto].
      rewrite forallb_app. by rewrite Hs, Hr.
Qed.

(** *** [path.Dir] on clean relative paths *)

Lemma plainSegment_slashFree s : plainSegment s = true -> slashFree s = true.
Proof. unfold plainSegment. by intros [_ Hf]%andb_prop. Qed.

Lemma lastIndexByteFrom_slashFree i found s :
  slashFree s = true -> lastIndexByteFrom i found s "/" = found.
Proof.
  revert i. induction s as [|c s IH]; intros i Hf; [done|].
  simpl in Hf. apply andb_prop in Hf as [Hc Hf]. apply negb_true_iff in Hc.
  cbn [lastIndexByteFrom]. unfold isSlash in Hc. rewrite Hc. by apply IH.
Qed.

Lemma lastIndexByteFrom_last_slash i found p s :
  slashFree s = true ->
  lastIndexByteFrom i found (p ++ "/" ++ s) "/" = i + Z.of_nat (length p).
Proof.
  revert i found. induction p as [|c p IH]; intros i found Hf.
  - cbn [app lastIndexByteFrom length]. change (Ascii.eqb "/" "/") with true. cbv iota.
    rewrite lastIndexByteFrom_slashFree by done. simpl. lia.
  - cbn [app lastIndexByteFrom length]. rewrite IH by done. lia.
Qed.

Lemma Dir_pathOf_snoc segments s :
  forallb plainSegment (segments ++ [s]) = true ->
  Dir (pathOf (segments ++ [s])) = pathOf segments.
Proof.
  rewrite forallb_app. intros [Hp Hs]%andb_prop. simpl in Hs.
  rewrite andb_true_r in Hs. pose proof (plainSegment_slashFree s Hs) as Hf.
  unfold Dir, Split, LastIndexByte. destruct segments as [|s1 segments].
  - cbn [app pathOf joinSegments fst].
    by rewrite lastIndexByteFrom_slashFree by done.
  - change (pathOf ((s1 :: segments) ++ [s]))
      with (joinSegments ((s1 :: segments) ++ [s])).
    rewrite joinSegments_app by done. change (joinSegments [s]) with s.
    change (pathOf (s1 :: segments)) with (joinSegments (s1 :: segments)).
    pose proof (Clean_joinSegments (s1 :: segments) "/" Hp) as HC.
    remember (joinSegments (s1 :: segments)) as J. cbn [fst].
    rewrite lastIndexByteFrom_last_slash by done.
    replace (Z.to_nat (0 + Z.of_nat (length J) + 1))
      with (length (J ++ "/")) by (rewrite length_app; simpl; lia).
    rewrite app_assoc, take_app_length. apply HC; auto.
Qed.

Lemma Dir_pathOf_take segments m :
  forallb plainSegment segments = true -> (m <= length segments)%nat ->
  Dir (pathOf (take m segments)) = pathOf (take (m - 1) segments).
Proof.
  intros Hp Hm. destruct m as [|m]; [done|].
  replace (S m - 1)%nat with m by lia.
  destruct (segments !! m) as [s|] eqn:Hs.
  - rewrite (take_S_r _ _ _ Hs). apply Dir_pathOf_snoc.
    rewrite <- (take_S_r _ _ _ Hs).
    rewrite <- (take_drop (S m) segments), forallb_app in Hp.
    by apply andb_prop in Hp as [Hp _].
  - apply lookup_ge_None in Hs. lia.
Qed.

Lemma iter_Dir_pathOf segments k :
  forallb plainSegment segments = true ->
  Nat.iter k Dir (pathOf segments) = pathOf (take (length segments - k) segments).
Proof.
  intros Hp. induction k as [|k IH].
  - simpl. by rewrite Nat.sub_0_r, firstn_all.
  - rewrite Nat.iter_succ, IH, Dir_pathOf_take by (done || lia). do 2 f_equal. lia.
Qed.

(** *** [resolveRelativePath] on leading parent segments *)

Lemma iter_Dir_nonempty k basePath : basePath <> "" -> Nat.iter k Dir basePath <> "".
Proof. destruct k; [done|]. intros _. apply Clean_nonempty. Qed.

Lemma resolveRelativePath_parents basePath k rest :
  basePath <> "" -> HasPrefix rest "../" = false ->
  resolveRelativePath basePath (parents k ++ rest) = Join [Nat.iter k Dir basePath; rest].
Proof.
  intros Hb Hrest. revert basePath Hb. induction k as [|k IH]; intros basePath Hb.
  - cbn [parents app]. change (Nat.iter 0 Dir basePath) with basePath.
    rewrite resolveRelativePath_eq.
    apply streq_false in Hb. by rewrite Hb, Hrest.
  - rewrite resolveRelativePath_eq. apply streq_false in Hb. rewrite Hb.
    change (HasPrefix (parents (S k) ++ rest) "../") with true. cbv iota.
    change (TrimPrefix (parents (S k) ++ rest) "../") with (parents k ++ rest).
    rewrite IH by apply Clean_nonempty. by rewrite Nat.iter_succ_r.
Qed.

Lemma joinSegments_no_parent rest :
  forallb plainSegment rest = true -> HasPrefix (joinSegments rest) "../" = false.
Proof.
  destruct rest as [|r rest]; [done|]. intros Hp. simpl in Hp.
  apply andb_prop in Hp as [Hr _].
  apply plainSegment_inv in Hr as (c & s' & -> & Hc & Hfree & Hdot).
  assert (Hgoal : HasPrefix ((c :: s') ++ "/" ++ joinSegments rest) "../" = false
                  /\ HasPrefix (c :: s') "../" = false).
  { unfold isDot, isSlash in *. cbn [app HasPrefix].
    destruct (Ascii.eqb c ".") eqn:Hdc; [|done].
    destruct (Hdot eq_refl) as (d & s'' & -> & Hd & Hdot2).
    cbn [app HasPrefix andb]. destruct (Ascii.eqb d ".") eqn:Hdd; [|done].
    destruct (Hdot2 eq_refl) as (e & s3 & -> & He).
    cbn [app HasPrefix andb]. by rewrite He. }
  destruct rest; [apply Hgoal|]. rewrite joinSegments_cons by done. apply Hgoal.
Qed.

Lemma iter_Dir_top k : Nat.iter k Dir "." = "." /\ Nat.iter k Dir "/" = "/".
Proof.
  induction k as [|k [IHdot IHroot]]; [done|].
  rewrite !Nat.iter_succ, IHdot, IHroot. done.
Qed.

(** C6, as amended: the recursion of [resolveRelativePath] ends, for every
    base directory and every reference, within [len(href) + 1] calls.  For a
    base directory that is not empty, [k] leading [../] take the base
    directory [k] times through [path.Dir] before the rest is joined to it,
    and [path.Dir] leaves the top-level directories [.] and [/] where they
    are.  For a base directory that is a clean relative path of [n] names
    ([.] when [n = 0]) and a reference made of [k] leading [../] followed
    by a clean relative path, the result is the first [n - k] names of the
    base directory followed by the rest.  Once [k >= n] the base directory
    has shrunk to [.]: the surplus [../] are dropped and the result is the
    rest itself, not a path above the root. *)
Theorem resolveRelativePath_clamps (segments rest : list gostring) (k : nat) :
  forallb plainSegment segments = true ->
  forallb plainSegment rest = true ->
  let basePath := pathOf segments in
  let href := parents k ++ joinSegments rest in
  (forall b h, exists r, resolveRelativePathN (S (length h)) b h = Some r
                         /\ resolveRelativePath b h = r)
  /\ (forall b h, b <> "" -> HasPrefix h "../" = false ->
        resolveRelativePath b (parents k ++ h) = Join [Nat.iter k Dir b; h])
  /\ (Nat.iter k Dir "." = "." /\ Nat.iter k Dir "/" = "/")
  /\ Nat.iter k Dir basePath = pathOf (take (length segments - k) segments)
  /\ resolveRelativePath basePath href = pathOf (take (length segments - k) segments ++ rest)
  /\ ((length segments <= k)%nat -> resolveRelativePath basePath href = pathOf rest).
Proof.
  intros Hs Hr basePath href.
  assert (Hfull : resolveRelativePath basePath href
                  = pathOf (take (length segments - k) segments ++ rest)).
  { unfold href. rewrite resolveRelativePath_parents;
      [|by apply pathOf_nonempty | by apply joinSegments_no_parent].
    subst basePath. rewrite iter_Dir_pathOf by done.
    apply Join_pathOf; [|done].
    rewrite <- (take_drop (length segments - k) segments), forallb_app in Hs.
    by apply andb_prop in Hs as [Hs _]. }
  split; [|split; [|split; [|split; [|split; [done|]]]]].
  - intros b h. destruct (resolveRelativePathN_enough (S (length h)) b h) as (r & Hr' & _);
      [lia|]. exists r. split; [done|]. unfold resolveRelativePath. by rewrite Hr'.
  - intros b h Hb Hh. by apply resolveRelativePath_parents.
  - apply iter_Dir_top.
  - by apply iter_Dir_pathOf.
  - intros Hk. rewrite Hfull. replace (length segments - k)%nat with 0%nat by lia. done.
Qed.

(** *** The start of a cleaned path *)

Lemma wellStarted_tail rooted c rout : wellStarted rooted (c :: rout) ->
  rout <> [] \/ rooted = false -> wellStarted rooted rout.
Proof.
  intros Hw Hne. inversion Hw; subst; try done.
  destruct Hne as [Hne|Hne]; [done|]. by constructor.
Qed.

Lemma wellStarted_length rooted rout : wellStarted rooted rout ->
  (length rout >= if rooted then 1 else 0)%nat.
Proof. induction 1; subst; simpl in *; try lia. Qed.

Lemma wellStarted_push rooted c rout :
  wellStarted rooted rout ->
  isSlash c = false \/ (length rout > if rooted then 1 else 0)%nat ->
  wellStarted rooted (c :: rout).
Proof.
  intros Hw Hc. pose proof (wellStarted_length _ rout Hw) as Hlen.
  destruct (le_lt_dec (length rout) (if rooted then 1 else 0)) as [Hle|Hgt].
  - destruct Hc as [Hc|Hc]; [|lia]. apply wellStarted_first; [done|lia|done].
  - by apply wellStarted_more.
Qed.

Lemma backtrack_wellStarted rooted dotdot last rout :
  wellStarted rooted rout -> ((if rooted then 1 else 0) <= dotdot)%nat ->
  wellStarted rooted (backtrack dotdot last rout).
Proof.
  revert last. induction rout as [|c rout IH]; intros last Hw Hdd; [done|].
  cbn [backtrack]. destruct ((dotdot <? length (c :: rout))%nat && negb (isSlash last)) eqn:Hc;
    [|done].
  apply andb_prop in Hc as [Hlen _]. apply Nat.ltb_lt in Hlen. simpl in Hlen.
  apply IH; [|done]. apply (wellStarted_tail _ c); [done|].
  destruct rooted; [left|by right]. destruct rout; [simpl in Hlen; lia|done].
Qed.

Lemma dotdotElem_wellStarted rooted rout dotdot :
  wellStarted rooted rout -> ((if rooted then 1 else 0) <= dotdot)%nat ->
  wellStarted rooted (dotdotElem rooted rout dotdot).1
  /\ ((if rooted then 1 else 0) <= (dotdotElem rooted rout dotdot).2)%nat.
Proof.
  intros Hw Hdd. unfold dotdotElem.
  destruct (dotdot <? length rout)%nat eqn:Hlt.
  - destruct rout as [|c rout]; [done|]. simpl. split; [|done].
    apply Nat.ltb_lt in Hlt. simpl in Hlt.
    apply backtrack_wellStarted; [|done]. apply (wellStarted_tail _ c); [done|].
    destruct rooted; [left|by right]. destruct rout; [simpl in Hlt; lia|done].
  - destruct rooted; simpl; [done|]. split; [|lia].
    apply wellStarted_push; [|by left]. apply wellStarted_push; [|by left].
    destruct rout as [|c rout]; [done|]. simpl.
    apply wellStarted_push; [done|]. right. simpl. lia.
Qed.

Lemma cleanLoop_wellStarted rooted copying rest rout dotdot :
  wellStarted rooted rout -> ((if rooted then 1 else 0) <= dotdot)%nat ->
  wellStarted rooted (cleanLoop rooted copying rest rout dotdot).
Proof.
  revert copying rout dotdot.
  induction rest as [rest IH] using (induction_ltof1 _ (@length ascii)).
  unfold ltof in IH. intros copying rout dotdot Hw Hdd.
  assert (Hstart : forall c, isSlash c = false ->
    wellStarted rooted
      (c :: (if (rooted && negb (length rout =? 1)%nat)
                || (negb rooted && negb (length rout =? 0)%nat)
             then "/"%char :: rout else rout))).
  { intros c Hc. pose proof (wellStarted_length _ rout Hw) as Hlen.
    destruct rooted; cbn [andb orb negb].
    - destruct (length rout =? 1)%nat eqn:H1; cbn [negb].
      + by apply wellStarted_push; [|left].
      + apply Nat.eqb_neq in H1. apply wellStarted_push; [|by left].
        apply wellStarted_push; [done|]. right. lia.
    - destruct (length rout =? 0)%nat eqn:H0; cbn [negb].
      + by apply wellStarted_push; [|left].
      + apply Nat.eqb_neq in H0. apply wellStarted_push; [|by left].
        apply wellStarted_push; [done|]. right. lia. }
  destruct rest as [|c rest]; [done|]. cbn [cleanLoop].
  destruct copying.
  { destruct (isSlash c) eqn:Hc; [apply IH; simpl; [lia|done..]|].
    apply IH; [simpl; lia| |done]. by apply wellStarted_push; [|left]. }
  destruct (isSlash c) eqn:Hc; [apply IH; simpl; [lia|done..]|].
  destruct (isDot c && match rest with [] => true | d :: _ => isSlash d end);
    [apply IH; simpl; [lia|done..]|].
  destruct rest as [|d rest].
  { apply IH; [simpl; lia| |done]. by apply Hstart. }
  destruct (isDot c && isDot d && match rest with [] => true | e :: _ => isSlash e end).
  - destruct (dotdotElem_wellStarted _ rout dotdot Hw Hdd) as [Hw' Hdd'].
    destruct (dotdotElem rooted rout dotdot) as [rout' dotdot']. simpl in Hw', Hdd'.
    apply IH; [simpl; lia|done..].
  - apply IH; [simpl; lia| |done]. by apply Hstart.
Qed.

Lemma wellStarted_rev_relative rout :
  wellStarted false rout -> HasPrefix (rev rout) "/" = false \/ rout = [].
Proof.
  induction 1 as [?|?|c rout Hc Hlen Hw IH|c rout Hlen Hw IH]; [by right|done| |].
  - left. destruct rout; [|done]. simpl. unfold isSlash in Hc. by rewrite Hc.
  - left. destruct IH as [IH| ->]; [|simpl in Hlen; lia].
    simpl. destruct (rev rout) as [|d r] eqn:Hr; [|done].
    apply (f_equal (@length ascii)) in Hr. rewrite length_rev in Hr. simpl in Hr. lia.
Qed.

Lemma wellStarted_rev_rooted rout :
  wellStarted true rout ->
  exists q, rev rout = "/"%char :: q /\ HasPrefix q "/" = false.
Proof.
  induction 1 as [?|?|c rout Hc Hlen Hw IH|c rout Hlen Hw IH]; [done|by exists []| |].
  - destruct IH as (q & Hq & Hp). exists (q ++ [c]). simpl. rewrite Hq. split; [done|].
    destruct q as [|d q]; [|done].
    simpl. unfold isSlash in Hc. by rewrite Hc.
  - destruct IH as (q & Hq & Hp). exists (q ++ [c]). simpl. rewrite Hq. split; [done|].
    destruct q as [|d q]; [|done].
    apply (f_equal (@length ascii)) in Hq. rewrite length_rev in Hq. simpl in Hq. lia.
Qed.

(** The normalized path never starts with a slash. *)
Lemma normalizePath_relative p : HasPrefix (normalizePath p) "/" = false.
Proof.
  unfold normalizePath, Clean. destruct p as [|c p]; [done|].
  destruct (isSlash c) eqn:Hc.
  - pose proof (cleanLoop_wellStarted true false p ["/"%char] 1
                  (wellStarted_root true eq_refl) (le_n 1)) as Hw.
    destruct (wellStarted_rev_rooted _ Hw) as (q & Hq & Hp).
    destruct (length _ =? 0)%nat; [done|]. rewrite Hq.
    unfold TrimPrefix. simpl. by rewrite drop_0.
  - pose proof (cleanLoop_wellStarted false false (c :: p) [] 0
                  (wellStarted_nil false eq_refl) (le_n 0)) as Hw.
    destruct (length _ =? 0)%nat eqn:Hlen; [done|].
    destruct (wellStarted_rev_relative _ Hw) as [Hp|Hnil].
    + unfold TrimPrefix. by rewrite Hp.
    + rewrite Hnil in Hlen. done.
Qed.

End PathProofs.

Lemma resolveRelativePath_clamps_witness :
  resolveRelativePath "a/b" "../../../x.png" = "x.png".
Proof.
  pose proof (resolveRelativePath_clamps ["a"; "b"] ["x.png"] 3 eq_refl eq_refl)
    as (_ & _ & _ & _ & _ & Hclamp).
  apply Hclamp. simpl. lia.
Defined.

(** C6 as stated fails: with an empty base directory the parent segment
    stays in the result, and parent segments further inside the reference
    take the result above the root as well. *)
Lemma resolveRelativePath_above_root_counterexample :
  resolveRelativePath "" "../x.png" = "../x.png"
  /\ HasPrefix (resolveRelativePath "" "../x.png") "../" = true
  /\ resolveRelativePath "x" "../../a/../../b" = "../b".
Proof. repeat split; reflexivity. Qed.

(** ** Pattern matching and replacement *)

Section RegexpProofs.

(** *** Offsets delivered by the matcher *)

Lemma Forall_le_weaken i j (r : list nat) : (i <= j)%nat -> Forall (le j) r -> Forall (le i) r.
Proof. intros Hij Hr. eapply Forall_impl; [exact Hr|]. simpl. intros e. lia. Qed.

Lemma starLoop_monotone p k : monotone k -> monotone (starLoop p k).
Proof.
  intros Hk j t. revert j. induction t as [|c t IH]; intros j r; simpl.
  - apply Hk.
  - destruct (p c); [|apply Hk].
    destruct (starLoop p k (S j) t) as [r'|] eqn:Hs.
    + intros [= <-]. apply (Forall_le_weaken j (S j)); [lia|]. by apply IH.
    + apply Hk.
Qed.

Lemma matchNodes_monotone ns k : monotone k -> monotone (matchNodes ns k).
Proof.
  revert k. induction ns as [|n ns IH]; intros k Hk; [exact Hk|].
  intros j t r. destruct n as [encodings|p|p|p|p]; cbn [matchNodes].
  - destruct (runePrefix encodings t) as [w|]; [|done].
    intros Hm. apply (Forall_le_weaken j (j + w)); [lia|]. by apply (IH k Hk) in Hm.
  - destruct t as [|c t]; [done|]. destruct (p c); [|done].
    intros Hm. apply (Forall_le_weaken j (S j)); [lia|]. by apply (IH k Hk) in Hm.
  - apply starLoop_monotone. by apply IH.
  - destruct t as [|c t]; [done|]. destruct (p c); [|done].
    intros Hm. apply (Forall_le_weaken j (S j)); [lia|].
    revert Hm. apply starLoop_monotone. by apply IH.
  - destruct t as [|c t]; [by apply IH|]. destruct (p c); [|by apply IH].
    destruct (matchNodes ns k (S j) t) as [r'|] eqn:Hs.
    + intros [= <-]. apply (Forall_le_weaken j (S j)); [lia|]. by apply (IH k Hk) in Hs.
    + by apply IH.
Qed.

Lemma matchGroups_monotone gs : monotone (matchGroups gs).
Proof.
  induction gs as [|g gs IH]; intros j t r; cbn [matchGroups].
  - intros [= <-]. constructor.
  - apply matchNodes_monotone. intros j' t' r'.
    destruct (matchGroups gs j' t') as [r''|] eqn:Hg; [|done].
    simpl. intros [= <-]. constructor; [lia|]. by apply IH in Hg.
Qed.

Lemma matchEnd_le i ends : Forall (le i) ends -> (i <= matchEnd i ends)%nat.
Proof.
  unfold matchEnd. induction ends as [|e ends IH] using rev_ind; intros Hall.
  - simpl. lia.
  - rewrite last_last. apply Forall_app in Hall as [_ He].
    by inversion He.
Qed.

Lemma findFrom_bounds gs i s a0 ends :
  findFrom gs i s = Some (a0, ends) -> (i <= a0 /\ a0 <= matchEnd a0 ends)%nat.
Proof.
  revert i. induction s as [|c s IH]; intros i; cbn [findFrom].
  - destruct (matchGroups gs i []) as [r|] eqn:Hm; [|done].
    intros [= <- <-]. split; [lia|]. apply matchGroups_monotone in Hm.
    by apply matchEnd_le.
  - destruct (matchGroups gs i (c :: s)) as [r|] eqn:Hm.
    + intros [= <- <-]. split; [lia|]. apply matchGroups_monotone in Hm.
      by apply matchEnd_le.
    + intros Hf. apply IH in Hf. lia.
Qed.

Lemma doExecute_bounds re src pos a0 ends :
  doExecute re src pos = Some (a0, ends) -> (pos <= a0 /\ a0 <= matchEnd a0 ends)%nat.
Proof. apply findFrom_bounds. Qed.

(** *** The replacement loop *)

(** The search position moves forward in every round, so the loop is
    over after [len(src) + 1] rounds. *)
Lemma replaceLoop_enough fuel re src repl lastMatchEnd searchPos buf :
  (0 < fuel)%nat -> (length src + 2 <= fuel + searchPos)%nat ->
  exists r, replaceLoop fuel re src repl lastMatchEnd searchPos buf = Some r.
Proof.
  revert lastMatchEnd searchPos buf.
  induction fuel as [|fuel IH]; intros lastMatchEnd searchPos buf Hpos Hfuel; [lia|].
  cbn [replaceLoop].
  destruct (searchPos <=? length src)%nat eqn:Hle; [|eauto].
  destruct (doExecute re src searchPos) as [[a0 ends]|] eqn:Hm; [|eauto].
  apply doExecute_bounds in Hm. apply Nat.leb_le in Hle. cbv zeta.
  apply IH; [lia|].
  repeat case_match; rewrite ?Nat.ltb_lt, ?Nat.ltb_ge in *; lia.
Qed.

Lemma replaceLoop_fuel fuel re src repl lastMatchEnd searchPos buf :
  (length src < searchPos)%nat ->
  replaceLoop (S fuel) re src repl lastMatchEnd searchPos buf
  = Some (buf ++ drop lastMatchEnd src).
Proof.
  intros Hpos. cbn [replaceLoop].
  destruct (searchPos <=? length src)%nat eqn:Hle; [|done].
  apply Nat.leb_le in Hle. lia.
Qed.

(** A pattern without a match leaves the text as it is. *)
Lemma ReplaceAllStringFunc_no_match re src repl :
  MatchString re src = false -> ReplaceAllStringFunc re src repl = src.
Proof.
  unfold MatchString, ReplaceAllStringFunc. intros Hm.
  replace (length src + 2)%nat with (S (length src + 1)) by lia.
  cbn [replaceLoop]. destruct (doExecute re src 0); [done|]. done.
Qed.

Lemma take_substr src lo hi :
  (lo <= hi)%nat -> take lo src ++ substr src lo hi = take hi src.
Proof.
  intros Hle. unfold substr. rewrite take_take_drop. f_equal. lia.
Qed.

(** Replacing every match by itself gives back the text. *)
Lemma replaceLoop_identity fuel re src repl lastMatchEnd searchPos r :
  (forall pos a0 ends, (pos <= length src)%nat ->
     doExecute re src pos = Some (a0, ends) ->
     repl (substr src a0 (matchEnd a0 ends)) = substr src a0 (matchEnd a0 ends)) ->
  (lastMatchEnd <= searchPos)%nat ->
  replaceLoop fuel re src repl lastMatchEnd searchPos (take lastMatchEnd src) = Some r ->
  r = src.
Proof.
  intros Hrepl. revert lastMatchEnd searchPos.
  induction fuel as [|fuel IH]; intros lastMatchEnd searchPos Hle; [done|].
  cbn [replaceLoop].
  destruct (searchPos <=? length src)%nat eqn:Hpos;
    [|intros [= <-]; apply take_drop].
  apply Nat.leb_le in Hpos.
  destruct (doExecute re src searchPos) as [[a0 ends]|] eqn:Hm;
    [|intros [= <-]; apply take_drop].
  pose proof (doExecute_bounds _ _ _ _ _ Hm) as [Ha0 Ha1].
  cbv zeta. rewrite (Hrepl _ _ _ Hpos Hm).
  rewrite take_substr by lia.
  assert (Hbuf : (if (lastMatchEnd <? matchEnd a0 ends)%nat || (a0 =? 0)%nat
                  then take a0 src ++ substr src a0 (matchEnd a0 ends)
                  else take a0 src) = take (matchEnd a0 ends) src).
  { destruct ((lastMatchEnd <? matchEnd a0 ends)%nat || (a0 =? 0)%nat) eqn:Hc.
    - by apply take_substr.
    - apply orb_false_iff in Hc as [Hc _]. apply Nat.ltb_ge in Hc.
      f_equal. lia. }
  rewrite Hbuf. apply IH.
  repeat case_match; rewrite ?Nat.ltb_lt, ?Nat.ltb_ge in *; lia.
Qed.

Lemma ReplaceAllStringFunc_identity re src repl :
  (forall pos a0 ends, (pos <= length src)%nat ->
     doExecute re src pos = Some (a0, ends) ->
     repl (substr src a0 (matchEnd a0 ends)) = substr src a0 (matchEnd a0 ends)) ->
  ReplaceAllStringFunc re src repl = src.
Proof.
  intros Hrepl. unfold ReplaceAllStringFunc.
  destruct (replaceLoop (length src + 2) re src repl 0 0 []) as [r|] eqn:Hr; [|done].
  simpl. by eapply (replaceLoop_identity _ re src repl 0%nat 0%nat r Hrepl).
Qed.

(** [ReplaceAllStringFunc] is the loop run to its end. *)
Lemma ReplaceAllStringFunc_loop re src repl :
  replaceLoop (length src + 2) re src repl 0 0 []
  = Some (ReplaceAllStringFunc re src repl).
Proof.
  unfold ReplaceAllStringFunc.
  destruct (replaceLoop_enough (length src + 2) re src repl 0 0 []) as [r ->];
    [lia|lia|done].
Qed.

Lemma allReferences_spec re content p pos a0 ends :
  allReferences re content p = true -> (pos <= length content)%nat ->
  doExecute re content pos = Some (a0, ends) ->
  p (referenceOf re (substr content a0 (matchEnd a0 ends))) = true.
Proof.
  unfold allReferences. rewrite forallb_forall. intros Hall Hpos Hm.
  specialize (Hall pos). rewrite Hm in Hall. apply Hall. apply in_seq. lia.
Qed.

End RegexpProofs.

(** *** Texts in which a pattern cannot match *)

Section Absent.
Variable x : ascii.

Lemma mentions_drop n s : mentions x s = false -> mentions x (drop n s) = false.
Proof.
  revert n. induction s as [|c s IH]; intros [|n] Hs; try done.
  simpl in Hs. apply orb_false_iff in Hs as [_ Hs]. by apply IH.
Qed.

Lemma starLoop_absent p (k : continuation) i s :
  (forall j t, mentions x t = false -> k j t = None) ->
  mentions x s = false -> starLoop p k i s = None.
Proof.
  intros Hk. revert i. induction s as [|c s IH]; intros i Hs; cbn [starLoop]; [by apply Hk|].
  pose proof Hs as Hs'. simpl in Hs'. apply orb_false_iff in Hs' as [_ Hs'].
  destruct (p c); [|by apply Hk]. rewrite IH by done. by apply Hk.
Qed.

Lemma matchNodes_absent ns (k : continuation) i s :
  existsb (requires x) ns = true \/ (forall j t, mentions x t = false -> k j t = None) ->
  mentions x s = false -> matchNodes ns k i s = None.
Proof.
  revert i s. induction ns as [|n ns IH]; intros i s Hns Hs.
  { destruct Hns as [Hns|Hk]; [done|]. by apply Hk. }
  assert (Hrest : requires x n = false ->
                  existsb (requires x) ns = true
                  \/ (forall j t, mentions x t = false -> k j t = None)).
  { intros Hn. destruct Hns as [Hns|Hk]; [|by right]. left. simpl in Hns. by rewrite Hn in Hns. }
  assert (Htail : forall c s', s = c :: s' -> mentions x s' = false).
  { intros c s' ->. simpl in Hs. by apply orb_false_iff in Hs as [_ Hs]. }
  destruct n as [encodings|p|p|p|p]; cbn [matchNodes].
  - destruct (requires x (Rune encodings)) eqn:Hreq.
    + destruct encodings as [|[|c [|? ?]] [|? ?]]; try done. simpl in Hreq.
      apply Ascii.eqb_eq in Hreq as <-. cbn [runePrefix].
      destruct (HasPrefix s [x]) eqn:Hp; [|done]. exfalso.
      destruct s as [|d s]; [done|]. simpl in Hp, Hs. rewrite andb_true_r in Hp.
      apply Ascii.eqb_eq in Hp as ->. by rewrite Ascii.eqb_refl in Hs.
    + destruct (runePrefix encodings s) as [w|]; [|done].
      apply IH; [by apply Hrest|by apply mentions_drop].
  - destruct s as [|c s']; [done|]. destruct (p c); [|done].
    apply IH; [by apply Hrest|by eapply Htail].
  - apply starLoop_absent; [|done]. intros j t Ht. apply IH; [by apply Hrest|done].
  - destruct s as [|c s']; [done|]. destruct (p c); [|done].
    apply starLoop_absent; [|by eapply Htail].
    intros j t Ht. apply IH; [by apply Hrest|done].
  - destruct s as [|c s']; [by apply IH; [apply Hrest|]|].
    destruct (p c).
    + rewrite IH; [|by apply Hrest|by eapply Htail]. apply IH; [by apply Hrest|done].
    + apply IH; [by apply Hrest|done].
Qed.

(** A pattern whose first group holds a literal [x] has no match in a
    text without [x]. *)
Lemma MatchString_absent g gs s :
  existsb (requires x) g = true -> mentions x s = false ->
  MatchString (MustCompile (g :: gs)) s = false.
Proof.
  intros Hg Hs. unfold MatchString, doExecute. cbn [groups]. rewrite drop_0.
  generalize 0%nat. induction s as [|c s IH]; intros i; cbn [findFrom matchGroups].
  - by rewrite matchNodes_absent by auto.
  - rewrite matchNodes_absent by auto.
    apply IH. simpl in Hs. by apply orb_false_iff in Hs as [_ Hs].
Qed.
End Absent.

Section EmbedProofs.
Context {env : Externals}.

Lemma resolveAndEmbed_selfContained src basePath files :
  selfContained src = true -> resolveAndEmbed src basePath files = "".
Proof. unfold selfContained, resolveAndEmbed. by intros ->. Qed.

Lemma resolveAndEmbed_found src basePath files :
  selfContained src = false ->
  resolveAndEmbed src basePath files =
  match findImage files (resolveRelativePath basePath (cleanSrcOf src)) (cleanSrcOf src) with
  | None => ""
  | Some zipFile => payloadOf (cleanSrcOf src) zipFile
  end.
Proof.
  unfold selfContained, resolveAndEmbed, payloadOf. intros ->.
  destruct (findImage _ _ _) as [zipFile|]; [|done].
  destruct (readBinaryContent zipFile); [|done]. by destruct (streq _ _).
Qed.

Lemma imgSrcRepl_unchanged basePath files m :
  resolveAndEmbed (referenceOf imgSrcRegex m) basePath files = "" ->
  imgSrcRepl basePath files m = m.
Proof.
  unfold imgSrcRepl, referenceOf. intros ->.
  by destruct (length _ <? 5)%nat.
Qed.

Lemma xlinkRepl_unchanged basePath files m :
  resolveAndEmbed (referenceOf xlinkRegex m) basePath files = "" ->
  xlinkRepl basePath files m = m.
Proof.
  unfold xlinkRepl, referenceOf. intros ->.
  destruct (length _ <? 5)%nat; [done|]. by destruct (isImageFile _).
Qed.

Lemma urlRepl_unchanged basePath files m :
  resolveAndEmbed (referenceOf urlRegex m) basePath files = "" ->
  urlRepl basePath files m = m.
Proof.
  unfold urlRepl, referenceOf. intros ->.
  destruct (length _ <? 5)%nat; [done|]. by destruct (isImageFile _).
Qed.

(** Nothing to embed for a reference: all three replacement functions
    return the match they were given. *)
Lemma not_embedded_leavesAlone src basePath files :
  resolveAndEmbed src basePath files = "" ->
  leavesAlone imgSrcRegex (imgSrcRepl basePath files) src
  /\ leavesAlone xlinkRegex (xlinkRepl basePath files) src
  /\ leavesAlone urlRegex (urlRepl basePath files) src.
Proof.
  intros Hr. repeat split; intros m <-.
  - by apply imgSrcRepl_unchanged.
  - by apply xlinkRepl_unchanged.
  - by apply urlRepl_unchanged.
Qed.

(** C8: markup in which none of the three patterns (image source
    attribute, [xlink:href] attribute, [url(...)]) has a match comes back
    from [embedImages] as it went in, byte for byte. *)
Theorem embedImages_no_references content basePath files :
  MatchString imgSrcRegex content = false ->
  MatchString xlinkRegex content = false ->
  MatchString urlRegex content = false ->
  embedImages content basePath files = content.
Proof.
  intros Himg Hxlink Hurl. unfold embedImages.
  rewrite (ReplaceAllStringFunc_no_match imgSrcRegex) by done.
  rewrite (ReplaceAllStringFunc_no_match xlinkRegex) by done.
  by rewrite (ReplaceAllStringFunc_no_match urlRegex).
Qed.

(** Text with no equals sign and no opening parenthesis holds no
    reference of any of the three kinds. *)
Lemma embedImages_plain_text content basePath files :
  mentions "=" content = false -> mentions "(" content = false ->
  embedImages content basePath files = content.
Proof.
  intros Heq Hpar. unfold embedImages.
  rewrite (ReplaceAllStringFunc_no_match imgSrcRegex)
    by (by apply (MatchString_absent "=")).
  rewrite (ReplaceAllStringFunc_no_match xlinkRegex)
    by (by apply (MatchString_absent "=")).
  by rewrite (ReplaceAllStringFunc_no_match urlRegex)
    by (by apply (MatchString_absent "(")).
Qed.

Lemma embedImages_selfContained content basePath files :
  allReferences imgSrcRegex content selfContained = true ->
  allReferences xlinkRegex content selfContained = true ->
  allReferences urlRegex content selfContained = true ->
  embedImages content basePath files = content.
Proof.
  intros Himg Hxlink Hurl. unfold embedImages.
  rewrite (ReplaceAllStringFunc_identity imgSrcRegex).
  2: { intros pos a0 ends Hpos Hm. apply imgSrcRepl_unchanged.
       apply resolveAndEmbed_selfContained. by eapply allReferences_spec. }
  rewrite (ReplaceAllStringFunc_identity xlinkRegex).
  2: { intros pos a0 ends Hpos Hm. apply xlinkRepl_unchanged.
       apply resolveAndEmbed_selfContained. by eapply allReferences_spec. }
  rewrite (ReplaceAllStringFunc_identity urlRegex); [done|].
  intros pos a0 ends Hpos Hm. apply urlRepl_unchanged.
  apply resolveAndEmbed_selfContained. by eapply allReferences_spec.
Qed.

(** C3: for a reference that starts with [data:], [http://] or
    [https://], [resolveAndEmbed] returns the empty string (nothing to
    embed), whatever the base directory and the archive, and each of the
    three replacement functions returns a match with that reference as it
    was.  Markup whose references all start so comes back from
    [embedImages] unchanged. *)
Theorem selfContained_reference_untouched src basePath files :
  selfContained src = true ->
  resolveAndEmbed src basePath files = ""
  /\ leavesAlone imgSrcRegex (imgSrcRepl basePath files) src
  /\ leavesAlone xlinkRegex (xlinkRepl basePath files) src
  /\ leavesAlone urlRegex (urlRepl basePath files) src
  /\ (forall content,
        allReferences imgSrcRegex content selfContained = true ->
        allReferences xlinkRegex content selfContained = true ->
        allReferences urlRegex content selfContained = true ->
        embedImages content basePath files = content).
Proof.
  intros Hsrc. pose proof (resolveAndEmbed_selfContained src basePath files Hsrc) as Hr.
  split; [done|]. destruct (not_embedded_leavesAlone _ _ _ Hr) as (H1 & H2 & H3).
  repeat split; try done. intros content. apply embedImages_selfContained.
Qed.

(** C4: when the resolved path [imagePath] is not in the archive,
    [resolveAndEmbed] looks up the cleaned reference [cleanSrc] (not joined
    to the base directory) and, when that misses too, the normalized form
    of the resolved path: [path.Clean] applied and a leading slash cut off,
    so that it never starts with a slash.  A hit in either gives what the
    found file gives.  When all three lookups miss, the result is the empty
    string, the three replacement functions return the match unchanged, and
    nothing is raised: the functions are total. *)
Theorem missing_reference_fallbacks src basePath files :
  let cleanSrc := cleanSrcOf src in
  let imagePath := resolveRelativePath basePath cleanSrc in
  files !! imagePath = None ->
  (selfContained src = false ->
   forall zipFile, files !! cleanSrc = Some zipFile ->
     resolveAndEmbed src basePath files = payloadOf cleanSrc zipFile)
  /\ (selfContained src = false ->
      forall zipFile, files !! cleanSrc = None ->
        files !! normalizePath imagePath = Some zipFile ->
        resolveAndEmbed src basePath files = payloadOf cleanSrc zipFile)
  /\ (normalizePath imagePath = TrimPrefix (Clean imagePath) "/"
      /\ HasPrefix (normalizePath imagePath) "/" = false)
  /\ (files !! cleanSrc = None -> files !! normalizePath imagePath = None ->
      resolveAndEmbed src basePath files = ""
      /\ leavesAlone imgSrcRegex (imgSrcRepl basePath files) src
      /\ leavesAlone xlinkRegex (xlinkRepl basePath files) src
      /\ leavesAlone urlRegex (urlRepl basePath files) src).
Proof.
  intros cleanSrc imagePath Himg.
  assert (Hr : selfContained src = false ->
               resolveAndEmbed src basePath files =
               match files !! cleanSrc with
               | Some zipFile => payloadOf cleanSrc zipFile
               | None =>
                   match files !! normalizePath imagePath with
                   | Some zipFile => payloadOf cleanSrc zipFile
                   | None => ""
                   end
               end).
  { intros Hsrc. rewrite resolveAndEmbed_found by done.
    fold cleanSrc. fold imagePath. unfold findImage. rewrite Himg.
    destruct (files !! cleanSrc); [done|]. by destruct (files !! normalizePath imagePath). }
  split; [|split; [|split]].
  - intros Hsrc zipFile Hc. by rewrite Hr, Hc.
  - intros Hsrc zipFile Hc Hn. by rewrite Hr, Hc, Hn.
  - split; [reflexivity|apply normalizePath_relative].
  - intros Hc Hn.
    assert (Hnone : resolveAndEmbed src basePath files = "").
    { destruct (selfContained src) eqn:Hsrc.
      - by apply resolveAndEmbed_selfContained.
      - by rewrite Hr, Hc, Hn. }
    split; [done|]. by apply not_embedded_leavesAlone.
Qed.

Lemma isImageFile_getMimeType s :
  isImageFile s = true -> getMimeType s ∈ mediaTypes.
Proof.
  unfold isImageFile, getMimeType, extensions, mediaTypes. cbn [existsb].
  generalize (ToLower s). intros lower Himg.
  repeat (destruct (HasSuffix lower _); cbn [orb] in *;
          [repeat first [by apply list_elem_of_here | apply list_elem_of_further]|]).
  done.
Qed.

(** C7: for a reference that is not an external one, that finds (in one
    of the three lookups) an entry of the archive whose bytes [data] can be
    read, and whose cleaned text ends in one of the image extensions,
    [resolveAndEmbed] returns [data:<mediaType>;base64,<encoded>] where
    the media type is the image type of that extension and [encoded] is
    base64 text that decodes to exactly [data]. *)
Theorem resolveAndEmbed_roundtrip src basePath files zipFile data :
  selfContained src = false ->
  findImage files (resolveRelativePath basePath (cleanSrcOf src)) (cleanSrcOf src)
    = Some zipFile ->
  readBinaryContent zipFile = Some data ->
  isImageFile (cleanSrcOf src) = true ->
  exists mediaType encoded,
    resolveAndEmbed src basePath files = "data:" ++ mediaType ++ ";base64," ++ encoded
    /\ mediaType = getMimeType (cleanSrcOf src)
    /\ mediaType ∈ mediaTypes
    /\ GoBase64.Decode encoded = Some data.
Proof.
  intros Hsrc Hfound Hdata Himg.
  exists (getMimeType (cleanSrcOf src)), (GoBase64.EncodeToString data).
  pose proof (isImageFile_getMimeType _ Himg) as Hmime.
  rewrite resolveAndEmbed_found, Hfound by done. unfold payloadOf. rewrite Hdata.
  split; [|split; [done|split; [done|apply Decode_Encode]]].
  destruct (streq (getMimeType (cleanSrcOf src)) "") eqn:Hempty; [|done].
  apply streq_spec in Hempty. rewrite Hempty in Hmime.
  exfalso. unfold mediaTypes in Hmime.
  repeat (apply elem_of_cons in Hmime as [Hmime|Hmime]; [discriminate Hmime|]).
  by apply elem_of_nil in Hmime.
Qed.
End EmbedProofs.

(** ** [Parse] *)

Section ParseProofs.
Context {env : Externals}.

Lemma indexed_cons {A} i (a : A) l : indexed i (a :: l) = (i, a) :: indexed (i + 1) l.
Proof.
  unfold indexed. rewrite imap_cons. f_equal; [f_equal; lia|].
  apply imap_ext. intros j x _. simpl. f_equal. lia.
Qed.

Lemma extractChapters_step files basePath manifestMap i r rs chapters :
  extractChapters files basePath manifestMap i (r :: rs) chapters =
  extractChapters files basePath manifestMap (i + 1) rs
    (chapters ++ option_list (chapterAt files basePath manifestMap i r)).
Proof.
  cbn [extractChapters]. f_equal. unfold chapterAt.
  destruct (manifestMap !! SpineItemRef.IDRef r) as [item|]; simpl;
    [|by rewrite app_nil_r].
  destruct (negb _ && negb _); simpl; [by rewrite app_nil_r|].
  destruct (files !! _) as [f|]; simpl; [|by rewrite app_nil_r].
  destruct (readFileContent f); simpl; [done|by rewrite app_nil_r].
Qed.

Lemma extractChapters_omap files basePath manifestMap i itemRefs chapters :
  extractChapters files basePath manifestMap i itemRefs chapters =
  chapters ++ omap (fun '(j, r) => chapterAt files basePath manifestMap j r)
                   (indexed i itemRefs).
Proof.
  revert i chapters. induction itemRefs as [|r rs IH]; intros i chapters.
  - simpl. by rewrite app_nil_r.
  - rewrite extractChapters_step, IH, indexed_cons. cbn [omap list_omap].
    destruct (chapterAt files basePath manifestMap i r); simpl.
    + by rewrite <- app_assoc.
    + by rewrite app_nil_r.
Qed.

Lemma extractCSS_step files basePath item items css :
  extractCSS files basePath (item :: items) css =
  extractCSS files basePath items (css ++ option_list (styleAt files basePath item)).
Proof.
  cbn [extractCSS]. f_equal. unfold styleAt.
  destruct (streq _ _); simpl; [|by rewrite app_nil_r].
  destruct (files !! _) as [f|]; simpl; [|by rewrite app_nil_r].
  destruct (readFileContent f); simpl; [done|by rewrite app_nil_r].
Qed.

Lemma extractCSS_omap files basePath items css :
  extractCSS files basePath items css = css ++ omap (styleAt files basePath) items.
Proof.
  revert css. induction items as [|it items IH]; intros css.
  - simpl. by rewrite app_nil_r.
  - rewrite extractCSS_step, IH. cbn [omap list_omap].
    destruct (styleAt files basePath it); simpl.
    + by rewrite <- app_assoc.
    + by rewrite app_nil_r.
Qed.

Lemma chapterAt_Order files basePath manifestMap i r c :
  chapterAt files basePath manifestMap i r = Some c -> Chapter.Order c = i.
Proof.
  unfold chapterAt. intros Hc.
  destruct (manifestMap !! SpineItemRef.IDRef r) as [item|]; simpl in Hc; [|done].
  destruct (negb _ && negb _); [done|].
  destruct (files !! _) as [f|]; simpl in Hc; [|done].
  destruct (readFileContent f); simpl in Hc; [|done].
  by injection Hc as <-.
Qed.

(** *** [sort.Slice] on a slice that is already in order *)

Lemma foldl_insert_ascending {A} (less : A -> A -> bool) l last rprefix :
  ascending less (last :: l) ->
  foldl (fun rp a => GoSort.insert less a rp) (last :: rprefix) l
  = rev l ++ last :: rprefix.
Proof.
  revert last rprefix. induction l as [|x l IH]; intros last rprefix Hasc; [done|].
  destruct Hasc as [Hx Hasc]. cbn [foldl GoSort.insert]. rewrite Hx.
  rewrite IH by done. simpl. by rewrite <- app_assoc.
Qed.

Lemma Slice_ascending {A} (less : A -> A -> bool) l :
  ascending less l -> GoSort.Slice less l = l.
Proof.
  unfold GoSort.Slice. destruct l as [|a l]; [done|]. intros Hasc.
  cbn [foldl GoSort.insert]. rewrite foldl_insert_ascending by done.
  rewrite rev_app_distr, rev_involutive. done.
Qed.

Lemma indexed_chapters_sorted files basePath manifestMap i itemRefs :
  let chapters := omap (fun '(j, r) => chapterAt files basePath manifestMap j r)
                    (indexed i itemRefs) in
  ordersWithin i (i + Z.of_nat (length itemRefs)) chapters
  /\ StronglySorted (fun a b => Chapter.Order a < Chapter.Order b) chapters
  /\ (length chapters <= length itemRefs)%nat.
Proof.
  revert i. induction itemRefs as [|r rs IH]; intros i chapters.
  - repeat split; [constructor|constructor|done].
  - subst chapters. rewrite indexed_cons. cbn [omap list_omap length].
    destruct (IH (i + 1)) as (Hin & Hsorted & Hlen).
    assert (Hin' : ordersWithin i (i + Z.of_nat (S (length rs)))
              (omap (fun '(j, r) => chapterAt files basePath manifestMap j r)
                 (indexed (i + 1) rs))).
    { eapply Forall_impl; [exact Hin|]. simpl. intros c Hc. lia. }
    destruct (chapterAt files basePath manifestMap i r) as [c|] eqn:Hc.
    + apply chapterAt_Order in Hc. repeat split.
      * constructor; [lia|done].
      * constructor; [done|]. eapply Forall_impl; [exact Hin|]. simpl. intros; lia.
      * simpl. lia.
    + repeat split; [done|done|lia].
Qed.

Lemma StronglySorted_adjacent {A} (R : A -> A -> Prop) l i a b :
  StronglySorted R l -> l !! i = Some a -> l !! S i = Some b -> R a b.
Proof.
  intros Hs. revert i. induction Hs as [|x l Hs IH Hall]; intros i Ha Hb; [done|].
  destruct i as [|i]; simpl in *.
  - injection Ha as ->. rewrite Forall_forall in Hall. apply Hall.
    eapply list_elem_of_lookup_2. exact Hb.
  - eauto.
Qed.

Lemma StronglySorted_ascending chapters :
  StronglySorted (fun a b => Chapter.Order a < Chapter.Order b) chapters ->
  ascending orderLess chapters.
Proof.
  induction 1 as [|x l Hs IH Hall]; [done|].
  destruct l as [|y l]; [done|]. split; [|done].
  apply Forall_cons in Hall as [Hxy _]. unfold orderLess. lia.
Qed.

Lemma StronglySorted_Order_inj chapters a b :
  StronglySorted (fun a b => Chapter.Order a < Chapter.Order b) chapters ->
  a ∈ chapters -> b ∈ chapters -> Chapter.Order a = Chapter.Order b -> a = b.
Proof.
  induction 1 as [|x l Hs IH Hall]; intros Ha Hb Heq; [by apply elem_of_nil in Ha|].
  rewrite Forall_forall in Hall.
  apply elem_of_cons in Ha as [->|Ha]; apply elem_of_cons in Hb as [->|Hb]; auto.
  - specialize (Hall _ Hb). lia.
  - specialize (Hall _ Ha). lia.
Qed.

Lemma StronglySorted_weaken {A} (R R' : A -> A -> Prop) l :
  (forall a b, R a b -> R' a b) -> StronglySorted R l -> StronglySorted R' l.
Proof.
  intros HR. induction 1 as [|x l Hs IH Hall]; constructor; [done|].
  eapply Forall_impl; [exact Hall|]. auto.
Qed.

(** The result of sorting a list whose orders already increase does not
    depend on the sorting algorithm: a permutation of the list in which no
    element is less than an earlier one is the list itself. *)
Lemma sorted_permutation_unique (chapters sorted : list Chapter.t) :
  StronglySorted (fun a b => Chapter.Order a < Chapter.Order b) chapters ->
  sorted ≡ₚ chapters ->
  StronglySorted (fun a b => orderLess b a = false) sorted ->
  sorted = chapters.
Proof.
  intros Hchapters Hperm Hsorted.
  apply (StronglySorted_unique_strong (fun a b => Chapter.Order a <= Chapter.Order b));
    [| | |done].
  - intros a b Ha Hb Hab Hba. rewrite Hperm in Ha.
    apply (StronglySorted_Order_inj chapters); [done..|lia].
  - eapply StronglySorted_weaken; [|exact Hsorted].
    unfold orderLess. intros a b Hab. lia.
  - eapply StronglySorted_weaken; [|exact Hchapters]. intros a b. simpl. lia.
Qed.

Lemma Slice_permutation {A} (less : A -> A -> bool) (l : list A) :
  GoSort.Slice less l ≡ₚ l.
Proof.
  unfold GoSort.Slice.
  assert (Hins : forall x rp, GoSort.insert less x rp ≡ₚ x :: rp).
  { intros x rp. induction rp as [|y rp IH]; [done|]. simpl.
    destruct (less x y); [|done]. rewrite IH. apply Permutation_swap. }
  assert (Hfold : forall rp, foldl (fun rp a => GoSort.insert less a rp) rp l ≡ₚ rp ++ l).
  { induction l as [|x l IH]; intros rp; simpl; [by rewrite app_nil_r|].
    rewrite IH, Hins. apply Permutation_middle. }
  rewrite <- Permutation_rev. by rewrite Hfold.
Qed.

Lemma buildBook_Chapters files opfPath pkg :
  Book.Chapters (buildBook files opfPath pkg) =
  omap (fun '(j, r) =>
          chapterAt files (baseOf opfPath)
            (manifestLookup (Manifest.Items (Package.Manifest pkg))) j r)
       (indexed 0 (Spine.ItemRefs (Package.Spine pkg))).
Proof.
  unfold buildBook. cbn [Book.Chapters]. fold (baseOf opfPath).
  rewrite extractChapters_omap. cbn [app].
  apply (Slice_ascending orderLess). apply StronglySorted_ascending.
  apply indexed_chapters_sorted.
Qed.

Lemma buildBook_CSS files opfPath pkg :
  Book.CSS (buildBook files opfPath pkg) =
  omap (styleAt files (baseOf opfPath)) (Manifest.Items (Package.Manifest pkg)).
Proof.
  unfold buildBook. cbn [Book.CSS]. fold (baseOf opfPath).
  by rewrite extractCSS_omap.
Qed.

Lemma Parse_Ok epubPath book :
  Parse epubPath = Ok book ->
  exists files opfPath pkg,
    parsedPackage epubPath files opfPath pkg /\ book = buildBook files opfPath pkg.
Proof.
  unfold Parse. intros HP.
  destruct (zipOpenReader epubPath) as [rFile|] eqn:Hopen; [|done].
  destruct (fileIndex rFile !! "META-INF/container.xml") as [cf|] eqn:Hcf; [|done].
  destruct (parseContainer cf) as [container|] eqn:Hc; [|done].
  destruct (Container.RootFiles container) as [|rootFile rootFiles] eqn:Hroot; [done|].
  destruct (fileIndex rFile !! RootFile.FullPath rootFile) as [opf|] eqn:Hopf; [|done].
  destruct (parsePackage opf) as [pkg|] eqn:Hpkg; [|done].
  injection HP as <-.
  exists (fileIndex rFile), (RootFile.FullPath rootFile), pkg. split; [|done].
  exists rFile, cf, container, rootFile, rootFiles, opf. done.
Qed.

(** C1: when [Parse] returns a book, the book has at most as many chapters
    as the spine of the package document has entries, and the [Order] of
    each chapter is less than the [Order] of the next one. *)
Theorem Parse_chapters_bounded_increasing epubPath book :
  Parse epubPath = Ok book ->
  exists files opfPath pkg,
    parsedPackage epubPath files opfPath pkg
    /\ (length (Book.Chapters book) <= length (Spine.ItemRefs (Package.Spine pkg)))%nat
    /\ adjacentIncreasing (Book.Chapters book).
Proof.
  intros (files & opfPath & pkg & Hparsed & ->)%Parse_Ok.
  exists files, opfPath, pkg. split; [done|].
  rewrite buildBook_Chapters.
  pose proof (indexed_chapters_sorted files (baseOf opfPath)
    (manifestLookup (Manifest.Items (Package.Manifest pkg))) 0
    (Spine.ItemRefs (Package.Spine pkg))) as (_ & Hsorted & Hlen).
  split; [done|]. intros i a b Ha Hb.
  by apply (StronglySorted_adjacent _ _ _ _ _ Hsorted Ha Hb).
Qed.

Lemma indexed_chapters_lower files basePath manifestMap i itemRefs k c :
  omap (fun '(j, r) => chapterAt files basePath manifestMap j r) (indexed i itemRefs)
    !! k = Some c ->
  i + Z.of_nat k <= Chapter.Order c.
Proof.
  revert i k. induction itemRefs as [|r rs IH]; intros i k; [done|].
  rewrite indexed_cons. cbn [omap list_omap].
  destruct (chapterAt files basePath manifestMap i r) as [c0|] eqn:Hc0.
  - destruct k as [|k]; simpl.
    + intros [= ->]. apply chapterAt_Order in Hc0. lia.
    + intros Hk%IH. lia.
  - intros Hk%IH. lia.
Qed.

Lemma indexed_chapters_full files basePath manifestMap i itemRefs :
  let chapters := omap (fun '(j, r) => chapterAt files basePath manifestMap j r)
                    (indexed i itemRefs) in
  length chapters = length itemRefs ->
  forall k c, chapters !! k = Some c -> Chapter.Order c = i + Z.of_nat k.
Proof.
  revert i. induction itemRefs as [|r rs IH]; intros i chapters; [done|].
  subst chapters. rewrite indexed_cons. cbn [omap list_omap length].
  pose proof (indexed_chapters_sorted files basePath manifestMap (i + 1) rs)
    as (_ & _ & Hlen).
  destruct (chapterAt files basePath manifestMap i r) as [c0|] eqn:Hc0.
  - simpl. intros [= Hl] [|k] c; simpl.
    + intros [= ->]. apply chapterAt_Order in Hc0. lia.
    + intros Hk. rewrite (IH (i + 1) Hl k c Hk). lia.
  - intros Hl. cbv zeta in Hlen. lia.
Qed.

(** C2, as amended: when [Parse] returns a book, its chapters are the
    chapters of the spine entries that were not skipped, in spine order,
    and the [Order] of a chapter is the zero-based index of its entry in
    the spine.  So the chapter at position [k] has an [Order] of at least
    [k], and the orders are 0, 1, 2, ... when no entry was skipped.  The
    style sheets are those of the manifest items of type [text/css] that
    could be read, in manifest order. *)
Theorem Parse_output_ordering epubPath book :
  Parse epubPath = Ok book ->
  exists files opfPath pkg,
    let manifestMap := manifestLookup (Manifest.Items (Package.Manifest pkg)) in
    let spine := Spine.ItemRefs (Package.Spine pkg) in
    parsedPackage epubPath files opfPath pkg
    /\ Book.Chapters book =
         omap (fun '(j, r) => chapterAt files (baseOf opfPath) manifestMap j r)
              (indexed 0 spine)
    /\ (forall j r c, chapterAt files (baseOf opfPath) manifestMap j r = Some c ->
          Chapter.Order c = j)
    /\ (forall k c, Book.Chapters book !! k = Some c -> Z.of_nat k <= Chapter.Order c)
    /\ (length (Book.Chapters book) = length spine ->
          sequentialOrders (Book.Chapters book))
    /\ Book.CSS book =
         omap (styleAt files (baseOf opfPath)) (Manifest.Items (Package.Manifest pkg)).
Proof.
  intros (files & opfPath & pkg & Hparsed & ->)%Parse_Ok.
  exists files, opfPath, pkg. cbv zeta. rewrite buildBook_Chapters, buildBook_CSS.
  split; [done|]. split; [done|]. split; [apply chapterAt_Order|].
  split; [|split; [|done]].
  - intros k c Hk%indexed_chapters_lower. lia.
  - intros Hl k c Hk. by rewrite (indexed_chapters_full _ _ _ _ _ Hl k c Hk).
Qed.
End ParseProofs.

Lemma Parse_chapters_bounded_increasing_witness :
  exists book,
    Parse (env := Sample.externals) "book.epub" = Ok book
    /\ exists files opfPath pkg,
      parsedPackage (env := Sample.externals) "book.epub" files opfPath pkg
      /\ (length (Book.Chapters book) <= length (Spine.ItemRefs (Package.Spine pkg)))%nat
      /\ adjacentIncreasing (Book.Chapters book).
Proof.
  eexists. split; [vm_compute; reflexivity|].
  apply (Parse_chapters_bounded_increasing (env := Sample.externals) "book.epub").
  vm_compute. reflexivity.
Defined.

(** C2 as stated fails on the sample archive: the first chapter comes from
    the second spine entry and has order 1. *)
Lemma sequentialOrders_counterexample :
  exists book,
    Parse (env := Sample.externals) "book.epub" = Ok book
    /\ ~ sequentialOrders (Book.Chapters book).
Proof.
  eexists. split; [vm_compute; reflexivity|].
  intros Hseq. specialize (Hseq 0%nat _ eq_refl). vm_compute in Hseq. discriminate.
Qed.

Lemma Parse_output_ordering_witness :
  exists book,
    Parse (env := Sample.externals) "book.epub" = Ok book
    /\ exists files opfPath pkg,
      let manifestMap := manifestLookup (Manifest.Items (Package.Manifest pkg)) in
      let spine := Spine.ItemRefs (Package.Spine pkg) in
      parsedPackage (env := Sample.externals) "book.epub" files opfPath pkg
      /\ Book.Chapters book =
           omap (fun '(j, r) => chapterAt (env := Sample.externals) files (baseOf opfPath) manifestMap j r)
                (indexed 0 spine)
      /\ (forall j r c, chapterAt (env := Sample.externals) files (baseOf opfPath) manifestMap j r = Some c ->
            Chapter.Order c = j)
      /\ (forall k c, Book.Chapters book !! k = Some c -> Z.of_nat k <= Chapter.Order c)
      /\ (length (Book.Chapters book) = length spine ->
            sequentialOrders (Book.Chapters book))
      /\ Book.CSS book =
           omap (styleAt (env := Sample.externals) files (baseOf opfPath)) (Manifest.Items (Package.Manifest pkg)).
Proof.
  eexists. split; [vm_compute; reflexivity|].
  apply (Parse_output_ordering (env := Sample.externals) "book.epub").
  vm_compute. reflexivity.
Defined.

(** ** The code run on particular inputs *)

Section Evaluations.
Context {env : Externals}.

(** C5, on a reference with a plus sign: [url.QueryUnescape] turns the
    plus sign into a space, so the cleaned reference is not the name of the
    entry any more and the image that is in the archive is not embedded,
    where the same name written with [%2B] is.  Percent-escapes are
    decoded, and a text that cannot be decoded is kept as it is, the
    fragment cut off. *)
Theorem plus_sign_is_decoded_to_space :
  cleanSrcOf "../img/c+d.png" = "../img/c d.png"
  /\ cleanSrcOf "a%20b.png#top" = "a b.png"
  /\ cleanSrcOf "50%.png#top" = "50%.png"
  /\ Sample.files !! "OEBPS/img/c+d.png" = Some (ZipFile.mk "OEBPS/img/c+d.png" (Some "PNG-bytes"))
  /\ resolveAndEmbed "../img/c+d.png" "OEBPS/text" Sample.files = ""
  /\ resolveAndEmbed "../img/c%2Bd.png" "OEBPS/text" Sample.files
     = "data:image/png;base64,UE5HLWJ5dGVz".
Proof. repeat split; vm_compute; reflexivity. Qed.

(** C10, on chapters whose last [</body>] stands before the end of the
    first [<body] tag: the slice expression [html[bodyStart:bodyEnd]] has
    its bounds in the wrong order, [extractBodyContent] panics and [ToHTML]
    with it. *)
Theorem extractBodyContent_panics :
  extractBodyContent "</body><body>" = None
  /\ extractBodyContent "<html><!-- </body> --><body><p>text</p>" = None
  /\ ToHTML (Book.mk "T" "A" [Chapter.mk "ch1" "</body><body>" 0] [] "") = None.
Proof. repeat split; vm_compute; reflexivity. Qed.
End Evaluations.

Lemma embedImages_no_references_witness :
  MatchString imgSrcRegex "<p>Two</p>" = false
  /\ embedImages (env := Sample.externals) "<p>Two</p>" "OEBPS/text" Sample.files = "<p>Two</p>".
Proof.
  split; [reflexivity|].
  apply (embedImages_no_references (env := Sample.externals)); reflexivity.
Defined.

Lemma selfContained_reference_untouched_witness :
  resolveAndEmbed (env := Sample.externals) "data:image/png;base64,AAAA" "OEBPS/text" Sample.files = ""
  /\ embedImages (env := Sample.externals)
       "<img src='data:image/png;base64,AAAA'/><image xlink:href='https://example.org/a.png'/>"
       "OEBPS/text" Sample.files
     = "<img src='data:image/png;base64,AAAA'/><image xlink:href='https://example.org/a.png'/>".
Proof.
  destruct (selfContained_reference_untouched (env := Sample.externals)
              "data:image/png;base64,AAAA" "OEBPS/text" Sample.files eq_refl)
    as (Hinline & _ & _ & _ & Hcontent).
  split; [exact Hinline|]. apply Hcontent; vm_compute; reflexivity.
Defined.

Lemma missing_reference_fallbacks_witness :
  resolveAndEmbed (env := Sample.externals) "OEBPS/img/cover.png" "OEBPS/text" Sample.files
  = "data:image/png;base64,UE5HLWJ5dGVz"
  /\ resolveAndEmbed (env := Sample.externals) "gone.png" "OEBPS/text" Sample.files = "".
Proof.
  split.
  - destruct (missing_reference_fallbacks (env := Sample.externals)
                "OEBPS/img/cover.png" "OEBPS/text" Sample.files)
      as (Hsecond & _); [vm_compute; reflexivity|].
    rewrite (Hsecond eq_refl (ZipFile.mk "OEBPS/img/cover.png" (Some "PNG-bytes")));
      vm_compute; reflexivity.
  - destruct (missing_reference_fallbacks (env := Sample.externals)
                "gone.png" "OEBPS/text" Sample.files)
      as (_ & _ & _ & Hnone); [vm_compute; reflexivity|].
    apply Hnone; vm_compute; reflexivity.
Defined.

Lemma resolveAndEmbed_roundtrip_witness :
  exists mediaType encoded,
    resolveAndEmbed (env := Sample.externals) "../img/cover.png#top" "OEBPS/text" Sample.files
      = "data:" ++ mediaType ++ ";base64," ++ encoded
    /\ mediaType = getMimeType (env := Sample.externals) (cleanSrcOf "../img/cover.png#top")
    /\ mediaType ∈ mediaTypes
    /\ GoBase64.Decode encoded = Some "PNG-bytes".
Proof.
  apply (resolveAndEmbed_roundtrip (env := Sample.externals) "../img/cover.png#top"
           "OEBPS/text" Sample.files (ZipFile.mk "OEBPS/img/cover.png" (Some "PNG-bytes")));
    vm_compute; reflexivity.
Defined.

(** * Further properties *)

Import GoFilepath Cmd.

(** ** More on strings *)

Lemma HasSuffix_spec (s suffix : gostring) :
  HasSuffix s suffix = true <-> exists t, s = t ++ suffix.
Proof.
  unfold HasSuffix. split.
  - intros [Hlen Heq]%andb_prop. apply Nat.leb_le in Hlen. apply streq_spec in Heq.
    exists (take (length s - length suffix) s).
    rewrite <- (take_drop (length s - length suffix) s) at 1. by rewrite Heq.
  - intros [t ->]. rewrite length_app. apply andb_true_intro. split.
    + apply Nat.leb_le. lia.
    + apply streq_spec. replace (length t + length suffix - length suffix)%nat
        with (length t) by lia. by rewrite drop_app_length.
Qed.

Lemma ToLower_ascii {env : Externals} (s : gostring) :
  forallb isASCII s = true -> ToLower s = map lowerByte s.
Proof. unfold ToLower. by intros ->. Qed.

Lemma lowerByte_cases (c : ascii) :
  lowerByte c = c \/ (isUpperASCII c = true /\ isLowerASCII (lowerByte c) = true
                      /\ nat_of_ascii (lowerByte c) = (nat_of_ascii c + 32)%nat).
Proof.
  unfold lowerByte. destruct (isUpperASCII c) eqn:Hu; [right|by left].
  split; [done|]. unfold isUpperASCII in Hu. apply andb_prop in Hu as [H1 H2].
  apply Nat.leb_le in H1, H2. unfold isLowerASCII.
  rewrite nat_ascii_embedding by lia. split; [|done].
  apply andb_true_intro. split; apply Nat.leb_le; lia.
Qed.

Lemma lowerByte_inv (c x : ascii) :
  lowerByte c = x -> c = x \/ (isLowerASCII x = true /\ c = ascii_of_nat (nat_of_ascii x - 32)).
Proof.
  intros <-. destruct (lowerByte_cases c) as [->|(Hu & Hl & Hn)]; [by left|right].
  split; [done|]. rewrite Hn. replace (nat_of_ascii c + 32 - 32)%nat with (nat_of_ascii c) by lia.
  by rewrite ascii_nat_embedding.
Qed.

(** ** Package [cmd] *)

Lemma truncate_result (s : gostring) (maxLen : Z) :
  truncate s maxLen =
  if len s <=? maxLen then Some (s ++ replicate (Z.to_nat (maxLen - len s)) " "%char)
  else if maxLen <? 3 then None
  else Some (take (Z.to_nat (maxLen - 3)) s ++ "...").
Proof.
  unfold truncate, Repeat, slice, len.
  destruct (Z.of_nat (length s) <=? maxLen) eqn:Hfit.
  - apply Z.leb_le in Hfit.
    destruct (maxLen - Z.of_nat (length s) <? 0) eqn:Hneg; [apply Z.ltb_lt in Hneg; lia|].
    simpl. do 2 f_equal. induction (Z.to_nat _) as [|n IH]; [done|]. simpl. by rewrite IH.
  - apply Z.leb_gt in Hfit. destruct (maxLen <? 3) eqn:H3.
    + apply Z.ltb_lt in H3.
      destruct (0 <=? maxLen - 3) eqn:H; [apply Z.leb_le in H; lia|]. done.
    + apply Z.ltb_ge in H3.
      destruct (0 <=? maxLen - 3) eqn:H; [|apply Z.leb_gt in H; lia].
      destruct (maxLen - 3 <=? Z.of_nat (length s)) eqn:H'; [|apply Z.leb_gt in H'; lia].
      simpl. by rewrite Z.sub_0_r.
Qed.

(** X24: [truncate] panics exactly when [s] is longer than [maxLen] and
    [maxLen] is less than 3 (the slice bound [maxLen - 3] is negative). *)
Theorem truncate_panics_iff (s : gostring) (maxLen : Z) :
  truncate s maxLen = None <-> maxLen < len s /\ maxLen < 3.
Proof.
  rewrite truncate_result.
  destruct (len s <=? maxLen) eqn:Hfit; [apply Z.leb_le in Hfit|apply Z.leb_gt in Hfit].
  - split; [done|lia].
  - destruct (maxLen <? 3) eqn:H3; [apply Z.ltb_lt in H3|apply Z.ltb_ge in H3].
    + done.
    + split; [done|lia].
Qed.

(** X23: when [truncate] returns, the result is exactly [maxLen] bytes long:
    [s] followed by blanks when [s] fits, and else the first [maxLen - 3]
    bytes of [s] followed by three dots. *)
Theorem truncate_width (s : gostring) (maxLen : Z) (r : gostring) :
  truncate s maxLen = Some r ->
  len r = maxLen
  /\ (len s <= maxLen -> exists padding, r = s ++ padding /\ Forall (eq " "%char) padding)
  /\ (maxLen < len s -> r = take (Z.to_nat (maxLen - 3)) s ++ "...").
Proof.
  rewrite truncate_result. unfold len.
  destruct (Z.of_nat (length s) <=? maxLen) eqn:Hfit;
    [apply Z.leb_le in Hfit|apply Z.leb_gt in Hfit].
  - intros [= <-]. rewrite length_app, length_replicate. split; [lia|]. split; [|lia].
    intros _. eexists. split; [done|]. apply Forall_replicate. done.
  - destruct (maxLen <? 3) eqn:H3; [done|]. apply Z.ltb_ge in H3. intros [= <-].
    rewrite length_app, length_take. simpl. split; [lia|]. split; [lia|done].
Qed.

Lemma truncate_width_witness :
  truncate "A very long chapter title" 10 = Some "A very ..."
  /\ len "A very ..." = 10.
Proof.
  split; [reflexivity|].
  apply (truncate_width "A very long chapter title" 10 "A very ..."). reflexivity.
Defined.

Lemma TrimSuffix_app (s suffix : gostring) : TrimSuffix (s ++ suffix) suffix = s.
Proof.
  unfold TrimSuffix.
  replace (HasSuffix (s ++ suffix) suffix) with true
    by (symmetry; apply HasSuffix_spec; by exists s).
  rewrite length_app, Nat.add_sub. by rewrite take_app_length.
Qed.

(** The bytes that lower-case to a byte of [.epub]. *)
Lemma epub_suffix_inv (tail : gostring) :
  map lowerByte tail = ".epub" ->
  exists e p u b, tail = ["."%char; e; p; u; b]
    /\ Forall (fun c => isSlash c = false /\ Ascii.eqb c "\" = false
                        /\ Ascii.eqb c "." = false) [e; p; u; b].
Proof.
  destruct tail as [|c0 [|c1 [|c2 [|c3 [|c4 [|]]]]]]; try discriminate.
  intros [= H0 H1 H2 H3 H4]. exists c1, c2, c3, c4.
  apply lowerByte_inv in H0 as [->|[L0 ->]]; [|discriminate L0].
  apply lowerByte_inv in H1 as [->|[_ ->]], H2 as [->|[_ ->]],
    H3 as [->|[_ ->]], H4 as [->|[_ ->]];
    (split; [reflexivity|repeat constructor]).
Qed.

Lemma Ext_epub (goos : GOOS) (stem : gostring) (e p u b : ascii) :
  Forall (fun c => isSlash c = false /\ Ascii.eqb c "\" = false
                   /\ Ascii.eqb c "." = false) [e; p; u; b] ->
  Ext goos (stem ++ ["."%char; e; p; u; b]) = ["."%char; e; p; u; b].
Proof.
  rewrite !Forall_cons.
  intros ((? & ? & ?) & (? & ? & ?) & (? & ? & ?) & (? & ? & ?) & _).
  unfold Ext. rewrite rev_app_distr. unfold isSlash in *.
  destruct goos; simpl; repeat match goal with Hc : _ = false |- _ => rewrite Hc; clear Hc end;
    done.
Qed.

(** X25: without an output flag, an ASCII input path that passes the test
    of its [.epub] suffix (in whatever case) gets as output path the input
    path with its last five bytes replaced by [.pdf], on every operating
    system. *)
Theorem outputFor_default {env : Externals} (goos : GOOS) (inputPath : gostring) :
  forallb isASCII inputPath = true ->
  isEpubPath inputPath = true ->
  outputFor goos "" inputPath = take (length inputPath - 5) inputPath ++ ".pdf".
Proof.
  intros Hascii Hepub. unfold isEpubPath in Hepub. rewrite ToLower_ascii in Hepub by done.
  apply HasSuffix_spec in Hepub as [t Ht].
  assert (Hlen : (length inputPath = length t + 5)%nat).
  { rewrite <- (length_map lowerByte), Ht, length_app. done. }
  rewrite <- (take_drop (length t) inputPath) in Ht. rewrite map_app in Ht.
  apply app_inj_1 in Ht as [_ Ht]; [|by rewrite length_map, length_take; lia].
  apply epub_suffix_inv in Ht as (e & p & u & b & Htail & Hplain).
  replace (length inputPath - 5)%nat with (length t) by lia.
  unfold outputFor. cbn [streq]. f_equal.
  rewrite <- (take_drop (length t) inputPath) at 1 2. rewrite Htail.
  rewrite Ext_epub by done. apply TrimSuffix_app.
Qed.

Lemma outputFor_default_witness :
  outputFor linux "" "My.Book.EPUB" = "My.Book.pdf".
Proof.
  apply (outputFor_default (env := Sample.externals) linux "My.Book.EPUB"); reflexivity.
Defined.

(** *** The chapter list of [runInfo] *)

Lemma truncate_wide (s : gostring) (maxLen : Z) :
  3 <= maxLen -> exists t, truncate s maxLen = Some t /\ len t = maxLen.
Proof.
  intros Hw. rewrite truncate_result. unfold len.
  destruct (Z.of_nat (length s) <=? maxLen) eqn:Hfit;
    [apply Z.leb_le in Hfit|apply Z.leb_gt in Hfit].
  - eexists. split; [done|]. rewrite length_app, length_replicate. lia.
  - replace (maxLen <? 3) with false by (symmetry; apply Z.ltb_ge; lia).
    eexists. split; [done|]. rewrite length_app, length_take. simpl. lia.
Qed.

Lemma chapterRows_spec (total i : Z) (chapters : list Chapter.t) :
  0 <= i <= 20 ->
  exists titles,
    Forall2 (fun chapter title =>
               truncate (Chapter.Title chapter) 54 = Some title /\ len title = 54)
      (take (Z.to_nat (20 - i)) chapters) titles
    /\ chapterRows total i chapters
       = Some (imap (fun k title => ChapterRow (i + Z.of_nat k + 1) title) titles
                 ++ if 20 - i <? len' chapters then [MoreRow (total - 20)] else []).
Proof.
  unfold len'. revert i. induction chapters as [|c chapters IH]; intros i Hi.
  - exists []. rewrite take_nil. split; [constructor|]. cbn [chapterRows imap app length].
    by replace (20 - i <? Z.of_nat 0) with false by (symmetry; apply Z.ltb_ge; lia).
  - cbn [chapterRows]. destruct (20 <=? i) eqn:H20;
      [apply Z.leb_le in H20|apply Z.leb_gt in H20].
    + exists []. replace (20 - i) with 0 by lia. cbn [Z.to_nat take]. split; [constructor|].
      cbn [imap app]. done.
    + destruct (truncate_wide (Chapter.Title c) 54 ltac:(lia)) as (t & Ht & Hlen).
      destruct (IH (i + 1) ltac:(lia)) as (titles & Htitles & Hrows).
      exists (t :: titles). split.
      * replace (Z.to_nat (20 - i)) with (S (Z.to_nat (20 - (i + 1)))) by lia.
        cbn [take]. by constructor.
      * rewrite Ht, Hrows. cbn [mbind option_bind imap app]. do 2 f_equal.
        { f_equal. lia. }
        f_equal.
        { apply imap_ext. intros k x _. cbn. f_equal. lia. }
        cbn [length]. replace (20 - (i + 1) <? Z.of_nat (length chapters))
          with (20 - i <? Z.of_nat (S (length chapters))); [done|].
        destruct (20 - i <? Z.of_nat (S (length chapters))) eqn:E;
          [apply Z.ltb_lt in E; symmetry; apply Z.ltb_lt; lia
          |apply Z.ltb_ge in E; symmetry; apply Z.ltb_ge; lia].
Qed.

(** X26: the chapter list of [runInfo] never panics: it prints a row for
    each of the first twenty chapters, in order and numbered from 1, with
    the title cut or padded to exactly 54 bytes, and after them one row
    with the number of chapters beyond twenty exactly when there are more
    than twenty. *)
Theorem chapterList_rows (book : Book.t) :
  let chapters := Book.Chapters book in
  exists titles,
    Forall2 (fun chapter title =>
               truncate (Chapter.Title chapter) 54 = Some title /\ len title = 54)
      (take 20 chapters) titles
    /\ chapterList book
       = Some (imap (fun k title => ChapterRow (Z.of_nat k + 1) title) titles
                 ++ if 20 <? len' chapters then [MoreRow (len' chapters - 20)] else []).
Proof.
  cbv zeta. unfold chapterList.
  destruct (chapterRows_spec (len' (Book.Chapters book)) 0 (Book.Chapters book))
    as (titles & Htitles & Hrows); [lia|].
  exists titles. split; [exact Htitles|]. rewrite Hrows. done.
Qed.

(** ** More on [escapeHTML] *)

Lemma escapeHTML_flat_map (s : gostring) : escapeHTML s = flat_map escapeByte s.
Proof.
  unfold escapeHTML. rewrite !ReplaceAll_byte. rewrite !flat_map_flat_map.
  apply flat_map_ext. intros c. rewrite <- !flat_map_flat_map. apply escape_one.
Qed.

Lemma mentions_app (x : ascii) (s t : gostring) :
  mentions x (s ++ t) = mentions x s || mentions x t.
Proof. apply existsb_app. Qed.

Lemma escapeByte_no_markup (c : ascii) :
  mentions "<" (escapeByte c) = false /\ mentions ">" (escapeByte c) = false
  /\ mentions dquote (escapeByte c) = false.
Proof. destruct c as [[] [] [] [] [] [] [] []]; by vm_compute. Qed.

(** X21: the text that [escapeHTML] returns holds no [<], no [>] and no
    double quote. *)
Theorem escapeHTML_no_markup (s : gostring) :
  mentions "<" (escapeHTML s) = false
  /\ mentions ">" (escapeHTML s) = false
  /\ mentions dquote (escapeHTML s) = false.
Proof.
  rewrite escapeHTML_flat_map. induction s as [|c s (IH1 & IH2 & IH3)]; [done|].
  cbn [flat_map]. rewrite !mentions_app, IH1, IH2, IH3.
  destruct (escapeByte_no_markup c) as (-> & -> & ->). done.
Qed.

Lemma escapeByte_decode (c d : ascii) (s t : gostring) :
  escapeByte c ++ s = escapeByte d ++ t -> c = d /\ s = t.
Proof.
  destruct (decide (c = d)) as [->|Hne].
  - intros H%app_inv_head. done.
  - unfold escapeByte.
    destruct (Ascii.eqb c "&") eqn:Hc1; [apply Ascii.eqb_eq in Hc1; subst c|];
    [|destruct (Ascii.eqb c "<") eqn:Hc2; [apply Ascii.eqb_eq in Hc2; subst c|];
      [|destruct (Ascii.eqb c ">") eqn:Hc3; [apply Ascii.eqb_eq in Hc3; subst c|];
        [|destruct (Ascii.eqb c dquote) eqn:Hc4; [apply Ascii.eqb_eq in Hc4; subst c|]]]];
    (destruct (Ascii.eqb d "&") eqn:Hd1; [apply Ascii.eqb_eq in Hd1; subst d|];
    [|destruct (Ascii.eqb d "<") eqn:Hd2; [apply Ascii.eqb_eq in Hd2; subst d|];
      [|destruct (Ascii.eqb d ">") eqn:Hd3; [apply Ascii.eqb_eq in Hd3; subst d|];
        [|destruct (Ascii.eqb d dquote) eqn:Hd4; [apply Ascii.eqb_eq in Hd4; subst d|]]]]);
    try done; intros [= ]; subst; try done;
    repeat match goal with H : Ascii.eqb _ _ = false |- _ =>
      apply Ascii.eqb_neq in H end; congruence.
Qed.

Lemma escapeByte_nonempty (c : ascii) : escapeByte c <> [].
Proof. destruct c as [[] [] [] [] [] [] [] []]; by vm_compute. Qed.

(** X22: [escapeHTML] loses nothing: two texts with the same escaped form
    are the same text. *)
Theorem escapeHTML_injective (s t : gostring) :
  escapeHTML s = escapeHTML t -> s = t.
Proof.
  rewrite !escapeHTML_flat_map. revert t.
  induction s as [|c s IH]; intros [|d t]; cbn [flat_map]; intros H.
  - done.
  - symmetry in H. apply app_eq_nil in H as [H _]. by apply escapeByte_nonempty in H.
  - apply app_eq_nil in H as [H _]. by apply escapeByte_nonempty in H.
  - apply escapeByte_decode in H as [-> H]. f_equal. by apply IH.
Qed.

Lemma escapeHTML_injective_witness :
  ("a<b" : gostring) = "a<b".
Proof. apply (escapeHTML_injective "a<b" "a<b"). reflexivity. Defined.

(** ** More on [resolveAndEmbed] and the image types *)

Section ClassifyProofs.
Context {env : Externals}.

Lemma getMimeType_isImageFile (s : gostring) :
  getMimeType s <> "" -> isImageFile s = true.
Proof.
  unfold isImageFile, getMimeType, extensions. cbn [existsb].
  generalize (ToLower s). intros lower.
  repeat (destruct (HasSuffix lower _); cbn [orb]; [done|]). done.
Qed.

(** X14: [isImageFile] and [getMimeType] agree: a name is an image file
    exactly when it has a media type. *)
Theorem isImageFile_iff_getMimeType (s : gostring) :
  isImageFile s = true <-> getMimeType s <> "".
Proof.
  unfold isImageFile, getMimeType, extensions. cbn [existsb].
  generalize (ToLower s). intros lower.
  repeat (destruct (HasSuffix lower _); cbn [orb]; [split; [intros _; discriminate|done]|]).
  split; [discriminate|done].
Qed.

Lemma getMimeType_empty : getMimeType "" = "".
Proof. reflexivity. Qed.

Lemma payloadOf_shape cleanSrc zipFile :
  payloadOf cleanSrc zipFile = ""
  \/ HasPrefix (payloadOf cleanSrc zipFile) "data:image/" = true.
Proof.
  unfold payloadOf. destruct (readBinaryContent zipFile) as [data|]; [|by left].
  destruct (streq (getMimeType cleanSrc) "") eqn:Hm; [by left|right].
  apply streq_false in Hm. revert Hm. unfold getMimeType.
  generalize (ToLower cleanSrc). intros lower.
  destruct (HasSuffix lower ".jpg" || HasSuffix lower ".jpeg"); [reflexivity|].
  repeat (destruct (HasSuffix lower _); [reflexivity|]). done.
Qed.

Lemma resolveAndEmbed_shape src basePath files :
  resolveAndEmbed src basePath files = ""
  \/ HasPrefix (resolveAndEmbed src basePath files) "data:image/" = true.
Proof.
  destruct (selfContained src) eqn:Hs.
  - left. by apply resolveAndEmbed_selfContained.
  - rewrite resolveAndEmbed_found by done.
    destruct (findImage _ _ _); [apply payloadOf_shape|by left].
Qed.

Lemma resolveAndEmbed_empty basePath files : resolveAndEmbed "" basePath files = "".
Proof.
  rewrite resolveAndEmbed_found by done. change (cleanSrcOf "") with ("" : gostring).
  destruct (findImage _ _ _) as [zipFile|]; [|done].
  unfold payloadOf. by destruct (readBinaryContent zipFile).
Qed.

(** X11: what [resolveAndEmbed] returns is empty or starts with
    [data:image/], and given back to [resolveAndEmbed] as a reference it is
    never embedded again. *)
Theorem resolveAndEmbed_output_is_final src basePath files basePath' files' :
  let uri := resolveAndEmbed src basePath files in
  (uri = "" \/ HasPrefix uri "data:image/" = true)
  /\ resolveAndEmbed uri basePath' files' = "".
Proof.
  cbv zeta. split; [apply resolveAndEmbed_shape|].
  destruct (resolveAndEmbed_shape src basePath files) as [->|Hp].
  - apply resolveAndEmbed_empty.
  - apply resolveAndEmbed_selfContained. unfold selfContained.
    apply HasPrefix_spec in Hp as [t ->]. reflexivity.
Qed.

(** X12: a data URI that [resolveAndEmbed] returns is made of the bytes of
    an entry of the archive: the reference is not an external one, its
    cleaned text has an image extension, and the entry stored under the
    resolved path, the cleaned reference or the normalized path is readable
    and its bytes are what the base64 text decodes to. *)
Theorem resolveAndEmbed_provenance src basePath files :
  resolveAndEmbed src basePath files <> "" ->
  let cleanSrc := cleanSrcOf src in
  let imagePath := resolveRelativePath basePath cleanSrc in
  exists name zipFile data,
    selfContained src = false
    /\ name ∈ [imagePath; cleanSrc; normalizePath imagePath]
    /\ files !! name = Some zipFile
    /\ readBinaryContent zipFile = Some data
    /\ isImageFile cleanSrc = true
    /\ resolveAndEmbed src basePath files
       = "data:" ++ getMimeType cleanSrc ++ ";base64," ++ GoBase64.EncodeToString data
    /\ GoBase64.Decode (GoBase64.EncodeToString data) = Some data.
Proof.
  intros Hne cleanSrc imagePath.
  destruct (selfContained src) eqn:Hs.
  { by rewrite resolveAndEmbed_selfContained in Hne. }
  rewrite resolveAndEmbed_found in Hne |- * by done.
  fold cleanSrc imagePath in Hne |- *.
  destruct (findImage files imagePath cleanSrc) as [zipFile|] eqn:Hfind; [|done].
  unfold payloadOf in Hne |- *.
  destruct (readBinaryContent zipFile) as [data|] eqn:Hdata; [|done].
  destruct (streq (getMimeType cleanSrc) "") eqn:Hm; [done|]. apply streq_false in Hm.
  assert (Hname : exists name, name ∈ [imagePath; cleanSrc; normalizePath imagePath]
                               /\ files !! name = Some zipFile).
  { unfold findImage in Hfind.
    destruct (files !! imagePath) eqn:H1.
    { exists imagePath. split; [apply list_elem_of_here|congruence]. }
    destruct (files !! cleanSrc) eqn:H2.
    { exists cleanSrc. split; [apply list_elem_of_further, list_elem_of_here|congruence]. }
    exists (normalizePath imagePath).
    split; [do 2 apply list_elem_of_further; apply list_elem_of_here|done]. }
  destruct Hname as (name & Hin & Hlook).
  exists name, zipFile, data. repeat split; try done.
  - by apply getMimeType_isImageFile.
  - apply Decode_Encode.
Qed.

End ClassifyProofs.

Lemma resolveAndEmbed_provenance_witness :
  exists name zipFile data,
    name ∈ [ ("OEBPS/img/cover.png" : gostring); "../img/cover.png"; "OEBPS/img/cover.png" ]
    /\ Sample.files !! name = Some zipFile
    /\ ZipFile.Data zipFile = Some data.
Proof.
  destruct (resolveAndEmbed_provenance (env := Sample.externals) "../img/cover.png#top"
              "OEBPS/text" Sample.files) as (name & zipFile & data & H);
    [vm_compute; discriminate|].
  exists name, zipFile, data. destruct H as (_ & Hin & Hlook & Hdata & _).
  repeat split; [exact Hin|exact Hlook|exact Hdata].
Defined.

(** *** The clean-up of a reference *)

Lemma indexFrom_absent (x : ascii) (i : Z) (s : gostring) :
  mentions x s = false -> indexFrom i s [x] = -1.
Proof.
  revert i. induction s as [|c s IH]; intros i; [done|].
  cbn [mentions existsb indexFrom HasPrefix]. intros [Hc Hs]%orb_false_elim.
  rewrite Ascii.eqb_sym, Hc. simpl. by apply IH.
Qed.

Lemma indexFrom_first (x : ascii) (i : Z) (s t : gostring) :
  mentions x s = false -> indexFrom i (s ++ x :: t) [x] = i + len s.
Proof.
  revert i. induction s as [|c s IH]; intros i.
  - intros _. cbn [app indexFrom HasPrefix]. rewrite Ascii.eqb_refl. unfold len. simpl. lia.
  - cbn [mentions existsb app indexFrom HasPrefix]. intros [Hc Hs]%orb_false_elim.
    rewrite Ascii.eqb_sym, Hc. simpl. rewrite IH by done. unfold len. simpl length. lia.
Qed.

Lemma QueryUnescape_plain (s : gostring) :
  mentions "%" s = false -> mentions "+" s = false ->
  GoURL.QueryUnescape s = Some s.
Proof.
  unfold GoURL.QueryUnescape. intros Hp Hq.
  assert (GoURL.wellFormed s = true /\ GoURL.decode s = s) as [-> ->]; [|done].
  induction s as [|c s IH]; [done|].
  cbn [mentions existsb] in Hp, Hq.
  apply orb_false_elim in Hp as [Hp1 Hp2]. apply orb_false_elim in Hq as [Hq1 Hq2].
  destruct (IH Hp2 Hq2) as [IH1 IH2].
  cbn [GoURL.wellFormed GoURL.decode].
  rewrite (Ascii.eqb_sym c "%"), Hp1, (Ascii.eqb_sym c "+"), Hq1. by rewrite IH2.
Qed.

(** X13: a reference without [#], [%] and [+] is looked up as it is, and
    with a fragment [#...] appended it is looked up without the fragment. *)
Theorem cleanSrcOf_plain_reference (ref fragment : gostring) :
  mentions "#" ref = false -> mentions "%" ref = false -> mentions "+" ref = false ->
  cleanSrcOf ref = ref /\ cleanSrcOf (ref ++ "#" ++ fragment) = ref.
Proof.
  intros Hh Hp Hq. unfold cleanSrcOf, Index. split.
  - rewrite indexFrom_absent by done. cbn [Z.eqb negb]. by rewrite QueryUnescape_plain.
  - cbn [app]. rewrite indexFrom_first by done.
    replace (0 + len ref =? -1) with false by (symmetry; apply Z.eqb_neq; unfold len; lia).
    cbn [negb]. unfold len. rewrite Z.add_0_l, Nat2Z.id, take_app_length.
    by rewrite QueryUnescape_plain.
Qed.

Lemma cleanSrcOf_plain_reference_witness :
  cleanSrcOf "img/cover.png" = "img/cover.png"
  /\ cleanSrcOf ("img/cover.png" ++ "#" ++ "a+b%") = "img/cover.png".
Proof. apply (cleanSrcOf_plain_reference "img/cover.png" "a+b%"); reflexivity. Defined.

(** ** [strings.Index] and [strings.LastIndex] *)

Lemma HasPrefix_length (s p : gostring) : HasPrefix s p = true -> (length p <= length s)%nat.
Proof. intros [t ->]%HasPrefix_spec. rewrite length_app. lia. Qed.

Lemma HasPrefix_app_long (x y p : gostring) :
  (length p <= length x)%nat -> HasPrefix (x ++ y) p = HasPrefix x p.
Proof.
  revert x. induction p as [|c p IH]; intros [|d x] Hlen; simpl in *; try done; [lia|].
  rewrite IH by lia. done.
Qed.

Lemma indexFrom_bounds (i : Z) (s sub : gostring) :
  indexFrom i s sub <> -1 -> 0 <= i ->
  i <= indexFrom i s sub /\ indexFrom i s sub + len sub <= i + len s.
Proof.
  unfold len. revert i. induction s as [|c s IH]; intros i; cbn [indexFrom].
  - destruct (HasPrefix [] sub) eqn:Hp; [|done]. apply HasPrefix_length in Hp.
    intros _ Hi. lia.
  - destruct (HasPrefix (c :: s) sub) eqn:Hp.
    + apply HasPrefix_length in Hp. intros _ Hi. lia.
    + intros Hne Hi. destruct (IH (i + 1) Hne) as [H1 H2]; [lia|]. simpl length. lia.
Qed.


Lemma indexFrom_none_prefix (i : Z) (s sub : gostring) :
  0 <= i -> indexFrom i s sub = -1 ->
  HasPrefix s sub = false
  /\ match s with [] => True | _ :: s' => indexFrom (i + 1) s' sub = -1 end.
Proof.
  intros Hi. destruct s as [|c s]; cbn [indexFrom].
  - destruct (HasPrefix [] sub); [lia|done].
  - destruct (HasPrefix (c :: s) sub); [lia|done].
Qed.

(** The first instance: when [sub] does not occur in [a] followed by all
    but the last byte of [sub], the first instance of [sub] in
    [a ++ sub ++ b] is the one written out. *)
Lemma indexFrom_app_first (i i' : Z) (a init b : gostring) (l : ascii) :
  0 <= i' ->
  indexFrom i' (a ++ init) (init ++ [l]) = -1 ->
  indexFrom i (a ++ (init ++ [l]) ++ b) (init ++ [l]) = i + len a.
Proof.
  unfold len. revert i i'. induction a as [|c a IH]; intros i i' Hi' Hnone.
  - cbn [app length]. destruct ((init ++ [l]) ++ b) as [|d t] eqn:Hs.
    { by destruct init. }
    cbn [indexFrom]. rewrite <- Hs.
    replace (HasPrefix ((init ++ [l]) ++ b) (init ++ [l])) with true
      by (symmetry; apply HasPrefix_spec; by exists b).
    simpl. lia.
  - apply indexFrom_none_prefix in Hnone as [Hp Hrest]; [|done].
    cbn [app] in Hrest |- *. cbn [indexFrom].
    replace (c :: a ++ (init ++ [l]) ++ b) with ((c :: a ++ init) ++ l :: b)
      by (cbn [app]; by rewrite <- !app_assoc).
    rewrite HasPrefix_app_long by (rewrite length_app; simpl; rewrite !length_app; simpl; lia).
    cbn [app] in Hp. rewrite Hp.
    replace ((c :: a ++ init) ++ l :: b) with (c :: a ++ (init ++ [l]) ++ b)
      by (cbn [app]; by rewrite <- !app_assoc).
    rewrite (IH (i + 1) (i' + 1)) by (done || lia). simpl length. lia.
Qed.

Lemma lastIndexFrom_none (i j found : Z) (s sub : gostring) :
  0 <= i -> indexFrom i s sub = -1 -> lastIndexFrom j found s sub = found.
Proof.
  revert i j. induction s as [|c s IH]; intros i j Hi Hnone.
  - apply indexFrom_none_prefix in Hnone as [Hp _]; [|done]. cbn [lastIndexFrom]. by rewrite Hp.
  - apply indexFrom_none_prefix in Hnone as [Hp Hrest]; [|done].
    cbn [lastIndexFrom]. rewrite Hp. apply (IH (i + 1)); [lia|done].
Qed.

(** The last instance: when [sub = h :: tl] does not occur in [tl ++ post],
    the last instance of [sub] in [x ++ sub ++ post] is the one written
    out. *)
Lemma lastIndexFrom_app_last (i j found : Z) (x tl post : gostring) (h : ascii) :
  0 <= i ->
  indexFrom i (tl ++ post) (h :: tl) = -1 ->
  lastIndexFrom j found (x ++ (h :: tl) ++ post) (h :: tl) = j + len x.
Proof.
  unfold len. intros Hi Hnone. revert j found.
  induction x as [|c x IH]; intros j found.
  - cbn [app lastIndexFrom].
    replace (HasPrefix (h :: tl ++ post) (h :: tl)) with true
      by (symmetry; apply HasPrefix_spec; by exists post).
    rewrite (lastIndexFrom_none i) by done. simpl. lia.
  - cbn [app lastIndexFrom]. rewrite IH. simpl length. lia.
Qed.

Lemma lastIndexFrom_bounds (i found : Z) (s sub : gostring) :
  let r := lastIndexFrom i found s sub in
  r = found \/ (i <= r /\ r + len sub <= i + len s).
Proof.
  unfold len. revert i found. induction s as [|c s IH]; intros i found; cbn [lastIndexFrom].
  - destruct (HasPrefix [] sub) eqn:Hp; [|by left]. apply HasPrefix_length in Hp. right. lia.
  - destruct (HasPrefix (c :: s) sub) eqn:Hp.
    + apply HasPrefix_length in Hp. destruct (IH (i + 1) i) as [->|[H1 H2]]; right.
      * lia.
      * simpl length. lia.
    + destruct (IH (i + 1) found) as [->|[H1 H2]]; [by left|right]. simpl length. lia.
Qed.

Lemma Index_bounds (s sub : gostring) :
  Index s sub <> -1 -> 0 <= Index s sub /\ Index s sub + len sub <= len s.
Proof. intros H. destruct (indexFrom_bounds 0 s sub H); [done|]. unfold Index. lia. Qed.

Lemma LastIndex_bounds (s sub : gostring) :
  LastIndex s sub = -1 \/ (0 <= LastIndex s sub /\ LastIndex s sub + len sub <= len s).
Proof. destruct (lastIndexFrom_bounds 0 (-1) s sub) as [?|?]; [by left|right]. unfold LastIndex. lia. Qed.

(** ** More on [extractBodyContent] *)

Section BodyProofs.
Context {env : Externals}.

Lemma slice_Some (s : gostring) (lo hi : Z) (r : gostring) :
  slice s lo hi = Some r ->
  0 <= lo <= hi /\ hi <= len s /\ r = take (Z.to_nat (hi - lo)) (drop (Z.to_nat lo) s).
Proof.
  unfold slice. destruct ((0 <=? lo) && (lo <=? hi) && (hi <=? len s)) eqn:H; [|done].
  apply andb_prop in H as [[H1 H2]%andb_prop H3]. intros [= <-].
  apply Z.leb_le in H1, H2, H3. split; [lia|split; [lia|done]].
Qed.

Lemma slice_ok (s : gostring) (lo hi : Z) :
  0 <= lo <= hi -> hi <= len s ->
  slice s lo hi = Some (take (Z.to_nat (hi - lo)) (drop (Z.to_nat lo) s)).
Proof.
  intros H1 H2. unfold slice.
  replace (0 <=? lo) with true by (symmetry; apply Z.leb_le; lia).
  replace (lo <=? hi) with true by (symmetry; apply Z.leb_le; lia).
  replace (hi <=? len s) with true by (symmetry; apply Z.leb_le; lia). done.
Qed.

Lemma slice_None (s : gostring) (lo hi : Z) :
  slice s lo hi = None <-> ~ (0 <= lo <= hi /\ hi <= len s).
Proof.
  split.
  - intros Hn [H1 H2]. by rewrite slice_ok in Hn.
  - intros Hn. destruct (slice s lo hi) eqn:Hs; [|done]. apply slice_Some in Hs. exfalso. tauto.
Qed.

(** X19: what [extractBodyContent] returns is a part of the document: the
    document is some text, then the result, then some text. *)
Theorem extractBodyContent_is_part (html body : gostring) :
  extractBodyContent html = Some body -> exists before after, html = before ++ body ++ after.
Proof.
  unfold extractBodyContent.
  destruct (Index (ToLower html) "<body" =? -1); [intros [= <-]; exists [], []; by rewrite app_nil_r|].
  destruct (slice html _ (len html)) as [tail|]; [|done]. cbn [mbind option_bind].
  destruct (Index tail ">" =? -1); [intros [= <-]; exists [], []; by rewrite app_nil_r|].
  intros (_ & _ & ->)%slice_Some.
  eexists (take _ html), (drop _ (drop _ html)). by rewrite take_drop, take_drop.
Qed.

(** X20: on an ASCII document [extractBodyContent] panics exactly when
    there is a [<body] with a [>] after it and the last [</body>] starts
    before the byte that follows that [>]. *)
Theorem extractBodyContent_panics_iff (html : gostring) :
  forallb isASCII html = true ->
  let opening := Index (ToLower html) "<body" in
  let tagEnd := Index (drop (Z.to_nat opening) html) ">" in
  let closing := LastIndex (ToLower html) "</body>" in
  extractBodyContent html = None
  <-> opening <> -1 /\ tagEnd <> -1 /\ closing <> -1 /\ closing < opening + tagEnd + 1.
Proof.
  intros Hascii. cbv zeta. unfold extractBodyContent.
  assert (Hlen : len (ToLower html) = len html).
  { rewrite ToLower_ascii by done. unfold len. by rewrite length_map. }
  pose proof (Index_bounds (ToLower html) "<body") as Ho.
  pose proof (LastIndex_bounds (ToLower html) "</body>") as Hc.
  change (len "<body") with 5 in Ho. change (len "</body>") with 7 in Hc.
  generalize dependent (LastIndex (ToLower html) "</body>"). intros closing Hc.
  generalize dependent (Index (ToLower html) "<body"). intros opening Ho.
  destruct (opening =? -1) eqn:Eo; [apply Z.eqb_eq in Eo|apply Z.eqb_neq in Eo].
  { split; [done|]. intros (H & _). done. }
  specialize (Ho Eo). rewrite slice_ok by lia. cbn [mbind option_bind].
  rewrite take_ge by (rewrite length_drop; unfold len; lia).
  pose proof (Index_bounds (drop (Z.to_nat opening) html) ">") as Ht.
  change (len ">") with 1 in Ht.
  assert (Hdrop : len (drop (Z.to_nat opening) html) = len html - opening).
  { unfold len. rewrite length_drop. unfold len in Ho, Hlen. lia. }
  rewrite Hdrop in Ht.
  generalize dependent (Index (drop (Z.to_nat opening) html) ">"). intros tagEnd Ht.
  destruct (tagEnd =? -1) eqn:Et; [apply Z.eqb_eq in Et|apply Z.eqb_neq in Et].
  { split; [done|]. intros (_ & H & _). done. }
  specialize (Ht Et).
  destruct (closing =? -1) eqn:Ec; [apply Z.eqb_eq in Ec|apply Z.eqb_neq in Ec].
  { rewrite slice_ok by lia. split; [done|]. intros (_ & _ & H & _). done. }
  rewrite slice_None. lia.
Qed.

Lemma map_lowerByte_no_gt (tag : gostring) :
  mentions ">" (map lowerByte tag) = false -> mentions ">" tag = false.
Proof.
  unfold mentions. induction tag as [|c tag IH]; [done|]. cbn [map existsb].
  intros [Hc Ht]%orb_false_elim. rewrite IH by done. rewrite orb_false_r.
  destruct (Ascii.eqb ">" c) eqn:Hgt; [|done]. apply Ascii.eqb_eq in Hgt. by subst c.
Qed.

(** X18: for an ASCII document [before <body attrs > inner </body> after]
    (the tags in whatever case) in which no [<body] starts in [before], the
    attributes hold no [>], and no [</body>] starts after the one written
    out, [extractBodyContent] returns [inner]. *)
Theorem extractBodyContent_between (before tag attrs inner closing after : gostring) :
  let html := before ++ tag ++ attrs ++ ">" ++ inner ++ closing ++ after in
  forallb isASCII html = true ->
  ToLower tag = "<body" ->
  ToLower closing = "</body>" ->
  Contains (ToLower before ++ "<bod") "<body" = false ->
  mentions ">" attrs = false ->
  Contains ("/body>" ++ ToLower after) "</body>" = false ->
  extractBodyContent html = Some inner.
Proof.
  intros html Hascii Htag Hclosing Hbefore Hattrs Hafter.
  assert (Hparts : forallb isASCII before = true /\ forallb isASCII tag = true
                   /\ forallb isASCII closing = true /\ forallb isASCII after = true).
  { subst html. rewrite !forallb_app in Hascii.
    repeat match goal with H : _ && _ = true |- _ => apply andb_prop in H as [? ?] end.
    done. }
  destruct Hparts as (Ab & At & Ac & Aa).
  rewrite ToLower_ascii in Htag, Hclosing, Hbefore, Hafter by done.
  assert (Hlower : ToLower html
                   = map lowerByte before ++ ("<bod" ++ ["y"%char])
                       ++ map lowerByte (attrs ++ ">" ++ inner ++ closing ++ after)).
  { rewrite ToLower_ascii by done. subst html. rewrite map_app, (map_app _ tag), Htag. done. }
  assert (Hlower' : ToLower html
                    = map lowerByte (before ++ tag ++ attrs ++ ">" ++ inner)
                        ++ ("<"%char :: "/body>") ++ map lowerByte after).
  { rewrite ToLower_ascii by done. subst html.
    rewrite !map_app, Hclosing. by rewrite <- !app_assoc. }
  assert (Hopen : Index (ToLower html) "<body" = len before).
  { rewrite Hlower. unfold Index.
    rewrite (indexFrom_app_first 0 0 (map lowerByte before) "<bod" _ "y") ; [|done|].
    - unfold len. rewrite length_map. lia.
    - unfold Contains in Hbefore. apply Z.leb_gt in Hbefore.
      unfold Index in Hbefore.
      destruct (decide (indexFrom 0 (map lowerByte before ++ "<bod") "<body" = -1)) as [E|E];
        [exact E|].
      apply indexFrom_bounds in E; [|done]. change ("<bod" ++ ["y"%char]) with ("<body" : gostring).
      lia. }
  assert (Hclose : LastIndex (ToLower html) "</body>"
                   = len (before ++ tag ++ attrs ++ ">" ++ inner)).
  { rewrite Hlower'. unfold LastIndex.
    rewrite (lastIndexFrom_app_last 0); [unfold len; rewrite length_map; lia|done|].
    unfold Contains in Hafter. apply Z.leb_gt in Hafter. unfold Index in Hafter.
    destruct (decide (indexFrom 0 ("/body>" ++ map lowerByte after) "</body>" = -1)) as [E|E];
      [exact E|].
    apply indexFrom_bounds in E; [|done]. lia. }
  assert (Htaglen : length tag = 5%nat).
  { rewrite <- (length_map lowerByte), Htag. done. }
  assert (Htaggt : mentions ">" tag = false).
  { apply map_lowerByte_no_gt. by rewrite Htag. }
  unfold extractBodyContent. rewrite Hopen, Hclose.
  replace (len before =? -1) with false by (symmetry; apply Z.eqb_neq; unfold len; lia).
  assert (Hhtml_len : len html = len before + len (tag ++ attrs ++ ">" ++ inner ++ closing ++ after)).
  { subst html. unfold len. rewrite length_app. lia. }
  rewrite slice_ok by (unfold len in *; lia). cbn [mbind option_bind].
  replace (drop (Z.to_nat (len before)) html)
    with (tag ++ attrs ++ ">" ++ inner ++ closing ++ after)
    by (subst html; unfold len; by rewrite Nat2Z.id, drop_app_length).
  rewrite take_ge by (unfold len in *; lia).
  assert (Hgt : Index (tag ++ attrs ++ ">" ++ inner ++ closing ++ after) ">"
                = len (tag ++ attrs)).
  { unfold Index.
    replace (tag ++ attrs ++ ">" ++ inner ++ closing ++ after)
      with ((tag ++ attrs) ++ ">"%char :: inner ++ closing ++ after)
      by (by rewrite <- app_assoc).
    rewrite (indexFrom_first ">" 0 (tag ++ attrs)); [lia|].
    unfold mentions in *. by rewrite existsb_app, Htaggt, Hattrs. }
  rewrite Hgt.
  replace (len (tag ++ attrs) =? -1) with false by (symmetry; apply Z.eqb_neq; unfold len; lia).
  replace (len (before ++ tag ++ attrs ++ ">" ++ inner) =? -1) with false
    by (symmetry; apply Z.eqb_neq; unfold len; lia).
  rewrite slice_ok.
  - f_equal. subst html.
    replace (Z.to_nat (len before + len (tag ++ attrs) + 1))
      with (length (before ++ tag ++ attrs ++ ">"))
      by (unfold len; rewrite !length_app; simpl; lia).
    replace (before ++ tag ++ attrs ++ ">" ++ inner ++ closing ++ after)
      with ((before ++ tag ++ attrs ++ ">") ++ inner ++ closing ++ after)
      by (by rewrite <- !app_assoc).
    rewrite drop_app_length.
    replace (Z.to_nat _) with (length inner)
      by (unfold len; rewrite !length_app; simpl; lia).
    by rewrite take_app_length.
  - unfold len. rewrite !length_app. simpl. lia.
  - subst html. unfold len. rewrite !length_app. simpl. lia.
Qed.

End BodyProofs.

(** ** [ToHTML] *)

Section PageProofs.
Context {env : Externals}.

Lemma writeChapters_blocks (chapters : list Chapter.t) (sb : gostring) :
  writeChapters chapters sb =
  bodies ← mapM (fun chapter => extractBodyContent (Chapter.Content chapter)) chapters;
  Some (sb ++ flat_map chapterBlock bodies).
Proof.
  revert sb. induction chapters as [|c chapters IH]; intros sb.
  - simpl. by rewrite app_nil_r.
  - cbn [writeChapters mapM]. destruct (extractBodyContent (Chapter.Content c)) as [body|];
      [|done].
    cbn [mbind option_bind]. rewrite IH.
    destruct (mapM _ chapters) as [bodies|]; [|done]. cbn [mbind option_bind mret option_ret flat_map].
    unfold chapterBlock. f_equal. by rewrite <- !app_assoc.
Qed.

Lemma foldl_sheets (css : list gostring) (sb : gostring) :
  foldl (fun sb sheet => sb ++ sheet ++ newline) sb css
  = sb ++ flat_map (fun sheet => sheet ++ newline) css.
Proof.
  revert sb. induction css as [|sheet css IH]; intros sb; simpl.
  - by rewrite app_nil_r.
  - rewrite IH. by rewrite <- !app_assoc.
Qed.

Lemma ToHTML_pieces (b : Book.t) :
  ToHTML b =
  bodies ← mapM (fun chapter => extractBodyContent (Chapter.Content chapter)) (Book.Chapters b);
  Some (pageHead (Book.Title b) (Book.Author b) (Book.CSS b)
          ++ flat_map chapterBlock bodies ++ pageFoot).
Proof.
  unfold ToHTML. rewrite writeChapters_blocks, foldl_sheets.
  destruct (mapM _ (Book.Chapters b)) as [bodies|]; [|done].
  cbn [mbind option_bind]. f_equal. unfold pageHead, pageFoot.
  destruct (streq (Book.Author b) "") eqn:Ha; cbn [negb]; rewrite <- ?app_assoc;
    repeat (rewrite <- ?app_assoc; f_equal).
Qed.

Lemma mapM_None_Exists {A B} (f : A -> option B) (l : list A) :
  mapM f l = None <-> Exists (fun a => f a = None) l.
Proof.
  induction l as [|a l IH]; cbn [mapM].
  - split; [done|]. by intros H%Exists_nil.
  - rewrite Exists_cons. destruct (f a) as [b|]; cbn [mbind option_bind].
    + destruct (mapM f l); cbn [mbind option_bind mret option_ret].
      * split; [done|]. intros [?|H]; [done|]. by apply IH in H.
      * split; [right; by apply IH|done].
    + split; [by left|done].
Qed.

(** X16: when the body of every chapter can be extracted, [ToHTML] returns
    the head (title and author escaped, the style sheets in order, each
    followed by a newline), then for each chapter in order its body wrapped
    in a [div] of class [chapter], then the closing tags. *)
Theorem ToHTML_layout (b : Book.t) (bodies : list gostring) :
  Forall2 (fun chapter body => extractBodyContent (Chapter.Content chapter) = Some body)
    (Book.Chapters b) bodies ->
  ToHTML b = Some (pageHead (Book.Title b) (Book.Author b) (Book.CSS b)
                     ++ flat_map chapterBlock bodies ++ pageFoot).
Proof.
  intros Hbodies. rewrite ToHTML_pieces.
  apply mapM_Some_2 in Hbodies. by rewrite Hbodies.
Qed.

(** X17: [ToHTML] panics exactly when [extractBodyContent] panics on the
    content of one of the chapters; title, author and style sheets never
    make it panic. *)
Theorem ToHTML_panics_iff (b : Book.t) :
  ToHTML b = None
  <-> exists chapter, chapter ∈ Book.Chapters b
                      /\ extractBodyContent (Chapter.Content chapter) = None.
Proof.
  rewrite ToHTML_pieces, <- Exists_exists, <- mapM_None_Exists.
  by destruct (mapM _ (Book.Chapters b)).
Qed.

End PageProofs.

(** ** The table of [getMimeType] *)

Lemma HasSuffix_rev (s suffix : gostring) :
  HasSuffix s suffix = HasPrefix (rev s) (rev suffix).
Proof.
  apply eq_true_iff_eq. rewrite HasSuffix_spec, HasPrefix_spec. split.
  - intros [t ->]. exists (rev t). by rewrite rev_app_distr.
  - intros [t Ht]. exists (rev t). apply (f_equal (@rev ascii)) in Ht.
    by rewrite rev_involutive, rev_app_distr, rev_involutive in Ht.
Qed.

Section TableProofs.
Context {env : Externals}.

(** X15: an ASCII name that ends in one of the eight extensions, in
    whatever case its letters are, is an image file and has the media type
    of that extension, whatever stands before the extension. *)
Theorem getMimeType_table (stem ext extension mediaType : gostring) :
  (extension, mediaType) ∈ mimeTable ->
  forallb isASCII (stem ++ ext) = true ->
  ToLower ext = extension ->
  getMimeType (stem ++ ext) = mediaType /\ isImageFile (stem ++ ext) = true.
Proof.
  intros Hin Hascii Hext.
  assert (Hlower : ToLower (stem ++ ext) = map lowerByte stem ++ extension).
  { rewrite ToLower_ascii by done. rewrite forallb_app in Hascii.
    apply andb_prop in Hascii as [_ Ha]. rewrite ToLower_ascii in Hext by done.
    by rewrite map_app, Hext. }
  unfold getMimeType, isImageFile, extensions. cbn [existsb]. rewrite Hlower.
  rewrite !HasSuffix_rev, rev_app_distr. unfold mimeTable in Hin.
  repeat (apply elem_of_cons in Hin as [[= -> ->]|Hin]; [by cbn|]).
  by apply elem_of_nil in Hin.
Qed.

End TableProofs.

Lemma getMimeType_table_witness :
  getMimeType (env := Sample.externals) "Cover.Page.JPEG" = "image/jpeg"
  /\ isImageFile (env := Sample.externals) "Cover.Page.JPEG" = true.
Proof.
  apply (getMimeType_table (env := Sample.externals) "Cover.Page" ".JPEG" ".jpeg" "image/jpeg");
    [apply list_elem_of_further, list_elem_of_here|reflexivity|reflexivity].
Defined.

Lemma extractBodyContent_is_part_witness :
  exists before after,
    ("<html><BODY class='x'><p>Hi</p></BODY></html>" : gostring)
    = before ++ "<p>Hi</p>" ++ after.
Proof.
  apply (extractBodyContent_is_part (env := Sample.externals)
           "<html><BODY class='x'><p>Hi</p></BODY></html>" "<p>Hi</p>").
  reflexivity.
Defined.

Lemma extractBodyContent_panics_iff_witness :
  extractBodyContent (env := Sample.externals) "</BODY> <body>" = None.
Proof.
  apply (extractBodyContent_panics_iff (env := Sample.externals) "</BODY> <body>");
    [reflexivity|].
  vm_compute. repeat split; (discriminate || reflexivity).
Defined.

Lemma extractBodyContent_between_witness :
  extractBodyContent (env := Sample.externals)
    "<html><BODY class='x'><p>Hi</p></BODY></html>" = Some "<p>Hi</p>".
Proof.
  apply (extractBodyContent_between (env := Sample.externals)
           "<html>" "<BODY" " class='x'" "<p>Hi</p>" "</BODY>" "</html>");
    reflexivity.
Defined.

Lemma ToHTML_layout_witness :
  ToHTML (env := Sample.externals)
    (Book.mk "T" "" [Chapter.mk "ch1" "<body><p>One</p></body>" 0] [] "")
  = Some (pageHead "T" "" [] ++ chapterBlock "<p>One</p>" ++ pageFoot).
Proof.
  apply (ToHTML_layout (env := Sample.externals)
           (Book.mk "T" "" [Chapter.mk "ch1" "<body><p>One</p></body>" 0] [] "")
           ["<p>One</p>"]).
  repeat constructor.
Defined.

(** ** More on [Parse]

    *** The lookup tables *)

Lemma foldl_insert_last {A} (key : A -> gostring) (l : list A) (m : gmap gostring A)
    (k : gostring) :
  foldl (fun m x => <[key x := x]> m) m l !! k
  = match last (filter (fun x => key x = k) l) with
    | Some x => Some x
    | None => m !! k
    end.
Proof.
  revert m. induction l as [|x l IH]; intros m; [done|].
  cbn [foldl]. rewrite IH. rewrite filter_cons.
  destruct (decide (key x = k)) as [Hk|Hk].
  - rewrite last_cons. destruct (last (filter _ l)); [done|].
    by rewrite <- Hk, lookup_insert_eq.
  - destruct (last (filter _ l)); [done|]. by rewrite lookup_insert_ne.
Qed.

Lemma fileIndex_last (rFile : list ZipFile.t) (name : gostring) :
  fileIndex rFile !! name = last (filter (fun f => ZipFile.Name f = name) rFile).
Proof.
  unfold fileIndex. rewrite (foldl_insert_last ZipFile.Name).
  by destruct (last _).
Qed.

Lemma manifestLookup_last (items : list ManifestItem.t) (id : gostring) :
  manifestLookup items !! id = last (filter (fun item => ManifestItem.ID item = id) items).
Proof.
  unfold manifestLookup. rewrite (foldl_insert_last ManifestItem.ID).
  by destruct (last _).
Qed.

(** X2: the two lookup tables that [Parse] builds hold, for a key, the last
    entry of the archive with that name and the last manifest item with
    that id, and nothing when there is none. *)
Theorem lookup_tables_last_wins (rFile : list ZipFile.t) (items : list ManifestItem.t)
    (key : gostring) :
  fileIndex rFile !! key = last (filter (fun f => ZipFile.Name f = key) rFile)
  /\ manifestLookup items !! key
     = last (filter (fun item => ManifestItem.ID item = key) items).
Proof. split; [apply fileIndex_last|apply manifestLookup_last]. Qed.

Lemma manifestLookup_ID (items : list ManifestItem.t) (id : gostring) (item : ManifestItem.t) :
  manifestLookup items !! id = Some item -> ManifestItem.ID item = id /\ item ∈ items.
Proof.
  rewrite manifestLookup_last. intros Hl.
  assert (Hin : item ∈ filter (fun item => ManifestItem.ID item = id) items).
  { apply last_Some in Hl as [l' ->]. apply elem_of_app. right. apply list_elem_of_here. }
  apply list_elem_of_filter in Hin as [? ?]. done.
Qed.

Section ParseMore.
Context {env : Externals}.


Lemma chapterAt_Title files basePath manifestMap i r c :
  chapterAt files basePath manifestMap i r = Some c ->
  exists item, manifestMap !! SpineItemRef.IDRef r = Some item
               /\ Chapter.Title c = ManifestItem.ID item.
Proof.
  unfold chapterAt. intros Hc.
  destruct (manifestMap !! SpineItemRef.IDRef r) as [item|]; simpl in Hc; [|done].
  destruct (negb _ && negb _); [done|].
  destruct (files !! _) as [f|]; simpl in Hc; [|done].
  destruct (readFileContent f); simpl in Hc; [|done].
  injection Hc as <-. by exists item.
Qed.

Lemma titles_sublist files basePath items i itemRefs :
  map Chapter.Title
    (omap (fun '(j, r) => chapterAt files basePath (manifestLookup items) j r)
       (indexed i itemRefs))
  `sublist_of` map SpineItemRef.IDRef itemRefs.
Proof.
  revert i. induction itemRefs as [|r rs IH]; intros i; [done|].
  rewrite indexed_cons. cbn [omap list_omap map].
  destruct (chapterAt files basePath (manifestLookup items) i r) as [c|] eqn:Hc.
  - apply chapterAt_Title in Hc as (item & Hitem & Htitle).
    apply manifestLookup_ID in Hitem as [Hid _]. cbn [map]. rewrite Htitle, Hid.
    apply sublist_skip, IH.
  - apply sublist_cons, IH.
Qed.

(** X3: the titles of the chapters of a book that [Parse] returns are, in
    order, idrefs of the spine: the list of titles is a sublist of the list
    of idrefs (a chapter's title is the id of its manifest item, which is
    the idref that was looked up). *)
Theorem Parse_titles_follow_spine epubPath book :
  Parse epubPath = Ok book ->
  exists files opfPath pkg,
    parsedPackage epubPath files opfPath pkg
    /\ map Chapter.Title (Book.Chapters book)
       `sublist_of` map SpineItemRef.IDRef (Spine.ItemRefs (Package.Spine pkg)).
Proof.
  intros (files & opfPath & pkg & Hparsed & ->)%Parse_Ok.
  exists files, opfPath, pkg. split; [done|].
  rewrite buildBook_Chapters. apply titles_sublist.
Qed.

(** *** Where the image of a chapter is looked up *)

Lemma joinSegments_not_dot segments :
  forallb plainSegment segments = true -> segments <> [] -> joinSegments segments <> ".".
Proof.
  intros Hplain Hne Hdot.
  destruct segments as [|s [|s' rest]]; [done| |].
  - cbn [forallb joinSegments] in *. subst s. done.
  - cbn [forallb] in Hplain. apply andb_prop in Hplain as [Hs _].
    rewrite joinSegments_cons in Hdot by done.
    destruct s as [|c [|d s]]; [done|done|done].
Qed.

Lemma baseOf_joinSegments segments opf :
  forallb plainSegment (segments ++ [opf]) = true ->
  baseOf (joinSegments (segments ++ [opf])) = joinSegments segments.
Proof.
  intros Hplain. unfold baseOf.
  replace (joinSegments (segments ++ [opf])) with (pathOf (segments ++ [opf]))
    by (by destruct segments).
  rewrite Dir_pathOf_snoc by done.
  rewrite forallb_app in Hplain. apply andb_prop in Hplain as [Hsegs _].
  destruct segments as [|s segments]; [done|].
  cbn [pathOf]. destruct (streq _ ".") eqn:Hdot; [|done].
  apply streq_spec in Hdot. by apply joinSegments_not_dot in Hdot.
Qed.

(** X4: for a package document at [segments/opf] and a chapter whose href
    is [hrefDirs/file] (all plain names), [Parse] reads the chapter from
    [segments/hrefDirs/file], hands [embedImages] the directory
    [segments/hrefDirs], and a reference [../] (k times) followed by [rest]
    in that chapter is resolved to the directory with its last [k] elements
    dropped, followed by [rest]. *)
Theorem chapter_image_path (segments hrefDirs rest : list gostring) (opf file : gostring)
    (k : nat) :
  forallb plainSegment (segments ++ [opf]) = true ->
  forallb plainSegment (hrefDirs ++ [file]) = true ->
  forallb plainSegment rest = true ->
  let basePath := baseOf (joinSegments (segments ++ [opf])) in
  let chapterPath := resolvePath basePath (joinSegments (hrefDirs ++ [file])) in
  let chapterDir := Dir chapterPath in
  let dirs := segments ++ hrefDirs in
  chapterPath = joinSegments (dirs ++ [file])
  /\ chapterDir = pathOf dirs
  /\ resolveRelativePath chapterDir (parents k ++ joinSegments rest)
     = pathOf (take (length dirs - k) dirs ++ rest).
Proof.
  intros Hopf Hhref Hrest. cbv zeta. rewrite baseOf_joinSegments by done.
  rewrite forallb_app in Hopf. apply andb_prop in Hopf as [Hsegs _].
  assert (Hall : forallb plainSegment ((segments ++ hrefDirs) ++ [file]) = true).
  { rewrite <- app_assoc, forallb_app. by rewrite Hsegs, Hhref. }
  assert (Hdirs : forallb plainSegment (segments ++ hrefDirs) = true).
  { rewrite forallb_app in Hall. by apply andb_prop in Hall as [? _]. }
  assert (Hpath : resolvePath (joinSegments segments) (joinSegments (hrefDirs ++ [file]))
                  = pathOf ((segments ++ hrefDirs) ++ [file])).
  { unfold resolvePath. destruct segments as [|s segments].
    - cbn [streq joinSegments app]. by destruct hrefDirs.
    - replace (streq (joinSegments (s :: segments)) "") with false.
      + change (joinSegments (s :: segments)) with (pathOf (s :: segments)).
        rewrite Join_pathOf by done. by rewrite <- app_assoc.
      + symmetry. apply streq_false. change (joinSegments (s :: segments)) with (pathOf (s :: segments)).
        by apply pathOf_nonempty. }
  rewrite Hpath. split; [by destruct (segments ++ hrefDirs)|].
  rewrite Dir_pathOf_snoc by done. split; [done|].
  rewrite resolveRelativePath_parents;
    [|by apply pathOf_nonempty|by apply joinSegments_no_parent].
  rewrite iter_Dir_pathOf by done.
  apply Join_pathOf; [|done].
  rewrite <- (take_drop (length (segments ++ hrefDirs) - k) (segments ++ hrefDirs)) in Hdirs.
  rewrite forallb_app in Hdirs. by apply andb_prop in Hdirs as [? _].
Qed.

End ParseMore.


Lemma Parse_titles_follow_spine_witness :
  exists files opfPath pkg book,
    parsedPackage (env := Sample.externals) "book.epub" files opfPath pkg
    /\ map Chapter.Title (Book.Chapters book)
       `sublist_of` map SpineItemRef.IDRef (Spine.ItemRefs (Package.Spine pkg)).
Proof.
  destruct (Parse_titles_follow_spine (env := Sample.externals) "book.epub"
              (buildBook (env := Sample.externals) Sample.files "OEBPS/content.opf"
                 Sample.package)) as (files & opfPath & pkg & H);
    [vm_compute; reflexivity|].
  by exists files, opfPath, pkg, (buildBook (env := Sample.externals) Sample.files
                                    "OEBPS/content.opf" Sample.package).
Defined.

Lemma chapter_image_path_witness :
  resolveRelativePath (Dir (resolvePath (baseOf "OEBPS/content.opf") "text/ch1.xhtml"))
    "../img/cover.png" = "OEBPS/img/cover.png".
Proof.
  apply (chapter_image_path ["OEBPS"] ["text"] ["img"; "cover.png"] "content.opf"
           "ch1.xhtml" 1); reflexivity.
Defined.

(** ** Matching again on the text of a match *)



Section RematchProofs.
Local Open Scope nat_scope.

Lemma starLoop_from p k i s r :
  starLoop p k i s = Some r -> exists j t, i <= j /\ k j t = Some r.
Proof.
  revert i. induction s as [|c s IH]; intros i; cbn [starLoop].
  - intros H. by exists i, [].
  - destruct (p c); [|intros H; by exists i, (c :: s)].
    destruct (starLoop p k (S i) s) as [r'|] eqn:E.
    + intros [= <-]. apply IH in E as (j & t & Hj & Hk). exists j, t. split; [lia|done].
    + intros H. by exists i, (c :: s).
Qed.

Lemma matchNodes_from ns k i s r :
  matchNodes ns k i s = Some r -> exists j t, i <= j /\ k j t = Some r.
Proof.
  revert i s. induction ns as [|n ns IH]; intros i s; cbn [matchNodes].
  - intros H. by exists i, s.
  - destruct n as [encodings|p|p|p|p].
    + destruct (runePrefix encodings s) as [w|]; [|done].
      intros (j & t & Hj & Hk)%IH. exists j, t. split; [lia|done].
    + destruct s as [|c s]; [done|]. destruct (p c); [|done].
      intros (j & t & Hj & Hk)%IH. exists j, t. split; [lia|done].
    + intros (j & t & Hj & (j' & t' & Hj' & Hk)%IH)%starLoop_from.
      exists j', t'. split; [lia|done].
    + destruct s as [|c s]; [done|]. destruct (p c); [|done].
      intros (j & t & Hj & (j' & t' & Hj' & Hk)%IH)%starLoop_from.
      exists j', t'. split; [lia|done].
    + destruct s as [|c s]; [apply IH|].
      destruct (p c); [|apply IH].
      destruct (matchNodes ns k (S i) s) as [r'|] eqn:E; [|apply IH].
      intros [= <-]. apply IH in E as (j & t & Hj & Hk). exists j, t. split; [lia|done].
Qed.

Lemma sorted_from_weaken (i j : nat) (r : list nat) :
  i <= j -> StronglySorted le (j :: r) -> StronglySorted le (i :: r).
Proof.
  intros Hij Hs. apply StronglySorted_inv in Hs as [Hs Hall].
  constructor; [done|]. eapply Forall_impl; [exact Hall|]. simpl. lia.
Qed.

Lemma matchNodes_ordered ns k : ordered k -> ordered (matchNodes ns k).
Proof.
  intros Hk i s r (j & t & Hj & [Hne Hs]%Hk)%matchNodes_from.
  split; [done|]. by apply (sorted_from_weaken i j).
Qed.

Lemma starLoop_ordered p k : ordered k -> ordered (starLoop p k).
Proof.
  intros Hk i s r (j & t & Hj & [Hne Hs]%Hk)%starLoop_from.
  split; [done|]. by apply (sorted_from_weaken i j).
Qed.

Lemma matchGroups_sorted gs i s r :
  matchGroups gs i s = Some r -> StronglySorted le (i :: r) /\ length r = length gs.
Proof.
  revert i s r. induction gs as [|g gs IH]; intros i s r; cbn [matchGroups].
  - intros [= <-]. split; [|done]. repeat constructor.
  - intros (j & t & Hj & Hk)%matchNodes_from.
    destruct (matchGroups gs j t) as [r'|] eqn:E; [|done]. injection Hk as <-.
    apply IH in E as [Hs Hl]. split; [|simpl; by rewrite Hl].
    apply (sorted_from_weaken i j); [done|].
    constructor; [done|]. constructor; [done|]. by apply StronglySorted_inv in Hs as [_ Hs].
Qed.

Lemma groupsContinuation_ordered gs :
  ordered (fun j t => cons j <$> matchGroups gs j t).
Proof.
  intros j t r Hr. destruct (matchGroups gs j t) as [r'|] eqn:E; [|done].
  injection Hr as <-. split; [done|]. apply matchGroups_sorted in E as [Hs _].
  constructor; [done|]. constructor; [done|]. by apply StronglySorted_inv in Hs as [_ Hs].
Qed.

Lemma ordered_fits k j t r lim :
  ordered k -> k j t = Some r -> fits lim r -> j <= lim.
Proof.
  intros Hk Hr Hfit. apply Hk in Hr as [Hne Hs].
  destruct r as [|e r]; [done|]. apply StronglySorted_inv in Hs as [_ Hall].
  apply Forall_cons in Hall as [Hje _]. apply Forall_cons in Hfit as [Hel _]. lia.
Qed.

(** *** The input cut off at the end of the match *)

Lemma HasPrefix_take (n : nat) (s p : gostring) :
  HasPrefix (take n s) p = true -> HasPrefix s p = true.
Proof.
  intros [t Ht]%HasPrefix_spec. apply HasPrefix_spec.
  exists (t ++ drop n s). rewrite app_assoc, <- Ht. by rewrite take_drop.
Qed.

Lemma HasPrefix_take_long (n : nat) (s p : gostring) :
  length p <= n -> HasPrefix s p = true -> HasPrefix (take n s) p = true.
Proof.
  intros Hn [t ->]%HasPrefix_spec. apply HasPrefix_spec.
  exists (take (n - length p) t). by rewrite take_app_ge by lia.
Qed.

Lemma HasPrefix_comparable (s e e' : gostring) :
  HasPrefix s e = true -> HasPrefix s e' = true ->
  HasPrefix e e' = true \/ HasPrefix e' e = true.
Proof.
  revert s e'. induction e as [|c e IH]; intros s e' He He'.
  - right. by destruct e'.
  - destruct e' as [|c' e']; [by left|]. destruct s as [|d s]; [done|].
    simpl in He, He'. apply andb_prop in He as [Hc He], He' as [Hc' He'].
    apply Ascii.eqb_eq in Hc, Hc'. subst c c'. simpl. rewrite Ascii.eqb_refl. simpl.
    by apply (IH s).
Qed.

Lemma runePrefix_Some encodings s w :
  runePrefix encodings s = Some w ->
  exists e, e ∈ encodings /\ HasPrefix s e = true /\ length e = w.
Proof.
  induction encodings as [|e encodings IH]; [done|]. cbn [runePrefix].
  destruct (HasPrefix s e) eqn:He.
  - intros [= <-]. exists e. split; [apply list_elem_of_here|done].
  - intros (e' & Hin & H)%IH. exists e'. split; [by apply list_elem_of_further|done].
Qed.

Lemma prefixFree_spec encodings e e' :
  prefixFree encodings = true -> e ∈ encodings -> e' ∈ encodings ->
  HasPrefix e' e = true -> e = e'.
Proof.
  unfold prefixFree. rewrite forallb_forall. intros Hall He He' Hp.
  apply list_elem_of_In in He, He'. specialize (Hall e He). rewrite forallb_forall in Hall.
  specialize (Hall e' He'). rewrite Hp in Hall. simpl in Hall. by apply streq_spec.
Qed.

Lemma runePrefix_take (n : nat) encodings s w :
  runePrefix encodings s = Some w -> w <= n -> runePrefix encodings (take n s) = Some w.
Proof.
  induction encodings as [|e encodings IH]; [done|]. cbn [runePrefix].
  destruct (HasPrefix s e) eqn:He.
  - intros [= <-] Hn. by rewrite HasPrefix_take_long.
  - intros Hr Hn. destruct (HasPrefix (take n s) e) eqn:He'.
    + apply HasPrefix_take in He'. congruence.
    + by apply IH.
Qed.

Lemma runePrefix_untake (n : nat) encodings s w :
  prefixFree encodings = true ->
  runePrefix encodings (take n s) = Some w -> runePrefix encodings s = Some w.
Proof.
  intros Hfree Hr.
  destruct (runePrefix_Some _ _ _ Hr) as (e & Hin & He & Hlen).
  apply HasPrefix_take in He as He_s.
  destruct (runePrefix encodings s) as [w'|] eqn:Hs.
  - destruct (runePrefix_Some _ _ _ Hs) as (e' & Hin' & He' & Hlen').
    destruct (HasPrefix_comparable s e e' He_s He') as [H|H].
    + apply (prefixFree_spec encodings e' e) in H; [|done..]. by subst.
    + apply (prefixFree_spec encodings e e') in H; [|done..]. by subst.
  - exfalso. clear Hr Hfree. induction encodings as [|e0 encodings IH]; [by apply elem_of_nil in Hin|].
    cbn [runePrefix] in Hs. destruct (HasPrefix s e0) eqn:H0; [done|].
    apply elem_of_cons in Hin as [->|Hin]; [congruence|]. by apply IH.
Qed.

Lemma starLoop_cuttable p k lim :
  ordered k -> cuttable lim k -> cuttable lim (starLoop p k).
Proof.
  intros Hord Hcut j t. revert j. induction t as [|c t IH]; intros j.
  - rewrite take_nil. cbn [starLoop]. pose proof (Hcut j []) as HC. by rewrite take_nil in HC.
  - pose proof (Hcut j (c :: t)) as [HA HB].
    destruct (lim - j) as [|m] eqn:Hm; cbn [take] in HA, HB |- *; cbn [starLoop].
    + destruct (p c); [|done].
      destruct (starLoop p k (S j) t) as [r'|] eqn:E; [|done].
      split; [done|]. intros r [= <-] Hfit. exfalso.
      pose proof (ordered_fits _ _ _ _ _ (starLoop_ordered p k Hord) E Hfit). lia.
    + destruct (IH (S j)) as [IA IB]. replace (lim - S j) with m in IA, IB by lia.
      destruct (p c); [|done].
      destruct (starLoop p k (S j) t) as [r'|] eqn:E.
      * split; [done|]. intros r [= <-] Hfit. by rewrite (IB r').
      * by rewrite IA.
Qed.

Lemma matchNodes_cuttable ns k lim :
  forallb prefixFreeNode ns = true -> ordered k -> cuttable lim k ->
  cuttable lim (matchNodes ns k).
Proof.
  intros Hwf Hord Hcut. induction ns as [|n ns IH]; [exact Hcut|].
  cbn [forallb] in Hwf. apply andb_prop in Hwf as [Hn Hwf]. specialize (IH Hwf).
  pose proof (matchNodes_ordered ns k Hord) as Hord'.
  intros j t. destruct n as [encodings|p|p|p|p]; cbn [matchNodes].
  - cbn [prefixFreeNode] in Hn. split.
    + intros Hnone. destruct (runePrefix encodings (take (lim - j) t)) as [w|] eqn:Hw; [|done].
      pose proof (runePrefix_untake _ _ _ _ Hn Hw) as Hw'. rewrite Hw' in Hnone.
      destruct (runePrefix_Some _ _ _ Hw) as (e & _ & He & Hlen).
      apply HasPrefix_length in He. rewrite length_take in He.
      destruct (IH (j + w) (drop w t)) as [IA _]. specialize (IA Hnone).
      rewrite take_drop_commute in IA. replace (w + (lim - (j + w))) with (lim - j) in IA by lia.
      done.
    + intros r Hr Hfit. destruct (runePrefix encodings t) as [w|] eqn:Hw; [|done].
      pose proof (ordered_fits _ _ _ _ _ Hord' Hr Hfit) as Hle.
      rewrite (runePrefix_take _ _ _ _ Hw) by lia.
      destruct (IH (j + w) (drop w t)) as [_ IB]. specialize (IB r Hr Hfit).
      rewrite take_drop_commute in IB. replace (w + (lim - (j + w))) with (lim - j) in IB by lia.
      done.
  - destruct t as [|c t]; [by rewrite take_nil|].
    destruct (lim - j) as [|m] eqn:Hm; cbn [take].
    + split; [done|]. intros r Hr Hfit. exfalso. destruct (p c); [|done].
      pose proof (ordered_fits _ _ _ _ _ Hord' Hr Hfit). lia.
    + destruct (p c); [|done]. replace m with (lim - S j) by lia. apply IH.
  - by apply starLoop_cuttable.
  - destruct t as [|c t]; [by rewrite take_nil|].
    destruct (lim - j) as [|m] eqn:Hm; cbn [take].
    + split; [done|]. intros r Hr Hfit. exfalso. destruct (p c); [|done].
      pose proof (ordered_fits _ _ _ _ _ (starLoop_ordered p _ Hord') Hr Hfit). lia.
    + destruct (p c); [|done]. replace m with (lim - S j) by lia.
      by apply starLoop_cuttable.
  - destruct t as [|c t].
    { rewrite take_nil. pose proof (IH j []) as HC. by rewrite take_nil in HC. }
    pose proof (IH j (c :: t)) as [HA HB].
    destruct (lim - j) as [|m] eqn:Hm; cbn [take] in HA, HB |- *.
    + destruct (p c); [|done].
      destruct (matchNodes ns k (S j) t) as [r'|] eqn:E; [|done].
      split; [done|]. intros r [= <-] Hfit. exfalso.
      pose proof (ordered_fits _ _ _ _ _ Hord' E Hfit). lia.
    + destruct (IH (S j) t) as [IA IB]. replace (lim - S j) with m in IA, IB by lia.
      destruct (p c); [|done].
      destruct (matchNodes ns k (S j) t) as [r'|] eqn:E.
      * split; [done|]. intros r [= <-] Hfit. by rewrite (IB r').
      * by rewrite IA.
Qed.

Lemma matchGroups_cuttable gs lim :
  forallb (forallb prefixFreeNode) gs = true -> cuttable lim (matchGroups gs).
Proof.
  induction gs as [|g gs IH]; intros Hwf.
  - intros j t. done.
  - cbn [forallb] in Hwf. apply andb_prop in Hwf as [Hg Hwf]. specialize (IH Hwf).
    intros j t. cbn [matchGroups].
    apply matchNodes_cuttable; [done|apply groupsContinuation_ordered|].
    intros j' t'. destruct (IH j' t') as [IA IB]. split.
    + destruct (matchGroups gs j' t'); [done|]. intros _. by rewrite IA.
    + intros r. destruct (matchGroups gs j' t') as [r'|]; [|done].
      intros [= <-] [_ Hfit]%Forall_cons. by rewrite (IB r').
Qed.

(** *** The offsets of a match do not depend on where the input starts *)

Lemma starLoop_shift p (k k' : continuation) d :
  (forall j t, k' (j + d) t = map (fun e => e + d) <$> k j t) ->
  forall i s, starLoop p k' (i + d) s = map (fun e => e + d) <$> starLoop p k i s.
Proof.
  intros Hk i s. revert i. induction s as [|c s IH]; intros i; cbn [starLoop]; [apply Hk|].
  destruct (p c); [|apply Hk].
  change (S (i + d)) with (S i + d). rewrite IH.
  destruct (starLoop p k (S i) s); [done|]. apply Hk.
Qed.

Lemma matchNodes_shift ns (k k' : continuation) d :
  (forall j t, k' (j + d) t = map (fun e => e + d) <$> k j t) ->
  forall i s, matchNodes ns k' (i + d) s = map (fun e => e + d) <$> matchNodes ns k i s.
Proof.
  intros Hk. induction ns as [|n ns IH]; intros i s; cbn [matchNodes]; [apply Hk|].
  destruct n as [encodings|p|p|p|p].
  - destruct (runePrefix encodings s) as [w|]; [|done].
    replace (i + d + w) with (i + w + d) by lia. apply IH.
  - destruct s as [|c s]; [done|]. destruct (p c); [|done].
    change (S (i + d)) with (S i + d). apply IH.
  - by apply starLoop_shift.
  - destruct s as [|c s]; [done|]. destruct (p c); [|done].
    change (S (i + d)) with (S i + d). by apply starLoop_shift.
  - destruct s as [|c s]; [apply IH|]. destruct (p c); [|apply IH].
    change (S (i + d)) with (S i + d). rewrite IH.
    destruct (matchNodes ns k (S i) s); [done|]. apply IH.
Qed.

Lemma matchGroups_shift gs d i s :
  matchGroups gs (i + d) s = map (fun e => e + d) <$> matchGroups gs i s.
Proof.
  revert i s. induction gs as [|g gs IH]; intros i s; cbn [matchGroups]; [done|].
  apply matchNodes_shift. intros j t. rewrite IH. by destruct (matchGroups gs j t).
Qed.

(** *** Matching again on the text of a match *)

Lemma findFrom_start gs i s a0 ends :
  findFrom gs i s = Some (a0, ends) ->
  i <= a0 /\ matchGroups gs a0 (drop (a0 - i) s) = Some ends.
Proof.
  revert i. induction s as [|c s IH]; intros i; cbn [findFrom].
  - destruct (matchGroups gs i []) as [r|] eqn:E; [|done].
    intros [= <- <-]. split; [done|]. by rewrite drop_nil.
  - destruct (matchGroups gs i (c :: s)) as [r|] eqn:E.
    + intros [= <- <-]. split; [done|]. by rewrite Nat.sub_diag.
    + intros [Hi Hm]%IH. split; [lia|].
      replace (a0 - i) with (S (a0 - S i)) by lia. done.
Qed.

Lemma substr_within (src : gostring) (a0 lim x y : nat) :
  x <= y -> y + a0 <= lim ->
  substr (substr src a0 lim) x y = substr src (x + a0) (y + a0).
Proof.
  intros Hxy Hy. unfold substr.
  rewrite skipn_firstn_comm, drop_drop.
  replace (a0 + x) with (x + a0) by lia.
  rewrite take_take. f_equal. lia.
Qed.

Lemma groupTexts_within (src : gostring) (a0 lim x : nat) (ends : list nat) :
  StronglySorted le (x :: ends) -> fits lim (map (fun e => e + a0) ends) ->
  groupTexts (substr src a0 lim) x ends
  = groupTexts src (x + a0) (map (fun e => e + a0) ends).
Proof.
  revert x. induction ends as [|e ends IH]; intros x Hs Hfit; [done|].
  cbn [map groupTexts]. apply StronglySorted_inv in Hs as [Hs Hall].
  apply Forall_cons in Hall as [Hxe _]. cbn [map] in Hfit.
  apply Forall_cons in Hfit as [He Hfit].
  rewrite substr_within by done. f_equal. by apply IH.
Qed.

Lemma last_cons_default {A} (e i : A) (r : list A) :
  List.last (e :: r) i = List.last r e.
Proof.
  revert e i. induction r as [|x r IH]; intros e i; [done|].
  change (List.last (e :: x :: r) i) with (List.last (x :: r) i).
  by rewrite (IH x i), (IH x e).
Qed.

Lemma sorted_last (i : nat) (r : list nat) :
  StronglySorted le (i :: r) -> i <= matchEnd i r /\ fits (matchEnd i r) r.
Proof.
  unfold matchEnd, fits. revert i. induction r as [|e r IH]; intros i Hs.
  - split; [done|constructor].
  - apply StronglySorted_inv in Hs as [Hs Hall]. apply Forall_cons in Hall as [Hie _].
    rewrite last_cons_default. destruct (IH e Hs) as [He Hall].
    split; [lia|]. by constructor.
Qed.

Lemma sorted_fits_last (i : nat) (r : list nat) :
  StronglySorted le (i :: r) -> fits (matchEnd i r) r.
Proof. apply sorted_last. Qed.

Lemma matchEnd_shift (i d : nat) (r : list nat) :
  matchEnd (i + d) (map (fun e => e + d) r) = matchEnd i r + d.
Proof.
  unfold matchEnd. revert i. induction r as [|e r IH]; intros i; [done|].
  destruct r as [|e' r]; [done|]. apply (IH i).
Qed.

(** The text of a match, matched on its own, is matched as a whole and
    with the same groups. *)
Lemma FindStringSubmatch_match re src pos a0 ends :
  prefixFreeRegexp re = true ->
  doExecute re src pos = Some (a0, ends) ->
  let m := substr src a0 (matchEnd a0 ends) in
  FindStringSubmatch re m = m :: groupTexts src a0 ends.
Proof.
  intros Hwf Hm m. unfold doExecute in Hm.
  apply findFrom_start in Hm as [Hpos Hm]. rewrite drop_drop in Hm.
  replace (pos + (a0 - pos)) with a0 in Hm by lia.
  pose proof (matchGroups_sorted _ _ _ _ Hm) as [Hs Hl].
  pose proof (sorted_fits_last _ _ Hs) as Hfit.
  destruct (matchGroups_cuttable (groups re) (matchEnd a0 ends) Hwf a0 (drop a0 src))
    as [_ Hcut].
  specialize (Hcut ends Hm Hfit). fold (substr src a0 (matchEnd a0 ends)) in Hcut. fold m in Hcut.
  change a0 with (0 + a0) in Hcut at 1. rewrite matchGroups_shift in Hcut.
  destruct (matchGroups (groups re) 0 m) as [ends0|] eqn:Hm0; [|done].
  injection Hcut as Hends.
  unfold FindStringSubmatch, doExecute. rewrite drop_0.
  assert (Hfind : findFrom (groups re) 0 m = Some (0, ends0)).
  { destruct m; cbn [findFrom]; by rewrite Hm0. }
  rewrite Hfind.
  pose proof (matchGroups_sorted _ _ _ _ Hm0) as [Hs0 _].
  assert (Hend : matchEnd 0 ends0 + a0 = matchEnd a0 ends).
  { rewrite <- Hends. change a0 with (0 + a0) at 2. by rewrite matchEnd_shift. }
  f_equal.
  - unfold substr at 1. rewrite drop_0. apply take_ge.
    unfold m, substr. rewrite length_take. lia.
  - unfold m. rewrite (groupTexts_within src a0 (matchEnd a0 ends) 0 ends0); [|done|].
    + by rewrite Hends.
    + by rewrite Hends.
Qed.

Lemma groupTexts_concat (src : gostring) (lo : nat) (ends : list nat) :
  StronglySorted le (lo :: ends) ->
  concat (groupTexts src lo ends) = substr src lo (matchEnd lo ends).
Proof.
  revert lo. induction ends as [|e ends IH]; intros lo Hs.
  - cbn. unfold substr. by rewrite Nat.sub_diag.
  - cbn [groupTexts concat]. apply StronglySorted_inv in Hs as [Hs Hall].
    rewrite IH by done. apply Forall_cons in Hall as [Hle _].
    destruct (sorted_last _ _ Hs) as [Hge _].
    unfold matchEnd in *. rewrite last_cons_default.
    unfold substr.
    replace (drop e src) with (drop (e - lo) (drop lo src))
      by (rewrite drop_drop; f_equal; lia).
    replace (List.last ends e - lo) with ((e - lo) + (List.last ends e - e)) by lia.
    by rewrite take_take_drop.
Qed.

End RematchProofs.

(** ** What the replacement loop keeps *)

Section RelatedProofs.
Variable R : gostring -> gostring -> Prop.
Hypothesis R_same : forall s, R s s.
Hypothesis R_app : forall s s' t t', R s s' -> R t t' -> R (s ++ t) (s' ++ t').

(** When every match is replaced by something related to it, the result
    of the loop is related to the text. *)
Lemma replaceLoop_related fuel re src repl lastMatchEnd searchPos buf r :
  (forall pos a0 ends, (pos <= length src)%nat ->
     doExecute re src pos = Some (a0, ends) ->
     R (substr src a0 (matchEnd a0 ends)) (repl (substr src a0 (matchEnd a0 ends)))) ->
  (lastMatchEnd <= searchPos)%nat ->
  R (take lastMatchEnd src) buf ->
  replaceLoop fuel re src repl lastMatchEnd searchPos buf = Some r ->
  R src r.
Proof.
  intros Hrepl. revert lastMatchEnd searchPos buf.
  induction fuel as [|fuel IH]; intros lastMatchEnd searchPos buf Hle Hbuf; [done|].
  cbn [replaceLoop].
  assert (Hend : R src (buf ++ drop lastMatchEnd src)).
  { rewrite <- (take_drop lastMatchEnd src) at 1. by apply R_app. }
  destruct (searchPos <=? length src)%nat eqn:Hpos; [|by intros [= <-]].
  apply Nat.leb_le in Hpos.
  destruct (doExecute re src searchPos) as [[a0 ends]|] eqn:Hm; [|by intros [= <-]].
  pose proof (doExecute_bounds _ _ _ _ _ Hm) as [Ha0 Ha1].
  cbv zeta. apply IH.
  - repeat case_match; rewrite ?Nat.ltb_lt, ?Nat.ltb_ge in *; lia.
  - assert (Hbuf1 : R (take a0 src) (buf ++ substr src lastMatchEnd a0)).
    { rewrite <- (take_substr src lastMatchEnd a0) by lia. by apply R_app. }
    destruct ((lastMatchEnd <? matchEnd a0 ends)%nat || (a0 =? 0)%nat) eqn:Hc.
    + rewrite <- (take_substr src a0 (matchEnd a0 ends)) by lia.
      apply R_app; [done|]. by apply (Hrepl searchPos).
    + apply orb_false_iff in Hc as [Hc _]. apply Nat.ltb_ge in Hc.
      replace (matchEnd a0 ends) with a0 by lia. done.
Qed.

Lemma ReplaceAllStringFunc_related re src repl :
  (forall pos a0 ends, (pos <= length src)%nat ->
     doExecute re src pos = Some (a0, ends) ->
     R (substr src a0 (matchEnd a0 ends)) (repl (substr src a0 (matchEnd a0 ends)))) ->
  R src (ReplaceAllStringFunc re src repl).
Proof.
  intros Hrepl.
  apply (replaceLoop_related (length src + 2) re src repl 0 0 []); try done.
  apply ReplaceAllStringFunc_loop.
Qed.

End RelatedProofs.

(** ** The replacement functions of [embedImages] *)

Section CallbackProofs.
Context {env : Externals}.

Lemma doExecute_sorted re src pos a0 ends :
  doExecute re src pos = Some (a0, ends) ->
  StronglySorted le (a0 :: ends) /\ length ends = length (groups re).
Proof.
  unfold doExecute. intros [_ Hm]%findFrom_start. by apply matchGroups_sorted in Hm.
Qed.

Lemma patterns_prefixFree re : re ∈ patterns -> prefixFreeRegexp re = true.
Proof.
  unfold patterns. intros H.
  repeat (apply elem_of_cons in H as [->|H]; [by vm_compute|]). by apply elem_of_nil in H.
Qed.

Lemma patterns_groups re : re ∈ patterns -> length (groups re) = 4%nat.
Proof.
  unfold patterns. intros H.
  repeat (apply elem_of_cons in H as [->|H]; [done|]). by apply elem_of_nil in H.
Qed.

(** The parts that a replacement function of [embedImages] gets for a
    match found in [content]. *)
Lemma match_parts re content pos a0 ends :
  re ∈ patterns ->
  doExecute re content pos = Some (a0, ends) ->
  let m := substr content a0 (matchEnd a0 ends) in
  exists prefix quote src endQuote,
    FindStringSubmatch re m = [m; prefix; quote; src; endQuote]
    /\ m = prefix ++ quote ++ src ++ endQuote.
Proof.
  intros Hre Hm m.
  pose proof (FindStringSubmatch_match re content pos a0 ends (patterns_prefixFree re Hre) Hm)
    as Hfind. cbv zeta in Hfind. fold m in Hfind.
  destruct (doExecute_sorted _ _ _ _ _ Hm) as [Hs Hl]. rewrite (patterns_groups re Hre) in Hl.
  pose proof (groupTexts_concat content a0 ends Hs) as Hcat. fold m in Hcat.
  destruct ends as [|e1 [|e2 [|e3 [|e4 [|]]]]]; try discriminate Hl.
  cbn [groupTexts concat] in Hfind, Hcat. rewrite app_nil_r in Hcat.
  eexists _, _, _, _. split; [exact Hfind|]. by rewrite Hcat.
Qed.

(** X9: a replacement function of [embedImages] matches its pattern again
    on the text of the match alone.  For each of the three patterns, doing
    so on a match that the search found in the document gives five parts:
    the whole text, and the four groups that the search delimited, which
    concatenate to the whole text.  So the guard [len(parts) < 5] never
    fires there. *)
Theorem FindStringSubmatch_on_match re content pos a0 ends :
  re ∈ patterns ->
  doExecute re content pos = Some (a0, ends) ->
  let m := substr content a0 (matchEnd a0 ends) in
  exists prefix quote src endQuote,
    FindStringSubmatch re m = [m; prefix; quote; src; endQuote]
    /\ m = prefix ++ quote ++ src ++ endQuote
    /\ [prefix; quote; src; endQuote] = groupTexts content a0 ends.
Proof.
  intros Hre Hm m.
  pose proof (FindStringSubmatch_match re content pos a0 ends (patterns_prefixFree re Hre) Hm)
    as Hfind. cbv zeta in Hfind. fold m in Hfind.
  destruct (match_parts re content pos a0 ends Hre Hm) as (p & q & s & e & Hparts & Hcat).
  fold m in Hparts, Hcat. exists p, q, s, e. split; [done|]. split; [done|]. congruence.
Qed.

Lemma callback_cases basePath files re repl content pos a0 ends :
  (re, repl) ∈ [ (imgSrcRegex, imgSrcRepl basePath files);
                 (xlinkRegex, xlinkRepl basePath files);
                 (urlRegex, urlRepl basePath files) ] ->
  doExecute re content pos = Some (a0, ends) ->
  let m := substr content a0 (matchEnd a0 ends) in
  exists prefix quote src endQuote,
    m = prefix ++ quote ++ src ++ endQuote
    /\ (repl m = m
        \/ (resolveAndEmbed src basePath files <> ""
            /\ repl m = prefix ++ quote ++ resolveAndEmbed src basePath files ++ endQuote)).
Proof.
  intros Hin Hm m.
  assert (Hcases : (re = imgSrcRegex /\ repl = imgSrcRepl basePath files)
                   \/ (re = xlinkRegex /\ repl = xlinkRepl basePath files)
                   \/ (re = urlRegex /\ repl = urlRepl basePath files)).
  { rewrite !elem_of_cons, elem_of_nil in Hin.
    destruct Hin as [[= -> ->]|[[= -> ->]|[[= -> ->]|[]]]]; auto. }
  assert (Hre : re ∈ patterns).
  { unfold patterns. destruct Hcases as [[-> _]|[[-> _]|[-> _]]];
      repeat first [apply list_elem_of_here | apply list_elem_of_further]. }
  destruct (match_parts re content pos a0 ends Hre Hm) as (p & q & s & e & Hparts & Hcat).
  fold m in Hparts, Hcat. exists p, q, s, e. split; [done|].
  destruct (streq (resolveAndEmbed s basePath files) "") eqn:Huri.
  - left. destruct Hcases as [[-> ->]|[[-> ->]|[-> ->]]];
      unfold imgSrcRepl, xlinkRepl, urlRepl; rewrite Hparts;
      cbn [length Nat.ltb Nat.leb part nth]; rewrite Huri; cbn [negb];
      try done; by destruct (isImageFile s).
  - apply streq_false in Huri as Hne.
    destruct Hcases as [[-> ->]|[[-> ->]|[-> ->]]];
      unfold imgSrcRepl, xlinkRepl, urlRepl; rewrite Hparts;
      cbn [length Nat.ltb Nat.leb part nth]; rewrite Huri; cbn [negb];
      try (destruct (isImageFile s); [|by left]); by right.
Qed.

(** X10: for a match found in the document, each of the three replacement
    functions returns either the match as it is or the match with the
    reference replaced by its data URI, which is then not empty: the text
    before the reference and both quotes are kept. *)
Theorem replacement_keeps_surroundings basePath files re repl content pos a0 ends :
  (re, repl) ∈ [ (imgSrcRegex, imgSrcRepl basePath files);
                 (xlinkRegex, xlinkRepl basePath files);
                 (urlRegex, urlRepl basePath files) ] ->
  doExecute re content pos = Some (a0, ends) ->
  let m := substr content a0 (matchEnd a0 ends) in
  exists prefix quote src endQuote,
    m = prefix ++ quote ++ src ++ endQuote
    /\ (repl m = m
        \/ (resolveAndEmbed src basePath files <> ""
            /\ repl m = prefix ++ quote ++ resolveAndEmbed src basePath files ++ endQuote)).
Proof. apply callback_cases. Qed.

Lemma callback_substitutes basePath files re repl content pos a0 ends :
  (re, repl) ∈ [ (imgSrcRegex, imgSrcRepl basePath files);
                 (xlinkRegex, xlinkRepl basePath files);
                 (urlRegex, urlRepl basePath files) ] ->
  doExecute re content pos = Some (a0, ends) ->
  substitutes basePath files (substr content a0 (matchEnd a0 ends))
    (repl (substr content a0 (matchEnd a0 ends))).
Proof.
  intros Hin Hm.
  destruct (callback_cases basePath files re repl content pos a0 ends Hin Hm)
    as (p & q & s & e & Hcat & [->|[Hne ->]]); [apply substitutes_same|].
  rewrite Hcat. repeat (apply substitutes_app; try apply substitutes_same).
  by apply substitutes_reference.
Qed.

Lemma embedImages_related content basePath files :
  substitutes basePath files content (embedImages content basePath files).
Proof.
  unfold embedImages.
  eapply substitutes_then; [eapply substitutes_then|].
  - apply (ReplaceAllStringFunc_related _ (substitutes_same _ _) (substitutes_app _ _)).
    intros pos a0 ends _. apply callback_substitutes. apply list_elem_of_here.
  - apply (ReplaceAllStringFunc_related _ (substitutes_same _ _) (substitutes_app _ _)).
    intros pos a0 ends _. apply callback_substitutes.
    apply list_elem_of_further, list_elem_of_here.
  - apply (ReplaceAllStringFunc_related _ (substitutes_same _ _) (substitutes_app _ _)).
    intros pos a0 ends _. apply callback_substitutes.
    do 2 apply list_elem_of_further. apply list_elem_of_here.
Qed.

Lemma substitutes_nothing basePath files s t :
  (forall src, resolveAndEmbed src basePath files = "") ->
  substitutes basePath files s t -> s = t.
Proof.
  intros Hnone. induction 1 as [s|src Hne|s s' t t' _ -> _ ->|s t u _ -> _ ->]; try done.
  by rewrite Hnone in Hne.
Qed.

(** X7: all that [embedImages] does to a document is to put data URIs in
    the place of pieces of it: the result comes from the document by
    replacing pieces [src] by [resolveAndEmbed src basePath files], which
    is not empty; no other byte is added, dropped or changed. *)
Theorem embedImages_substitutes content basePath files :
  substitutes basePath files content (embedImages content basePath files).
Proof. apply embedImages_related. Qed.

(** X8: when no entry of the archive can be read (an empty archive is
    one case), [embedImages] returns the document unchanged. *)
Theorem embedImages_nothing_readable content basePath files :
  (forall name zipFile, files !! name = Some zipFile -> readBinaryContent zipFile = None) ->
  embedImages content basePath files = content.
Proof.
  intros Hunreadable. symmetry.
  apply (substitutes_nothing basePath files); [|apply embedImages_related].
  intros src. destruct (selfContained src) eqn:Hs; [by apply resolveAndEmbed_selfContained|].
  rewrite resolveAndEmbed_found by done.
  destruct (findImage _ _ _) as [zipFile|] eqn:Hfind; [|done].
  unfold payloadOf. replace (readBinaryContent zipFile) with (@None gostring); [done|].
  symmetry. unfold findImage in Hfind.
  repeat match type of Hfind with
         | match ?m !! ?k with _ => _ end = _ =>
             let E := fresh "E" in
             destruct (m !! k) eqn:E; [injection Hfind as ->; by eapply Hunreadable|]
         end.
  by eapply Hunreadable.
Qed.

End CallbackProofs.

Lemma FindStringSubmatch_on_match_witness :
  exists prefix quote src endQuote,
    FindStringSubmatch imgSrcRegex "<img alt='' src='../img/cover.png'"
    = ["<img alt='' src='../img/cover.png'"; prefix; quote; src; endQuote].
Proof.
  destruct (FindStringSubmatch_on_match imgSrcRegex
              "<p>One</p><img alt='' src='../img/cover.png'/>" 0 10 [26; 27; 43; 44]%nat)
    as (p & q & s & e & H & _); [apply list_elem_of_here|reflexivity|].
  exists p, q, s, e. exact H.
Defined.

Lemma replacement_keeps_surroundings_witness :
  exists prefix quote src endQuote,
    ("<img alt='' src='../img/cover.png'" : gostring) = prefix ++ quote ++ src ++ endQuote.
Proof.
  destruct (replacement_keeps_surroundings (env := Sample.externals) "OEBPS/text" Sample.files
              imgSrcRegex (imgSrcRepl (env := Sample.externals) "OEBPS/text" Sample.files)
              "<p>One</p><img alt='' src='../img/cover.png'/>" 0 10 [26; 27; 43; 44]%nat)
    as (p & q & s & e & H & _); [apply list_elem_of_here|reflexivity|].
  exists p, q, s, e. exact H.
Defined.

Lemma embedImages_nothing_readable_witness :
  embedImages (env := Sample.externals) "<img src='a.png'>" "OEBPS"
    {[ ("OEBPS/a.png" : gostring) := ZipFile.mk "OEBPS/a.png" None ]}
  = "<img src='a.png'>".
Proof.
  apply (embedImages_nothing_readable (env := Sample.externals)).
  intros name zipFile [_ <-]%lookup_singleton_Some. reflexivity.
Defined.

(** ** A document with one image *)

Section SingleMatch.
Local Open Scope nat_scope.

Lemma runeWidth_le (s : gostring) : GoUTF8.runeWidth s <= 4.
Proof.
  unfold GoUTF8.runeWidth. destruct s as [|s0 t]; [lia|].
  destruct (GoUTF8.first _) as [[[sz lo] hi]|]; [|lia].
  repeat (case_match; try lia).
Qed.

(** A text with one match: what is before the match, the replacement of
    the match, what is after it. *)
Lemma ReplaceAllStringFunc_single re src repl a0 ends :
  doExecute re src 0 = Some (a0, ends) ->
  4 <= matchEnd a0 ends ->
  doExecute re src (matchEnd a0 ends) = None ->
  ReplaceAllStringFunc re src repl
  = take a0 src ++ repl (substr src a0 (matchEnd a0 ends)) ++ drop (matchEnd a0 ends) src.
Proof.
  intros Hm Hlong Hnone. unfold ReplaceAllStringFunc.
  replace (length src + 2) with (S (S (length src))) by lia.
  cbn [replaceLoop]. rewrite Hm. cbn [Nat.leb]. cbv zeta.
  replace ((0 <? matchEnd a0 ends) || (a0 =? 0)) with true
    by (symmetry; apply orb_true_intro; left; apply Nat.ltb_lt; lia).
  pose proof (runeWidth_le (drop 0 src)) as Hw.
  replace (matchEnd a0 ends <? 0 + GoUTF8.runeWidth (drop 0 src)) with false
    by (symmetry; apply Nat.ltb_ge; lia).
  replace (matchEnd a0 ends <? 0 + 1) with false by (symmetry; apply Nat.ltb_ge; lia).
  rewrite Hnone.
  assert (Hs : substr src 0 a0 = take a0 src) by (unfold substr; by rewrite Nat.sub_0_r, drop_0).
  rewrite !Hs. cbn [app].
  destruct (matchEnd a0 ends <=? length src); cbn [default]; by rewrite <- app_assoc.
Qed.

Lemma runePrefix_width encodings s w :
  runePrefix encodings s = Some w ->
  (if forallb (fun e => negb (streq e "")) encodings then 1 else 0) <= w.
Proof.
  induction encodings as [|e encodings IH]; [done|]. cbn [runePrefix forallb].
  destruct (HasPrefix s e).
  - intros [= <-]. destruct e; simpl; [lia|]. destruct (forallb _ _); lia.
  - intros Hw%IH. destruct (negb (streq e "")); simpl; [done|lia].
Qed.

Lemma matchNodes_from_width ns k i s r :
  matchNodes ns k i s = Some r ->
  exists j t, i + minWidth ns <= j /\ k j t = Some r.
Proof.
  revert i s. induction ns as [|n ns IH]; intros i s; cbn [matchNodes minWidth].
  - intros H. exists i, s. split; [lia|done].
  - destruct n as [encodings|p|p|p|p].
    + destruct (runePrefix encodings s) as [w|] eqn:Hw; [|done].
      apply runePrefix_width in Hw.
      intros (j & t & Hj & Hk)%IH. exists j, t. split; [lia|done].
    + destruct s as [|c s]; [done|]. destruct (p c); [|done].
      intros (j & t & Hj & Hk)%IH. exists j, t. split; [lia|done].
    + intros (j & t & Hj & (j' & t' & Hj' & Hk)%IH)%starLoop_from.
      exists j', t'. split; [lia|done].
    + destruct s as [|c s]; [done|]. destruct (p c); [|done].
      intros (j & t & Hj & (j' & t' & Hj' & Hk)%IH)%starLoop_from.
      exists j', t'. split; [lia|done].
    + destruct s as [|c s]; [apply IH|].
      destruct (p c); [|apply IH].
      destruct (matchNodes ns k (S i) s) as [r'|] eqn:E; [|apply IH].
      intros [= <-]. apply IH in E as (j & t & Hj & Hk). exists j, t. split; [lia|done].
Qed.

(** A match takes at least the bytes that its first group takes. *)
Lemma doExecute_width re g gs src pos a0 ends :
  groups re = g :: gs ->
  doExecute re src pos = Some (a0, ends) ->
  a0 + minWidth g <= matchEnd a0 ends.
Proof.
  intros Hg Hm. unfold doExecute in Hm. apply findFrom_start in Hm as [_ Hm].
  pose proof (matchGroups_sorted _ _ _ _ Hm) as [Hs _].
  rewrite Hg in Hm. cbn [matchGroups] in Hm.
  apply matchNodes_from_width in Hm as (j & t & Hj & Hk).
  destruct (matchGroups gs j t) as [r'|]; [|done]. injection Hk as <-.
  apply StronglySorted_inv in Hs as [Hs _]. apply sorted_last in Hs as [Hle _].
  unfold matchEnd in *. rewrite last_cons_default. lia.
Qed.

End SingleMatch.

Section SingleImage.
Context {env : Externals}.

Lemma substr_drop (src : gostring) (lo hi : nat) :
  (lo <= hi)%nat -> substr src lo hi ++ drop hi src = drop lo src.
Proof.
  intros Hle. unfold substr.
  replace (drop hi src) with (drop (hi - lo) (drop lo src))
    by (rewrite drop_drop; f_equal; lia).
  apply take_drop.
Qed.

Lemma embedImages_single content basePath files a0 e1 e2 e3 e4 :
  doExecute imgSrcRegex content 0 = Some (a0, [e1; e2; e3; e4]) ->
  doExecute imgSrcRegex content e4 = None ->
  let src := substr content e2 e3 in
  let uri := resolveAndEmbed src basePath files in
  let out := take e2 content ++ uri ++ drop e3 content in
  uri <> "" ->
  MatchString xlinkRegex out = false ->
  MatchString urlRegex out = false ->
  embedImages content basePath files = out.
Proof.
  intros Hm Hnone src uri out Huri Hxlink Hurl.
  pose proof (doExecute_width imgSrcRegex _ _ content 0 a0 _ eq_refl Hm) as Hw.
  change (minWidth _) with 9%nat in Hw.
  change (matchEnd a0 [e1; e2; e3; e4]) with e4 in Hw.
  destruct (doExecute_sorted _ _ _ _ _ Hm) as [Hs _].
  assert (Hle : (a0 <= e1 /\ e1 <= e2 /\ e2 <= e3 /\ e3 <= e4)%nat).
  { repeat (apply StronglySorted_inv in Hs as [Hs Hall]; apply Forall_cons in Hall as [? _]).
    lia. }
  pose proof (FindStringSubmatch_match imgSrcRegex content 0 a0 _ eq_refl Hm) as Hparts.
  cbv zeta in Hparts. cbn [groupTexts] in Hparts.
  change (matchEnd a0 [e1; e2; e3; e4]) with e4 in Hparts.
  assert (Himg : ReplaceAllStringFunc imgSrcRegex content (imgSrcRepl basePath files) = out).
  { rewrite (ReplaceAllStringFunc_single _ _ _ a0 [e1; e2; e3; e4]) by (done || (cbn; lia)).
    change (matchEnd a0 [e1; e2; e3; e4]) with e4.
    unfold imgSrcRepl. rewrite Hparts. cbn [length Nat.ltb Nat.leb part nth].
    fold src. fold uri.
    replace (streq uri "") with false by (symmetry; by apply streq_false).
    cbn [negb]. unfold out.
    rewrite <- (take_substr content e1 e2), <- (take_substr content a0 e1) by lia.
    rewrite <- (substr_drop content e3 e4) by lia.
    by rewrite <- !app_assoc. }
  unfold embedImages. rewrite Himg.
  rewrite (ReplaceAllStringFunc_no_match xlinkRegex) by done.
  by rewrite (ReplaceAllStringFunc_no_match urlRegex).
Qed.

(** X6: when the image pattern has one match in the document (none from
    the end of the first one on), the reference of that match has a data
    URI, and the result holds no match of the other two patterns,
    [embedImages] returns the document with the bytes of the reference
    replaced by the data URI and all others unchanged. *)
Theorem embedImages_single_image content basePath files a0 e1 e2 e3 e4 :
  doExecute imgSrcRegex content 0 = Some (a0, [e1; e2; e3; e4]) ->
  doExecute imgSrcRegex content e4 = None ->
  let src := substr content e2 e3 in
  let uri := resolveAndEmbed src basePath files in
  let out := take e2 content ++ uri ++ drop e3 content in
  uri <> "" ->
  MatchString xlinkRegex out = false ->
  MatchString urlRegex out = false ->
  embedImages content basePath files = out.
Proof. apply embedImages_single. Qed.

End SingleImage.

Lemma embedImages_single_image_witness :
  embedImages (env := Sample.externals)
    "<html><body><p>One</p><img alt='' src='../img/cover.png'/></body></html>"
    "OEBPS/text" Sample.files
  = "<html><body><p>One</p><img alt='' src='data:image/png;base64,UE5HLWJ5dGVz'/></body></html>".
Proof.
  apply (embedImages_single_image (env := Sample.externals)
           "<html><body><p>One</p><img alt='' src='../img/cover.png'/></body></html>"
           "OEBPS/text" Sample.files 22 38 39 55 56);
    vm_compute; (reflexivity || discriminate).
Defined.

(** ** Backtracking *)

Section Backtracking.
Local Open Scope nat_scope.

(** The greedy loop reaches every offset of a run of bytes it accepts: a
    match from the end of the run is the match of the loop. *)
Lemma starLoop_skip p (k : continuation) i run rest r :
  Forall (fun c => p c = true) run ->
  starLoop p k (i + length run) rest = Some r ->
  starLoop p k i (run ++ rest) = Some r.
Proof.
  revert i. induction run as [|d run IH]; intros i Hrun Hr.
  - by rewrite Nat.add_0_r in Hr.
  - apply Forall_cons in Hrun as [Hd Hrun]. cbn [app starLoop]. rewrite Hd.
    rewrite (IH (S i)); [done|done|]. by replace (S i + length run) with (i + length (d :: run))
      by (simpl; lia).
Qed.

(** When what follows the loop matches nowhere inside a run that ends at
    a byte the loop refuses, the loop gives back the whole run. *)
Lemma starLoop_giveback p (k : continuation) i run c u :
  Forall (fun c => p c = true) run -> p c = false ->
  (forall x y, run = x ++ y -> x <> [] -> k (i + length x) (y ++ c :: u) = None) ->
  starLoop p k i (run ++ c :: u) = k i (run ++ c :: u).
Proof.
  revert i. induction run as [|d run IH]; intros i Hrun Hc Hnone.
  - cbn [app starLoop]. by rewrite Hc.
  - apply Forall_cons in Hrun as [Hd Hrun]. cbn [app starLoop]. rewrite Hd.
    rewrite (IH (S i)); [|done|done|].
    + specialize (Hnone [d] run eq_refl). cbn [length] in Hnone.
      replace (i + 1) with (S i) in Hnone by lia. by rewrite Hnone.
    + intros x y -> Hx. specialize (Hnone (d :: x) y eq_refl).
      cbn [length] in Hnone. replace (i + S (length x)) with (S i + length x) in Hnone by lia.
      by apply Hnone.
Qed.

(** *** A byte that stops the match *)

Lemma HasPrefix_mentions (b : ascii) (y u e : gostring) :
  mentions b e = false -> HasPrefix (y ++ b :: u) e = true ->
  exists y', y = e ++ y'.
Proof.
  revert y. induction e as [|c e IH]; intros y Hb Hp; [by exists y|].
  cbn [mentions existsb] in Hb. apply orb_false_elim in Hb as [Hbc Hb].
  destruct y as [|d y]; cbn [app HasPrefix] in Hp.
  - apply andb_prop in Hp as [Hc _]. by rewrite Hbc in Hc.
  - apply andb_prop in Hp as [Hc Hp]. apply Ascii.eqb_eq in Hc as ->.
    destruct (IH y Hb Hp) as [y' ->]. by exists y'.
Qed.

Lemma runePrefix_avoids (b : ascii) encodings (y u : gostring) w :
  forallb (fun e => negb (mentions b e)) encodings = true ->
  runePrefix encodings (y ++ b :: u) = Some w ->
  exists y', y = take w y ++ y' /\ drop w (y ++ b :: u) = y' ++ b :: u /\ length (take w y) = w.
Proof.
  intros Hav Hw. apply runePrefix_Some in Hw as (e & Hin & Hp & <-).
  rewrite forallb_forall in Hav. apply list_elem_of_In in Hin.
  specialize (Hav e Hin). apply negb_true_iff in Hav.
  destruct (HasPrefix_mentions b y u e Hav Hp) as [y' ->].
  exists y'. rewrite take_app_length, <- app_assoc, drop_app_length. done.
Qed.

Lemma mentions_app_false (x : ascii) (s t : gostring) :
  mentions x (s ++ t) = false -> mentions x s = false /\ mentions x t = false.
Proof. unfold mentions. rewrite existsb_app. apply orb_false_elim. Qed.

Lemma starLoop_barrier (x b : ascii) p (k : continuation) i y u :
  p b = false ->
  (forall j y', mentions x y' = false -> k j (y' ++ b :: u) = None) ->
  mentions x y = false ->
  starLoop p k i (y ++ b :: u) = None.
Proof.
  intros Hb Hk. revert i. induction y as [|d y IH]; intros i Hy.
  - cbn [app starLoop]. rewrite Hb. by apply (Hk i []).
  - cbn [app starLoop].
    assert (Hy' : mentions x y = false).
    { cbn [mentions existsb] in Hy. by apply orb_false_elim in Hy as [_ ?]. }
    rewrite (IH (S i) Hy'). destruct (p d); by apply (Hk i (d :: y)).
Qed.

Lemma matchNodes_barrier (x b : ascii) ns (k : continuation) i y u :
  needsBefore x b ns = true -> x <> b -> mentions x y = false ->
  matchNodes ns k i (y ++ b :: u) = None.
Proof.
  intros Hns Hxb. revert i y. induction ns as [|n ns IH]; intros i y Hy; [done|].
  cbn [needsBefore] in Hns. apply orb_prop in Hns as [Hreq|[Hav Hns]%andb_prop].
  - destruct n as [[|[|c []] []]| | | |]; try done. cbn [requires] in Hreq.
    apply Ascii.eqb_eq in Hreq as <-. cbn [matchNodes runePrefix].
    destruct y as [|d y]; cbn [app HasPrefix].
    + replace (Ascii.eqb b x) with false; [done|]. symmetry. apply Ascii.eqb_neq. congruence.
    + cbn [mentions existsb] in Hy. apply orb_false_elim in Hy as [Hd _].
      rewrite Ascii.eqb_sym, Hd. done.
  - specialize (IH Hns). destruct n as [encodings|p|p|p|p]; cbn [avoids] in Hav;
      cbn [matchNodes].
    + destruct (runePrefix encodings (y ++ b :: u)) as [w|] eqn:Hw; [|done].
      destruct (runePrefix_avoids b encodings y u w Hav Hw) as (y' & Hy' & -> & _).
      apply IH. rewrite Hy' in Hy. by apply mentions_app_false in Hy as [_ ?].
    + apply negb_true_iff in Hav. destruct y as [|d y]; cbn [app].
      * by rewrite Hav.
      * destruct (p d); [|done]. apply IH.
        cbn [mentions existsb] in Hy. by apply orb_false_elim in Hy as [_ ?].
    + apply negb_true_iff in Hav. by apply (starLoop_barrier x b).
    + apply negb_true_iff in Hav. destruct y as [|d y]; cbn [app].
      * by rewrite Hav.
      * destruct (p d); [|done]. apply (starLoop_barrier x b); [done|by intros; apply IH|].
        cbn [mentions existsb] in Hy. by apply orb_false_elim in Hy as [_ ?].
    + apply negb_true_iff in Hav. destruct y as [|d y]; cbn [app].
      * rewrite Hav. by apply (IH i []).
      * assert (Hy' : mentions x y = false).
        { cbn [mentions existsb] in Hy. by apply orb_false_elim in Hy as [_ ?]. }
        rewrite (IH (S i) y Hy'). destruct (p d); by apply (IH i (d :: y)).
Qed.

End Backtracking.

(** ** Where an image element is found *)

Section ImgTag.
Local Open Scope nat_scope.

Lemma matchNodes_app ns1 ns2 (k : continuation) i s :
  matchNodes (ns1 ++ ns2) k i s = matchNodes ns1 (matchNodes ns2 k) i s.
Proof.
  revert i s. induction ns1 as [|n ns1 IH]; intros i s; [done|].
  assert (Hstar : forall p j t,
            starLoop p (matchNodes (ns1 ++ ns2) k) j t
            = starLoop p (matchNodes ns1 (matchNodes ns2 k)) j t).
  { intros p j t. revert j. induction t as [|c t IHt]; intros j; cbn [starLoop]; [apply IH|].
    rewrite IHt, IH. done. }
  destruct n as [encodings|p|p|p|p]; cbn [app matchNodes].
  - destruct (runePrefix encodings s); [apply IH|done].
  - destruct s as [|c s]; [done|]. destruct (p c); [apply IH|done].
  - apply Hstar.
  - destruct s as [|c s]; [done|]. destruct (p c); [apply Hstar|done].
  - destruct s as [|c s]; [apply IH|]. by rewrite !IH.
Qed.

(** *** Where the search finds its match *)

Lemma findFrom_None gs i s n :
  findFrom gs i s = None -> n <= length s -> matchGroups gs (i + n) (drop n s) = None.
Proof.
  revert i n. induction s as [|c s IH]; intros i n; cbn [findFrom].
  - destruct (matchGroups gs i []) eqn:E; [done|]. intros _ Hn. simpl in Hn.
    replace n with 0 by lia. by rewrite Nat.add_0_r.
  - destruct (matchGroups gs i (c :: s)) eqn:E; [done|]. intros Hf Hn.
    destruct n as [|n]; [by rewrite Nat.add_0_r|].
    cbn [drop]. replace (i + S n) with (S i + n) by lia. apply IH; [done|simpl in Hn; lia].
Qed.

Lemma findFrom_None_intro gs i s :
  (forall n, n <= length s -> matchGroups gs (i + n) (drop n s) = None) ->
  findFrom gs i s = None.
Proof.
  revert i. induction s as [|c s IH]; intros i Hall; cbn [findFrom].
  - specialize (Hall 0 (Nat.le_refl _)). rewrite Nat.add_0_r in Hall. cbn [drop] in Hall.
    by rewrite Hall.
  - pose proof (Hall 0 ltac:(lia)) as H0. rewrite Nat.add_0_r in H0. cbn [drop] in H0.
    rewrite H0. apply IH. intros n Hn. specialize (Hall (S n)). cbn [drop length] in Hall.
    replace (S i + n) with (i + S n) by lia. apply Hall. lia.
Qed.

Lemma findFrom_first gs i s m ends :
  (forall n, n < m -> matchGroups gs (i + n) (drop n s) = None) ->
  m <= length s ->
  matchGroups gs (i + m) (drop m s) = Some ends ->
  findFrom gs i s = Some (i + m, ends).
Proof.
  revert i m. induction s as [|c s IH]; intros i m Hnone Hm Hends.
  - simpl in Hm. assert (m = 0) as -> by lia. rewrite Nat.add_0_r in *.
    cbn [findFrom]. cbn [drop] in Hends. by rewrite Hends.
  - destruct m as [|m].
    + rewrite Nat.add_0_r in *. cbn [findFrom]. cbn [drop] in Hends. by rewrite Hends.
    + cbn [findFrom]. pose proof (Hnone 0 ltac:(lia)) as H0.
      rewrite Nat.add_0_r in H0. cbn [drop] in H0. rewrite H0.
      replace (i + S m) with (S i + m) in * by lia. apply IH.
      * intros n Hn. specialize (Hnone (S n) ltac:(lia)). cbn [drop] in Hnone.
        by replace (S i + n) with (i + S n) by lia.
      * simpl in Hm. lia.
      * done.
Qed.

(** *** The start of the image pattern *)

Ltac orbits :=
  repeat match goal with
         | |- context [foldOrbit ?c] =>
             let v := eval vm_compute in (foldOrbit c) in change (foldOrbit c) with v
         end.

Lemma img_groups :
  groups imgSrcRegex = (imgStart ++ Star (noneOf ">") :: srcAttr) :: quoted.
Proof. reflexivity. Qed.

Lemma imgStart_spec (k : continuation) i t :
  matchNodes imgStart k i t = if startsImg t then k (i + 4) (drop 4 t) else None.
Proof.
  unfold imgStart, lit, startsImg. cbn [map matchNodes]. orbits.
  destruct t as [|c0 [|c1 [|c2 [|c3 t]]]]; cbn [runePrefix HasPrefix drop];
    repeat (match goal with
            | |- context [Ascii.eqb ?c ?d] => destruct (Ascii.eqb c d); cbn
            end);
    try done; f_equal; lia.
Qed.

Lemma startsImg_app t u :
  t <> [] -> startsImg (t ++ "<"%char :: u) = startsImg t.
Proof.
  intros Ht. destruct t as [|c0 [|c1 [|c2 [|c3 t]]]]; [done|..];
    destruct u as [|u1 [|u2 [|u3 u]]]; cbn;
    repeat (match goal with
            | |- context [Ascii.eqb ?c ?d] => destruct (Ascii.eqb c d); cbn
            end);
    done.
Qed.

Lemma noImgTag_spec text n :
  noImgTag text -> n <= length text -> startsImg (drop n text) = false.
Proof.
  unfold noImgTag, MatchString, doExecute. cbn [groups]. rewrite drop_0.
  destruct (findFrom [lit "<img"] 0 text) eqn:Hf; [done|]. intros _ Hn.
  apply (findFrom_None _ _ _ n) in Hf; [|done]. cbn [matchGroups] in Hf.
  fold imgStart in Hf. rewrite imgStart_spec in Hf. by destruct (startsImg (drop n text)).
Qed.

Lemma img_no_match i t :
  startsImg t = false -> matchGroups (groups imgSrcRegex) i t = None.
Proof.
  intros Ht. rewrite img_groups. cbn [matchGroups].
  by rewrite matchNodes_app, imgStart_spec, Ht.
Qed.

Lemma img_none_after text i :
  noImgTag text -> findFrom (groups imgSrcRegex) i text = None.
Proof.
  intros Hno. apply findFrom_None_intro. intros n Hn.
  apply img_no_match. by apply noImgTag_spec.
Qed.

End ImgTag.

(** ** The match of an image element *)

Section TagMatch.
Local Open Scope nat_scope.

Lemma class_step p c s (k : continuation) i ns :
  p c = true -> matchNodes (Class p :: ns) k i (c :: s) = matchNodes ns k (S i) s.
Proof. intros Hc. cbn [matchNodes]. by rewrite Hc. Qed.

Lemma class_fail p c s (k : continuation) i ns :
  p c = false -> matchNodes (Class p :: ns) k i (c :: s) = None.
Proof. intros Hc. cbn [matchNodes]. by rewrite Hc. Qed.

Lemma star_stop p c s (k : continuation) i ns :
  p c = false -> matchNodes (Star p :: ns) k i (c :: s) = matchNodes ns k i (c :: s).
Proof. intros Hc. cbn [matchNodes starLoop]. by rewrite Hc. Qed.

Lemma runePrefix_foldOrbit c s : runePrefix (foldOrbit c) (c :: s) = Some 1.
Proof.
  unfold foldOrbit. destruct (isLowerASCII c); cbn [app runePrefix HasPrefix];
    by rewrite Ascii.eqb_refl.
Qed.

Lemma lit_step w ns (k : continuation) i s :
  matchNodes (lit w ++ ns) k i (w ++ s) = matchNodes ns k (i + length w) s.
Proof.
  revert i. induction w as [|c w IH]; intros i.
  - cbn [lit map app length]. by rewrite Nat.add_0_r.
  - cbn [lit map app matchNodes length]. rewrite runePrefix_foldOrbit. cbn [drop].
    fold (lit w). rewrite IH. f_equal. lia.
Qed.

Lemma quote_cases q : oneOf quotes q = true -> q = dquote \/ q = "'"%char.
Proof.
  unfold oneOf, quotes. cbn [existsb]. rewrite orb_false_r.
  intros [H|H]%orb_prop; apply Ascii.eqb_eq in H; auto.
Qed.

Lemma mentions_noneOf x s :
  mentions x s = false -> Forall (fun c => noneOf [x] c = true) s.
Proof.
  induction s as [|c s IH]; [constructor|]. cbn [mentions existsb].
  intros [Hc Hs]%orb_false_elim. constructor; [|by apply IH].
  unfold noneOf. cbn [existsb]. by rewrite Ascii.eqb_sym, Hc.
Qed.

Lemma forallb_Forall_true {A} (p : A -> bool) l :
  forallb p l = true -> Forall (fun c => p c = true) l.
Proof. rewrite forallb_forall, Forall_forall. intros H x Hx. apply H. by apply list_elem_of_In. Qed.

Lemma lit_step_eq w ns (k : continuation) i s t :
  t = w ++ s -> matchNodes (lit w ++ ns) k i t = matchNodes ns k (i + length w) s.
Proof. intros ->. apply lit_step. Qed.

(** The image pattern on an image element: the match and its groups. *)
Lemma img_tag_match attrs q ref q' tagRest after i :
  mentions ">" attrs = false ->
  oneOf quotes q = true -> oneOf quotes q' = true ->
  ref <> "" -> forallb (noneOf quotes) ref = true ->
  mentions ">" ref = false -> mentions "=" ref = false ->
  mentions ">" tagRest = false -> mentions "=" tagRest = false ->
  matchGroups (groups imgSrcRegex) i
    ("<img" ++ attrs ++ (" src=" ++ q :: ref ++ q' :: tagRest) ++ ">"%char :: after)
  = Some [i + length attrs + 9; i + length attrs + 10;
          i + length attrs + 10 + length ref; i + length attrs + 11 + length ref].
Proof.
  intros Hattrs Hq Hq' Hne Hrefq Hrefgt Hrefeq Hrestgt Hresteq.
  assert (Hquote : forall c, oneOf quotes c = true ->
            noneOf ">" c = true /\ space c = false /\ noneOf quotes c = false
            /\ Ascii.eqb "=" c = false).
  { intros c [->| ->]%quote_cases; done. }
  destruct (Hquote q Hq) as (Hq1 & Hq2 & Hq3 & Hq4).
  destruct (Hquote q' Hq') as (Hq1' & Hq2' & Hq3' & Hq4').
  rewrite img_groups. cbn [matchGroups]. rewrite matchNodes_app, imgStart_spec.
  cbn [app startsImg drop]. cbn [Ascii.eqb Bool.eqb andb orb].
  set (kg := fun j t => cons j <$> matchGroups quoted j t).
  set (run := " "%char :: "s"%char :: "r"%char :: "c"%char :: "="%char
                :: q :: ref ++ q' :: tagRest).
  cbn [matchNodes]. rewrite drop_0.
  apply starLoop_skip; [by apply mentions_noneOf|].
  change (" "%char :: _) with (run ++ ">"%char :: after).
  rewrite starLoop_giveback.
  - unfold run, srcAttr. cbn [app].
    rewrite class_step by done.
    erewrite lit_step_eq; [|reflexivity].
    cbn [app]. rewrite star_stop by done.
    erewrite lit_step_eq; [|reflexivity].
    rewrite star_stop by done. cbn [matchNodes]. unfold kg, quoted. cbn [matchGroups].
    rewrite class_step by done.
    destruct ref as [|r0 ref]; [done|]. cbn [forallb] in Hrefq.
    apply andb_prop in Hrefq as [Hr0 Hrefq]. rewrite <- app_assoc.
    cbn [app matchNodes]. rewrite Hr0.
    set (j := S (S (S (i + 4 + length attrs) + length "src" + length "="))).
    erewrite (starLoop_skip _ _ j ref); [| by apply forallb_Forall_true |].
    2: { cbn [starLoop]. rewrite Hq3'. cbn [fmap option_fmap option_map]. rewrite Hq'.
         cbn [fmap option_fmap option_map]. reflexivity. }
    cbn [fmap option_fmap option_map]. subst j. cbn [length].
    f_equal. repeat (f_equal; try lia).
  - unfold run. repeat (constructor; [done|]).
    apply Forall_app. split; [by apply mentions_noneOf|].
    constructor; [done|]. by apply mentions_noneOf.
  - done.
  - intros x y Hxy Hx. unfold run in Hxy.
    assert (Hall : mentions "=" (q :: ref ++ q' :: tagRest) = false).
    { cbn [mentions existsb]. rewrite Hq4. unfold mentions in *.
      rewrite existsb_app. cbn [existsb]. by rewrite Hrefeq, Hq4', Hresteq. }
    destruct x as [|x1 [|x2 [|x3 [|x4 [|x5 x]]]]]; [done|..]; cbn [app] in Hxy;
      unfold srcAttr.
    1-4: simplify_eq; cbn [app]; by apply class_fail.
    apply (matchNodes_barrier "=" ">"); [done|done|].
    injection Hxy as _ _ _ _ _ Hxy. rewrite Hxy in Hall.
    by apply mentions_app_false in Hall as [_ ?].
Qed.

End TagMatch.

(** ** [embedImages] on an image element *)

Section ImgElement.
Context {env : Externals}.
Local Open Scope nat_scope.

Lemma startsImg_before_gt t u :
  mentions ">" t = false -> startsImg (t ++ ">"%char :: u) = true ->
  drop 4 (t ++ ">"%char :: u) = drop 4 t ++ ">"%char :: u.
Proof.
  intros _. destruct t as [|c0 [|c1 [|c2 [|c3 t]]]]; [..|done];
    destruct u as [|u1 [|u2 [|u3 u]]]; cbn;
    repeat (match goal with
            | |- context [Ascii.eqb ?c ?d] => destruct (Ascii.eqb c d); cbn
            end);
    done.
Qed.

(** No image element starts in what is left of an element after its
    [src] attribute when no equals sign follows, nor after the element
    in a text without [<img]. *)
Lemma img_none_in_rest tagRest after i :
  mentions ">" tagRest = false -> mentions "=" tagRest = false -> noImgTag after ->
  findFrom (groups imgSrcRegex) i (tagRest ++ ">"%char :: after) = None.
Proof.
  intros Hgt Heq Hafter. apply findFrom_None_intro. intros n Hn.
  destruct (decide (n <= length tagRest)) as [Hle|Hlt].
  - rewrite drop_app_le by done.
    rewrite img_groups. cbn [matchGroups]. rewrite matchNodes_app, imgStart_spec.
    destruct (startsImg _) eqn:Hs; [|done].
    rewrite startsImg_before_gt; [|by apply mentions_drop|done].
    cbn [matchNodes]. apply (starLoop_barrier "=" ">"); [done| |].
    + intros j y' Hy'. by apply (matchNodes_barrier "=" ">").
    + by do 2 apply mentions_drop.
  - rewrite drop_app_ge by lia.
    replace (n - length tagRest) with (S (n - length tagRest - 1)) by lia. cbn [drop].
    apply img_no_match. apply noImgTag_spec; [done|].
    rewrite length_app in Hn. simpl in Hn. lia.
Qed.

Lemma take_drop_middle (p m s : gostring) :
  take (length p) (p ++ m ++ s) = p
  /\ substr (p ++ m ++ s) (length p) (length p + length m) = m
  /\ drop (length p + length m) (p ++ m ++ s) = s.
Proof.
  split; [by rewrite take_app_length|]. split.
  - unfold substr. rewrite drop_app_length.
    replace (length p + length m - length p) with (length m) by lia.
    by rewrite take_app_length.
  - rewrite <- drop_drop, drop_app_length. by rewrite drop_app_length.
Qed.

(** X5: a document made of [before], an image element and [after], the
    element being [<img], attributes, a blank, [src=], a quote, the
    reference, a quote, the rest of the element and [>].  When [before] and
    [after] hold no [<img], the attributes hold no [>], the reference is
    not empty and holds no quote, [>] or [=], and the rest of the element
    holds no [>] or [=], [embedImages] returns the document with the
    reference replaced by its data URI, if [resolveAndEmbed] gives one, and
    with every other byte as it was (provided the result holds no match of
    the [xlink:href] and [url] patterns). *)
Theorem embedImages_img_element before attrs q ref q' tagRest after basePath files :
  noImgTag before -> noImgTag after ->
  mentions ">" attrs = false ->
  oneOf quotes q = true -> oneOf quotes q' = true ->
  ref <> "" -> forallb (noneOf quotes) ref = true ->
  mentions ">" ref = false -> mentions "=" ref = false ->
  mentions ">" tagRest = false -> mentions "=" tagRest = false ->
  let element := fun src =>
    "<img" ++ attrs ++ " src=" ++ [q] ++ src ++ [q'] ++ tagRest ++ ">" in
  let uri := resolveAndEmbed ref basePath files in
  uri <> "" ->
  MatchString xlinkRegex (before ++ element uri ++ after) = false ->
  MatchString urlRegex (before ++ element uri ++ after) = false ->
  embedImages (before ++ element ref ++ after) basePath files
  = before ++ element uri ++ after.
Proof.
  intros Hbefore Hafter Hattrs Hq Hq' Hne Hrefq Hrefgt Hrefeq Hrestgt Hresteq
    element uri Huri Hxlink Hurl.
  set (p := before ++ "<img" ++ attrs ++ " src=" ++ [q]).
  set (s := q' :: tagRest ++ ">"%char :: after).
  assert (Hshape : forall src, before ++ element src ++ after = p ++ src ++ s).
  { intros src. unfold element, p, s. rewrite <- !app_assoc. cbn [app]. done. }
  assert (Hp : length p = length before + length attrs + 10).
  { unfold p. rewrite !length_app. simpl. lia. }
  rewrite !Hshape in *.
  destruct (take_drop_middle p ref s) as (Htake & Hmid & Hdrop).
  set (a0 := length before).
  set (e1 := a0 + length attrs + 9). set (e2 := a0 + length attrs + 10).
  set (e3 := a0 + length attrs + 10 + length ref).
  set (e4 := a0 + length attrs + 11 + length ref).
  assert (He2 : e2 = length p) by (unfold e2, a0; lia).
  assert (He3 : e3 = length p + length ref) by (unfold e3, a0; lia).
  assert (Htext : p ++ ref ++ s
                  = before ++ "<img" ++ attrs ++ (" src=" ++ q :: ref ++ q' :: tagRest)
                      ++ ">"%char :: after).
  { unfold p, s. rewrite <- !app_assoc. cbn [app]. by rewrite <- !app_assoc. }
  assert (Hm : doExecute imgSrcRegex (p ++ ref ++ s) 0 = Some (a0, [e1; e2; e3; e4])).
  { unfold doExecute. rewrite drop_0, Htext.
    apply (findFrom_first _ 0 _ a0).
    - intros n Hn. rewrite drop_app_le by (unfold a0 in Hn; lia).
      apply img_no_match. cbn [app].
      rewrite startsImg_app.
      + apply noImgTag_spec; [done|unfold a0 in Hn; lia].
      + intros Hnil. apply (f_equal length) in Hnil. rewrite length_drop in Hnil.
        simpl in Hnil. unfold a0 in Hn. lia.
    - rewrite length_app. unfold a0. lia.
    - unfold a0. rewrite drop_app_length. cbn [Nat.add].
      by apply img_tag_match. }
  assert (Hnone : doExecute imgSrcRegex (p ++ ref ++ s) e4 = None).
  { unfold doExecute.
    replace (drop e4 (p ++ ref ++ s)) with (tagRest ++ ">"%char :: after).
    - by apply img_none_in_rest.
    - replace e4 with (S (length p + length ref)) by (unfold e4, a0; lia).
      change (S ?n) with (1 + n). rewrite Nat.add_comm, <- drop_drop, Hdrop. done. }
  pose proof (embedImages_single (p ++ ref ++ s) basePath files a0 e1 e2 e3 e4 Hm Hnone)
    as Hsingle.
  cbv zeta in Hsingle. rewrite He2, He3, Htake, Hmid, Hdrop in Hsingle.
  by apply Hsingle.
Qed.

End ImgElement.

Lemma embedImages_img_element_witness :
  embedImages (env := Sample.externals)
    "<html><body><p>One</p><img alt='' src='../img/cover.png'/></body></html>"
    "OEBPS/text" Sample.files
  = "<html><body><p>One</p><img alt='' src='data:image/png;base64,UE5HLWJ5dGVz'/></body></html>".
Proof.
  apply (embedImages_img_element (env := Sample.externals)
           "<html><body><p>One</p>" " alt=''" "'" "../img/cover.png" "'" "/"
           "</body></html>" "OEBPS/text" Sample.files);
    vm_compute; (reflexivity || discriminate).
Defined.

